(** * fast-zod: a shallow embedding of the validation engine

    The development follows the TypeScript sources:
    - [types.ts]      issues, [ValidationError], parse contexts, parse results;
    - [base.ts]       [BaseSchema] ([parse], [safeParse], [_fail], [error]) and
                      the modifier wrappers;
    - [primitives.ts] string, number, boolean and the other scalar schemas;
    - [object.ts]     object, record, map and set schemas;
    - [array.ts]      array and tuple schemas;
    - [enum.ts]       literal, enum, union, discriminated union, intersection;
    - [coerce.ts]     the string-to-boolean schema;
    - [index.ts]      the factories and [preprocess].

    Runtime values are a closed universe of JavaScript data: undefined,
    null, booleans, numbers, bigints, strings, and arrays, plain objects,
    Maps and Sets of such values, all finite and acyclic (no functions,
    symbols, dates, accessors or proxies).  The bigint, date, symbol and
    native enum schemas, the coercions to a primitive, the string formats
    and [lazy] are left out.  Numbers are IEEE-754 doubles.  Text is
    modelled on the ASCII range: code units above 127 carry no case and are
    not white space, so the model and the host agree on the strings that
    [JSString.is_ascii] accepts.  Objects list their own enumerable
    properties in enumeration order; [in] and the assignment to [__proto__]
    see what a plain object inherits from [Object.prototype], while a read
    of an inherited member yields no value of the model, so the model and
    the host agree on the reads of the keys that [inherited] rejects.
    Object-like values have no identity of their own.  [JSON.stringify]
    throws on a bigint; the text it returns, like that of [String(n)], is
    kept symbolic as a message fragment.  A regular expression is its
    source, its flags and its test on a string, started at the [lastIndex]
    the pattern holds when a validation begins; a pattern without the [g]
    and [y] flags keeps no state, and only for such patterns ([stateless])
    do two tests of one string agree.

    A JavaScript [throw] is modelled by the [Raise] outcome of [result]; the
    test [e instanceof ValidationError] is a match on the raised exception.
    The class method [_parse] of every schema class is written once, over an
    abstract dispatch to the children ([parse_node]); it is run on schema
    trees ([_parse]) and on a store of schema objects ([Store]), where a
    derived schema and its original are different or the same object. *)

From stdpp Require Import base option list.
From Stdlib Require Import Lia ZArith Ascii String DecimalString PrimFloat Uint63 SpecFloat FloatOps FloatAxioms.

Set Warnings "-register-all".
Local Open Scope string_scope.
Local Open Scope list_scope.

(** ** Numbers *)

Module Number.
Definition of_nat (n : nat) : float :=
  PrimFloat.of_uint63 (Uint63.of_Z (Z.of_nat n)).

Definition isNaN (x : float) : bool := PrimFloat.is_nan x.
Definition isFinite (x : float) : bool := PrimFloat.is_finite x.

Definition isInteger (x : float) : bool :=
  match Prim2SF x with
  | S754_zero _ => true
  | S754_finite _ m e =>
      if (0 <=? e)%Z then true else (Z.pos m mod 2 ^ (- e) =? 0)%Z
  | _ => false
  end.

Definition EPSILON : float := 0x1p-52%float.

(** [x % y === 0]; the remainder of two doubles is exact. *)
Definition rem_is_zero (x y : float) : bool :=
  match Prim2SF x, Prim2SF y with
  | S754_nan, _ | _, S754_nan => false
  | S754_infinity _, _ => false
  | _, S754_zero _ => false
  | S754_zero _, _ => true
  | S754_finite _ _ _, S754_infinity _ => false
  | S754_finite _ mx ex, S754_finite _ my ey =>
      let e := Z.min ex ey in
      ((Z.pos mx * 2 ^ (ex - e)) mod (Z.pos my * 2 ^ (ey - e)) =? 0)%Z
  end.

(** [a !== b] on numbers. *)
Definition neq (a b : float) : bool := negb (PrimFloat.eqb a b).

(** Equal as numbers, or both NaN. *)
Definition sameValueZero (x y : float) : bool :=
  PrimFloat.eqb x y || (PrimFloat.is_nan x && PrimFloat.is_nan y).

(** The zeros of either sign are one number. *)
Definition canonical (f : spec_float) : spec_float :=
  match f with
  | S754_zero _ => S754_zero false
  | _ => f
  end.
End Number.

(** ** Runtime values *)

Inductive value : Type :=
| VUndefined
| VNull
| VBool (b : bool)
| VNum (n : float)
| VBigInt (n : Z)
| VStr (s : string)
| VArr (items : list value)
| VObj (props : list (string * value))
| VMap (entries : list (value * value))
| VSet (members : list value).

Definition typeof (data : value) : string :=
  match data with
  | VUndefined => "undefined"
  | VBool _ => "boolean"
  | VNum _ => "number"
  | VBigInt _ => "bigint"
  | VStr _ => "string"
  | VNull | VArr _ | VObj _ | VMap _ | VSet _ => "object"
  end.

Definition isArray (data : value) : bool :=
  match data with VArr _ => true | _ => false end.

(** [typeof data !== "object" || data === null] *)
Definition not_object_or_null (data : value) : bool :=
  negb (String.eqb (typeof data) "object") || match data with VNull => true | _ => false end.

Fixpoint assoc {A} (key : string) (props : list (string * A)) : option A :=
  match props with
  | [] => None
  | (k, v) :: rest => if String.eqb k key then Some v else assoc key rest
  end.

(** The property key of an array index. *)
Definition index_key (i : nat) : string :=
  NilEmpty.string_of_uint (Nat.to_uint i).

(** [items[key]] for a key that is the canonical form of an index. *)
Fixpoint get_index (items : list value) (i : nat) (key : string) : value :=
  match items with
  | [] => VUndefined
  | x :: rest => if String.eqb (index_key i) key then x else get_index rest (S i) key
  end.

(** [input[key]] on a value already known to be object-like: an own
    property, an element or the length of an array, the size of a map or a
    set.  The function-valued members of the prototypes are left out. *)
Definition get_prop (input : value) (key : string) : value :=
  match input with
  | VObj props => match assoc key props with Some v => v | None => VUndefined end
  | VArr items =>
      if String.eqb key "length" then VNum (Number.of_nat (List.length items))
      else get_index items 0 key
  | VMap entries =>
      if String.eqb key "size" then VNum (Number.of_nat (List.length entries))
      else VUndefined
  | VSet members =>
      if String.eqb key "size" then VNum (Number.of_nat (List.length members))
      else VUndefined
  | _ => VUndefined
  end.

(** Defining an own property, as a spread does: overwrite in place, or
    append a new property. *)
Fixpoint obj_set (props : list (string * value)) (key : string) (v : value)
  : list (string * value) :=
  match props with
  | [] => [(key, v)]
  | (k, w) :: rest =>
      if String.eqb k key then (k, v) :: rest else (k, w) :: obj_set rest key v
  end.

(** [output[key] = v] on an object built from [{}].  The assignment to
    [__proto__] reaches the setter that the object inherits from
    [Object.prototype]: it adds no property. *)
Definition obj_assign (props : list (string * value)) (key : string) (v : value)
  : list (string * value) :=
  if String.eqb key "__proto__" then props else obj_set props key v.

Definition has_key {A} (key : string) (props : list (string * A)) : bool :=
  match assoc key props with Some _ => true | None => false end.

(** The names that every plain object inherits from [Object.prototype].  On
    an object that lacks such a key as an own property, [input[key]] reads
    the inherited member; on every other key a read is [get_prop]. *)
Definition prototype_names : list string :=
  ["constructor"; "__defineGetter__"; "__defineSetter__"; "hasOwnProperty";
   "__lookupGetter__"; "__lookupSetter__"; "isPrototypeOf";
   "propertyIsEnumerable"; "toString"; "valueOf"; "__proto__";
   "toLocaleString"].

Definition inherited (key : string) : bool :=
  existsb (String.eqb key) prototype_names.

(** [key in props], [props] being a plain object: an own or an inherited
    property. *)
Definition key_in {A} (key : string) (props : list (string * A)) : bool :=
  has_key key props || inherited key.

(** The comparison used by [Set.prototype.has] and [Map.prototype.get].
    Object-like values compare by reference; two separately allocated values
    are never the same reference. *)
Definition sameValueZero (a b : value) : bool :=
  match a, b with
  | VUndefined, VUndefined => true
  | VNull, VNull => true
  | VBool x, VBool y => Bool.eqb x y
  | VNum x, VNum y => Number.sameValueZero x y
  | VBigInt x, VBigInt y => Z.eqb x y
  | VStr x, VStr y => String.eqb x y
  | _, _ => false
  end.

(** ** Strings *)

Module JSString.
Definition is_upper (c : ascii) : bool :=
  let n := nat_of_ascii c in (65 <=? n)%nat && (n <=? 90)%nat.
Definition is_lower (c : ascii) : bool :=
  let n := nat_of_ascii c in (97 <=? n)%nat && (n <=? 122)%nat.

Definition lower_char (c : ascii) : ascii :=
  if is_upper c then ascii_of_nat (nat_of_ascii c + 32) else c.
Definition upper_char (c : ascii) : ascii :=
  if is_lower c then ascii_of_nat (nat_of_ascii c - 32) else c.

(** Tab, line feed, vertical tab, form feed, carriage return, space. *)
Definition is_space (c : ascii) : bool :=
  let n := nat_of_ascii c in
  ((9 <=? n)%nat && (n <=? 13)%nat) || (n =? 32)%nat.

Fixpoint map_chars (f : ascii -> ascii) (s : string) : string :=
  match s with
  | EmptyString => EmptyString
  | String c rest => String (f c) (map_chars f rest)
  end.

Definition toLowerCase (s : string) : string := map_chars lower_char s.
Definition toUpperCase (s : string) : string := map_chars upper_char s.

Fixpoint trimStart (s : string) : string :=
  match s with
  | EmptyString => EmptyString
  | String c rest => if is_space c then trimStart rest else s
  end.

Fixpoint all_space (s : string) : bool :=
  match s with
  | EmptyString => true
  | String c rest => is_space c && all_space rest
  end.

Fixpoint trimEnd (s : string) : string :=
  match s with
  | EmptyString => EmptyString
  | String c rest => if all_space s then EmptyString else String c (trimEnd rest)
  end.

Definition trim (s : string) : string := trimEnd (trimStart s).



Definition startsWith (s search : string) : bool := String.prefix search s.

Fixpoint includes (s search : string) : bool :=
  String.prefix search s
  || match s with
     | EmptyString => false
     | String _ rest => includes rest search
     end.

Fixpoint endsWith (s search : string) : bool :=
  String.eqb s search
  || match s with
     | EmptyString => false
     | String _ rest => endsWith rest search
     end.
End JSString.

(** A pattern: its source, its flags as the [flags] accessor returns them,
    and its test on a string from the [lastIndex] the pattern holds. *)
Record RegExp : Type := {
  source : string;
  flags : string;
  test : string -> bool
}.

Definition global (pattern : RegExp) : bool := JSString.includes (flags pattern) "g".


(** [String(pattern)], as a template literal renders a pattern. *)
Definition RegExp_toString (pattern : RegExp) : string :=
  "/" ++ source pattern ++ "/" ++ flags pattern.

(** ** Issues and errors ([types.ts]) *)

Inductive segment : Type :=
| Key (k : string)
| Index (i : nat).

(** A message is the sequence of the template's parts. *)
Inductive fragment : Type :=
| Txt (s : string)
| Num (n : float)
| Json (v : value)
| Str (v : value).

Definition message : Type := list fragment.

Record Issue : Type := {
  code : string;
  path : list segment;
  msg : message;
  expected : option message;
  received : option message
}.

Inductive exception : Type :=
| ValidationError (issues : list Issue)
| HostError (name : string).

Record ParseContext : Type := {
  ctx_path : list segment;
  ctx_parent : option value
}.

Inductive ErrorCustomizer : Type :=
| Fixed (text : string)
| Computed (f : Issue -> option string).

(** ** Outcomes of a call: a returned value or a raised exception *)

Inductive result (A : Type) : Type :=
| Ok (a : A)
| Raise (e : exception).
Arguments Ok {A} a.
Arguments Raise {A} e.

#[global] Instance result_ret : MRet result := fun A a => Ok a.
#[global] Instance result_bind : MBind result := fun A B f r =>
  match r with
  | Ok a => f a
  | Raise e => Raise e
  end.

(** [try { ... } catch (e) { if (e instanceof ValidationError) ... else throw e }] *)
Definition attempt {A} (r : result A) : result (A + list Issue) :=
  match r with
  | Ok a => Ok (inl a)
  | Raise (ValidationError issues) => Ok (inr issues)
  | Raise e => Raise e
  end.

Inductive ParseResult : Type :=
| Success (data : value)
| Failure (error : list Issue).

(** ** [JSON.stringify] *)

Module JSON.
(** [JSON.stringify] throws a [TypeError] on a bigint, wherever it sits in
    the arrays and plain objects of the value; a Map or a Set is rendered as
    an object without properties, whatever it holds. *)
Fixpoint serializable (v : value) : bool :=
  match v with
  | VBigInt _ => false
  | VArr items => forallb serializable items
  | VObj props => forallb (fun kv => let '(_, x) := kv in serializable x) props
  | _ => true
  end.

Definition stringify (v : value) : result message :=
  if serializable v then Ok [Json v] else Raise (HostError "TypeError").
End JSON.

(** [array.map(f)] for an [f] that can throw. *)
Fixpoint map_throwing {A B} (f : A -> result B) (items : list A) : result (list B) :=
  match items with
  | [] => Ok []
  | x :: rest => y ← f x; ys ← map_throwing f rest; Ok (y :: ys)
  end.

(** ** [BaseSchema]: the shared failure helper *)

(** The double quote character, for the quoted parts of the messages. *)
Definition dquote : string := String (ascii_of_nat 34) EmptyString.

Definition truthy_string (s : string) : bool := negb (String.eqb s EmptyString).

(** [BaseSchema._fail]: apply the node's customizer to the default message and
    throw a [ValidationError] holding the single issue. *)
Definition _fail {A} (_errorCustomizer : option ErrorCustomizer)
    (code : string) (m : message) (ctx : ParseContext)
    (expected received : option message) : result A :=
  let finalMessage :=
    match _errorCustomizer with
    | Some (Fixed text) => if truthy_string text then [Txt text] else m
    | Some (Computed f) =>
        match f {| code := code; path := ctx_path ctx; msg := m;
                   expected := expected; received := received |} with
        | Some custom => if truthy_string custom then [Txt custom] else m
        | None => m
        end
    | None => m
    end in
  Raise (ValidationError
           [{| code := code; path := ctx_path ctx; msg := finalMessage;
               expected := expected; received := received |}]).

(** [if (cond) this._fail(...)] as a statement. *)
Definition fail_if (cond : bool) (failure : result unit) : result unit :=
  if cond then failure else Ok tt.

(** [if (this.field !== undefined && violated(this.field)) this._fail(...)] *)
Definition check {A} (field : option A) (violated : A -> bool)
    (failure : A -> result unit) : result unit :=
  match field with
  | Some x => fail_if (violated x) (failure x)
  | None => Ok tt
  end.

(** [if (message) clone._errorCustomizer = message] *)
Definition with_message (message : option string)
    (ec : option ErrorCustomizer) : option ErrorCustomizer :=
  match message with
  | Some m => if truthy_string m then Some (Fixed m) else ec
  | None => ec
  end.

(** ** Primitive schemas ([primitives.ts]) *)

Module StringSchema.
Record t : Type := {
  _min : option float;
  _max : option float;
  _length : option float;
  _regex : option RegExp;
  _includes : option string;
  _startsWith : option string;
  _endsWith : option string;
  _trim : bool;
  _toLowerCase : bool;
  _toUpperCase : bool
}.

Definition new : t :=
  {| _min := None; _max := None; _length := None; _regex := None;
     _includes := None; _startsWith := None; _endsWith := None;
     _trim := false; _toLowerCase := false; _toUpperCase := false |}.

(** The transformations applied before the checks. *)
Definition normalize (this : t) (data : string) : string :=
  let str := data in
  let str := if _trim this then JSString.trim str else str in
  let str := if _toLowerCase this then JSString.toLowerCase str else str in
  let str := if _toUpperCase this then JSString.toUpperCase str else str in
  str.

Definition _parse (ec : option ErrorCustomizer) (this : t)
    (data : value) (ctx : ParseContext) : result value :=
  match data with
  | VStr s =>
      let str := normalize this s in
      let len := Number.of_nat (String.length str) in
      check (_length this) (fun l => Number.neq len l)
        (fun l => _fail ec "invalid_length"
           [Txt "String must be exactly "; Num l; Txt " characters"] ctx None None);;
      check (_min this) (fun m => PrimFloat.ltb len m)
        (fun m => _fail ec "too_small"
           [Txt "String must be at least "; Num m; Txt " characters"] ctx None None);;
      check (_max this) (fun m => PrimFloat.ltb m len)
        (fun m => _fail ec "too_big"
           [Txt "String must be at most "; Num m; Txt " characters"] ctx None None);;
      check (_startsWith this) (fun p => negb (JSString.startsWith str p))
        (fun p => _fail ec "invalid_string"
           [Txt "String must start with "; Txt dquote; Txt p; Txt dquote] ctx None None);;
      check (_endsWith this) (fun p => negb (JSString.endsWith str p))
        (fun p => _fail ec "invalid_string"
           [Txt "String must end with "; Txt dquote; Txt p; Txt dquote] ctx None None);;
      check (_includes this) (fun p => negb (JSString.includes str p))
        (fun p => _fail ec "invalid_string"
           [Txt "String must include "; Txt dquote; Txt p; Txt dquote] ctx None None);;
      check (_regex this) (fun r => negb (test r str))
        (fun r => _fail ec "invalid_string"
           [Txt "String must match pattern "; Txt (RegExp_toString r)] ctx None None);;
      Ok (VStr str)
  | _ =>
      _fail ec "invalid_type" [Txt "Expected string, received "; Txt (typeof data)]
        ctx (Some [Txt "string"]) (Some [Txt (typeof data)])
  end.

(** Chainable configuration: each method works on a copy of the fields. *)
Definition min (length : float) (this : t) : t :=
  {| _min := Some length; _max := _max this; _length := _length this;
     _regex := _regex this; _includes := _includes this;
     _startsWith := _startsWith this; _endsWith := _endsWith this;
     _trim := _trim this; _toLowerCase := _toLowerCase this;
     _toUpperCase := _toUpperCase this |}.
Definition max (length : float) (this : t) : t :=
  {| _min := _min this; _max := Some length; _length := _length this;
     _regex := _regex this; _includes := _includes this;
     _startsWith := _startsWith this; _endsWith := _endsWith this;
     _trim := _trim this; _toLowerCase := _toLowerCase this;
     _toUpperCase := _toUpperCase this |}.
Definition length (length : float) (this : t) : t :=
  {| _min := _min this; _max := _max this; _length := Some length;
     _regex := _regex this; _includes := _includes this;
     _startsWith := _startsWith this; _endsWith := _endsWith this;
     _trim := _trim this; _toLowerCase := _toLowerCase this;
     _toUpperCase := _toUpperCase this |}.
Definition regex (pattern : RegExp) (this : t) : t :=
  {| _min := _min this; _max := _max this; _length := _length this;
     _regex := Some pattern; _includes := _includes this;
     _startsWith := _startsWith this; _endsWith := _endsWith this;
     _trim := _trim this; _toLowerCase := _toLowerCase this;
     _toUpperCase := _toUpperCase this |}.
Definition includes (str : string) (this : t) : t :=
  {| _min := _min this; _max := _max this; _length := _length this;
     _regex := _regex this; _includes := Some str;
     _startsWith := _startsWith this; _endsWith := _endsWith this;
     _trim := _trim this; _toLowerCase := _toLowerCase this;
     _toUpperCase := _toUpperCase this |}.
Definition startsWith (str : string) (this : t) : t :=
  {| _min := _min this; _max := _max this; _length := _length this;
     _regex := _regex this; _includes := _includes this;
     _startsWith := Some str; _endsWith := _endsWith this;
     _trim := _trim this; _toLowerCase := _toLowerCase this;
     _toUpperCase := _toUpperCase this |}.
Definition endsWith (str : string) (this : t) : t :=
  {| _min := _min this; _max := _max this; _length := _length this;
     _regex := _regex this; _includes := _includes this;
     _startsWith := _startsWith this; _endsWith := Some str;
     _trim := _trim this; _toLowerCase := _toLowerCase this;
     _toUpperCase := _toUpperCase this |}.
Definition trim (this : t) : t :=
  {| _min := _min this; _max := _max this; _length := _length this;
     _regex := _regex this; _includes := _includes this;
     _startsWith := _startsWith this; _endsWith := _endsWith this;
     _trim := true; _toLowerCase := _toLowerCase this;
     _toUpperCase := _toUpperCase this |}.
Definition toLowerCase (this : t) : t :=
  {| _min := _min this; _max := _max this; _length := _length this;
     _regex := _regex this; _includes := _includes this;
     _startsWith := _startsWith this; _endsWith := _endsWith this;
     _trim := _trim this; _toLowerCase := true;
     _toUpperCase := _toUpperCase this |}.
Definition toUpperCase (this : t) : t :=
  {| _min := _min this; _max := _max this; _length := _length this;
     _regex := _regex this; _includes := _includes this;
     _startsWith := _startsWith this; _endsWith := _endsWith this;
     _trim := _trim this; _toLowerCase := _toLowerCase this;
     _toUpperCase := true |}.
End StringSchema.

Module NumberSchema.
Record t : Type := {
  _min : option float;
  _max : option float;
  _int : bool;
  _positive : bool;
  _negative : bool;
  _nonnegative : bool;
  _nonpositive : bool;
  _finite : bool;
  _multipleOf : option float
}.

Definition new : t :=
  {| _min := None; _max := None; _int := false; _positive := false;
     _negative := false; _nonnegative := false; _nonpositive := false;
     _finite := false; _multipleOf := None |}.

Definition _parse (ec : option ErrorCustomizer) (this : t)
    (data : value) (ctx : ParseContext) : result value :=
  match data with
  | VNum n =>
      fail_if (Number.isNaN n)
        (_fail ec "invalid_type" [Txt "Expected number, received NaN"] ctx None None);;
      fail_if (_finite this && negb (Number.isFinite n))
        (_fail ec "not_finite" [Txt "Number must be finite"] ctx None None);;
      fail_if (_int this && negb (Number.isInteger n))
        (_fail ec "invalid_type" [Txt "Expected integer"] ctx None None);;
      fail_if (_positive this && PrimFloat.leb n 0)
        (_fail ec "too_small" [Txt "Number must be positive"] ctx None None);;
      fail_if (_negative this && PrimFloat.leb 0 n)
        (_fail ec "too_big" [Txt "Number must be negative"] ctx None None);;
      fail_if (_nonnegative this && PrimFloat.ltb n 0)
        (_fail ec "too_small" [Txt "Number must be non-negative"] ctx None None);;
      fail_if (_nonpositive this && PrimFloat.ltb 0 n)
        (_fail ec "too_big" [Txt "Number must be non-positive"] ctx None None);;
      check (_min this) (fun m => PrimFloat.ltb n m)
        (fun m => _fail ec "too_small" [Txt "Number must be >= "; Num m] ctx None None);;
      check (_max this) (fun m => PrimFloat.ltb m n)
        (fun m => _fail ec "too_big" [Txt "Number must be <= "; Num m] ctx None None);;
      check (_multipleOf this) (fun m => negb (Number.rem_is_zero n m))
        (fun m => _fail ec "not_multiple_of"
           [Txt "Number must be a multiple of "; Num m] ctx None None);;
      Ok (VNum n)
  | _ =>
      _fail ec "invalid_type" [Txt "Expected number, received "; Txt (typeof data)]
        ctx (Some [Txt "number"]) (Some [Txt (typeof data)])
  end.

(** Chainable configuration: each method works on a copy of the fields. *)
Definition min (value : float) (this : t) : t :=
  {| _min := Some value; _max := _max this; _int := _int this;
     _positive := _positive this; _negative := _negative this; _nonnegative := _nonnegative this;
     _nonpositive := _nonpositive this; _finite := _finite this; _multipleOf := _multipleOf this |}.
Definition max (value : float) (this : t) : t :=
  {| _min := _min this; _max := Some value; _int := _int this;
     _positive := _positive this; _negative := _negative this; _nonnegative := _nonnegative this;
     _nonpositive := _nonpositive this; _finite := _finite this; _multipleOf := _multipleOf this |}.
Definition gte (value : float) (this : t) : t := min value this.
Definition lte (value : float) (this : t) : t := max value this.
Definition gt (value : float) (this : t) : t :=
  {| _min := Some (value + Number.EPSILON)%float; _max := _max this; _int := _int this;
     _positive := _positive this; _negative := _negative this; _nonnegative := _nonnegative this;
     _nonpositive := _nonpositive this; _finite := _finite this; _multipleOf := _multipleOf this |}.
Definition lt (value : float) (this : t) : t :=
  {| _min := _min this; _max := Some (value - Number.EPSILON)%float; _int := _int this;
     _positive := _positive this; _negative := _negative this; _nonnegative := _nonnegative this;
     _nonpositive := _nonpositive this; _finite := _finite this; _multipleOf := _multipleOf this |}.
Definition int (this : t) : t :=
  {| _min := _min this; _max := _max this; _int := true;
     _positive := _positive this; _negative := _negative this; _nonnegative := _nonnegative this;
     _nonpositive := _nonpositive this; _finite := _finite this; _multipleOf := _multipleOf this |}.
Definition positive (this : t) : t :=
  {| _min := _min this; _max := _max this; _int := _int this;
     _positive := true; _negative := _negative this; _nonnegative := _nonnegative this;
     _nonpositive := _nonpositive this; _finite := _finite this; _multipleOf := _multipleOf this |}.
Definition negative (this : t) : t :=
  {| _min := _min this; _max := _max this; _int := _int this;
     _positive := _positive this; _negative := true; _nonnegative := _nonnegative this;
     _nonpositive := _nonpositive this; _finite := _finite this; _multipleOf := _multipleOf this |}.
Definition nonnegative (this : t) : t :=
  {| _min := _min this; _max := _max this; _int := _int this;
     _positive := _positive this; _negative := _negative this; _nonnegative := true;
     _nonpositive := _nonpositive this; _finite := _finite this; _multipleOf := _multipleOf this |}.
Definition nonpositive (this : t) : t :=
  {| _min := _min this; _max := _max this; _int := _int this;
     _positive := _positive this; _negative := _negative this; _nonnegative := _nonnegative this;
     _nonpositive := true; _finite := _finite this; _multipleOf := _multipleOf this |}.
Definition finite (this : t) : t :=
  {| _min := _min this; _max := _max this; _int := _int this;
     _positive := _positive this; _negative := _negative this; _nonnegative := _nonnegative this;
     _nonpositive := _nonpositive this; _finite := true; _multipleOf := _multipleOf this |}.
Definition multipleOf (value : float) (this : t) : t :=
  {| _min := _min this; _max := _max this; _int := _int this;
     _positive := _positive this; _negative := _negative this; _nonnegative := _nonnegative this;
     _nonpositive := _nonpositive this; _finite := _finite this; _multipleOf := Some value |}.
Definition step (value : float) (this : t) : t := multipleOf value this.
End NumberSchema.

Module BooleanSchema.
Definition _parse (ec : option ErrorCustomizer)
    (data : value) (ctx : ParseContext) : result value :=
  match data with
  | VBool _ => Ok data
  | _ =>
      _fail ec "invalid_type" [Txt "Expected boolean, received "; Txt (typeof data)]
        ctx (Some [Txt "boolean"]) (Some [Txt (typeof data)])
  end.
End BooleanSchema.

Module UndefinedSchema.
Definition _parse (ec : option ErrorCustomizer)
    (data : value) (ctx : ParseContext) : result value :=
  match data with
  | VUndefined => Ok data
  | _ =>
      _fail ec "invalid_type" [Txt "Expected undefined, received "; Txt (typeof data)]
        ctx (Some [Txt "undefined"]) (Some [Txt (typeof data)])
  end.
End UndefinedSchema.

Module NullSchema.
Definition _parse (ec : option ErrorCustomizer)
    (data : value) (ctx : ParseContext) : result value :=
  match data with
  | VNull => Ok data
  | _ =>
      _fail ec "invalid_type" [Txt "Expected null, received "; Txt (typeof data)]
        ctx (Some [Txt "null"]) (Some [Txt (typeof data)])
  end.
End NullSchema.

Module VoidSchema.
Definition _parse (ec : option ErrorCustomizer)
    (data : value) (ctx : ParseContext) : result value :=
  match data with
  | VUndefined => Ok data
  | _ =>
      _fail ec "invalid_type"
        [Txt "Expected void (undefined), received "; Txt (typeof data)]
        ctx (Some [Txt "void"]) (Some [Txt (typeof data)])
  end.
End VoidSchema.

Module NeverSchema.
Definition _parse (ec : option ErrorCustomizer)
    (data : value) (ctx : ParseContext) : result value :=
  _fail ec "invalid_type" [Txt "Never type cannot have any value"] ctx None None.
End NeverSchema.

Module NaNSchema.
Definition _parse (ec : option ErrorCustomizer)
    (data : value) (ctx : ParseContext) : result value :=
  match data with
  | VNum n =>
      if Number.isNaN n then Ok data
      else _fail ec "invalid_type" [Txt "Expected NaN"] ctx
             (Some [Txt "NaN"]) (Some [Str data])
  | _ =>
      _fail ec "invalid_type" [Txt "Expected NaN"] ctx
        (Some [Txt "NaN"]) (Some [Str data])
  end.
End NaNSchema.

(** ** Literal and enum schemas ([enum.ts]) *)

(** [Set.prototype.add] and [Set.prototype.has] on a set kept in insertion order. *)
Definition set_has (s : list value) (v : value) : bool := existsb (sameValueZero v) s.
Definition set_add (s : list value) (v : value) : list value :=
  if set_has s v then s else s ++ [v].

Fixpoint map_set {A} (m : list (value * A)) (k : value) (a : A) : list (value * A) :=
  match m with
  | [] => [(k, a)]
  | (k', a') :: rest =>
      if sameValueZero k' k then (k', a) :: rest else (k', a') :: map_set rest k a
  end.

(** [parts.join(" | ")] *)
Fixpoint join_or (parts : list message) : message :=
  match parts with
  | [] => []
  | [p] => p
  | p :: rest => p ++ Txt " | " :: join_or rest
  end.

Module LiteralSchema.
(** The constructor: [new Set(value)] for an array, [new Set([value])] otherwise. *)
Definition new (v : value) : list value :=
  match v with
  | VArr items => fold_left set_add items []
  | _ => [v]
  end.

Definition _parse (ec : option ErrorCustomizer) (_values : list value)
    (data : value) (ctx : ParseContext) : result value :=
  if negb (set_has _values data) then
    rendered ← map_throwing JSON.stringify _values;
    let expected := join_or rendered in
    received ← JSON.stringify data;
    _fail ec "invalid_literal"
      (Txt "Expected " :: expected ++ Txt ", received " :: received)
      ctx (Some expected) (Some received)
  else Ok data.
End LiteralSchema.

Module EnumSchema.
Definition has (_values : list string) (s : string) : bool :=
  existsb (String.eqb s) _values.

(** The constructor: [new Set(values)]. *)
Definition new (values : list string) : list string :=
  fold_left (fun acc v => if has acc v then acc else acc ++ [v]) values [].

Definition _parse (ec : option ErrorCustomizer) (_values : list string)
    (data : value) (ctx : ParseContext) : result value :=
  let ok := match data with VStr s => has _values s | _ => false end in
  if negb ok then
    let expected :=
      join_or (map (fun v => [Txt dquote; Txt v; Txt dquote]) _values) in
    received ← JSON.stringify data;
    _fail ec "invalid_enum_value"
      (Txt "Expected " :: expected ++ Txt ", received " :: received)
      ctx (Some expected) (Some received)
  else Ok data.
End EnumSchema.

(** ** The string-to-boolean schema ([coerce.ts]) *)

Module StringBoolSchema.
Record options : Type := {
  truthy : option (list string);
  falsy : option (list string)
}.

Record t : Type := {
  _truthy : list string;
  _falsy : list string
}.

Definition new (opts : option options) : t :=
  {| _truthy := default ["true"; "1"; "yes"; "on"; "y"; "enabled"] (opts ≫= truthy);
     _falsy := default ["false"; "0"; "no"; "off"; "n"; "disabled"] (opts ≫= falsy) |}.

Definition has (tokens : list string) (s : string) : bool :=
  existsb (String.eqb s) tokens.

Definition _parse (ec : option ErrorCustomizer) (this : t)
    (data : value) (ctx : ParseContext) : result value :=
  match data with
  | VStr s =>
      let lower := JSString.toLowerCase s in
      if has (_truthy this) lower then Ok (VBool true)
      else if has (_falsy this) lower then Ok (VBool false)
      else _fail ec "invalid_value"
             [Txt "Cannot parse "; Txt dquote; Txt s; Txt dquote; Txt " as boolean"] ctx None None
  | _ =>
      _fail ec "invalid_type" [Txt "Expected string, received "; Txt (typeof data)]
        ctx None None
  end.
End StringBoolSchema.

(** ** Modifier wrappers ([base.ts])

    Every schema with children reaches them through [call], the dynamic
    dispatch [child._parse(data, ctx)]. *)

Inductive fallback : Type :=
| FallbackValue (v : value)
| FallbackThunk (f : unit -> result value).

(** [typeof def === 'function' ? def() : def] *)
Definition eval_fallback (d : fallback) : result value :=
  match d with
  | FallbackValue v => Ok v
  | FallbackThunk f => f tt
  end.

Section Modifiers.
Context {C : Type} (call : C -> value -> ParseContext -> result value).

Definition OptionalSchema_parse (_inner : C)
    (data : value) (ctx : ParseContext) : result value :=
  match data with
  | VUndefined => Ok VUndefined
  | _ => call _inner data ctx
  end.

Definition NullableSchema_parse (_inner : C)
    (data : value) (ctx : ParseContext) : result value :=
  match data with
  | VNull => Ok VNull
  | _ => call _inner data ctx
  end.

Definition NullishSchema_parse (_inner : C)
    (data : value) (ctx : ParseContext) : result value :=
  match data with
  | VNull | VUndefined => Ok data
  | _ => call _inner data ctx
  end.

Definition DefaultSchema_parse (_inner : C) (_default : fallback)
    (data : value) (ctx : ParseContext) : result value :=
  match data with
  | VUndefined => eval_fallback _default
  | _ => call _inner data ctx
  end.

(** A bare [catch] clause: every exception is swallowed. *)
Definition CatchSchema_parse (_inner : C) (_catch : fallback)
    (data : value) (ctx : ParseContext) : result value :=
  match call _inner data ctx with
  | Ok v => Ok v
  | Raise _ => eval_fallback _catch
  end.

Definition TransformSchema_parse (_inner : C) (_transform : value -> result value)
    (data : value) (ctx : ParseContext) : result value :=
  parsed ← call _inner data ctx;
  _transform parsed.

Definition RefineSchema_parse (ec : option ErrorCustomizer) (_inner : C)
    (_refine : value -> result bool) (_message : string)
    (data : value) (ctx : ParseContext) : result value :=
  parsed ← call _inner data ctx;
  holds ← _refine parsed;
  fail_if (negb holds) (_fail ec "custom" [Txt _message] ctx None None);;
  Ok parsed.

Definition PipeSchema_parse (_first _second : C)
    (data : value) (ctx : ParseContext) : result value :=
  first ← call _first data ctx;
  call _second first ctx.
End Modifiers.

Definition TransformOnlySchema_parse (_fn : value -> result value)
    (data : value) (_ctx : ParseContext) : result value :=
  _fn data.

(** ** Composite schemas ([object.ts], [array.ts]) *)

(** [{ path: [...ctx.path, ...segments], parent }]: a fresh context per descent. *)
Definition descend (ctx : ParseContext) (segments : list segment)
    (parent : value) : ParseContext :=
  {| ctx_path := ctx_path ctx ++ segments; ctx_parent := Some parent |}.

(** [if (issues.length > 0) throw new ValidationError(issues); return output] *)
Definition finish {A} (output : A) (issues : list Issue) : result A :=
  match issues with
  | [] => Ok output
  | _ :: _ => Raise (ValidationError issues)
  end.

(** [Object.keys(input)] for an object-like input that is not an array. *)
Definition object_keys (input : value) : list string :=
  match input with
  | VObj props => map fst props
  | _ => []
  end.

(** The received type named in an object-shape failure. *)
Definition received_object_type (data : value) : string :=
  match data with
  | VNull => "null"
  | VArr _ => "array"
  | _ => typeof data
  end.

Inductive UnknownKeysMode : Type := strip | strict | passthrough.

Definition is_strip (m : UnknownKeysMode) : bool :=
  match m with strip => true | _ => false end.

Definition defined {A} (field : option A) : bool :=
  match field with Some _ => true | None => false end.

Module ObjectSchema.
Section parse.
Context {C : Type} (call : C -> value -> ParseContext -> result value).

(** The loop over the declared keys. *)
Fixpoint known_keys (shape : list (string * C)) (input : value)
    (ctx : ParseContext) (output : list (string * value))
    (issues : list Issue) : result (list (string * value) * list Issue) :=
  match shape with
  | [] => Ok (output, issues)
  | (key, schema) :: rest =>
      r ← attempt (call schema (get_prop input key) (descend ctx [Key key] input));
      match r with
      | inl v => known_keys rest input ctx (obj_assign output key v) issues
      | inr es => known_keys rest input ctx output (issues ++ es)
      end
  end.

(** The loop over the keys of the input that the shape does not declare. *)
Fixpoint unknown_keys (_shape : list (string * C))
    (_unknownKeys : UnknownKeysMode) (_catchall : option C)
    (inputKeys : list string) (input : value) (ctx : ParseContext)
    (output : list (string * value)) (issues : list Issue)
  : result (list (string * value) * list Issue) :=
  match inputKeys with
  | [] => Ok (output, issues)
  | key :: rest =>
      if key_in key _shape then
        unknown_keys _shape _unknownKeys _catchall rest input ctx output issues
      else
        match _catchall with
        | Some catchall =>
            r ← attempt (call catchall (get_prop input key)
                           (descend ctx [Key key] input));
            match r with
            | inl v =>
                unknown_keys _shape _unknownKeys _catchall rest input ctx
                  (obj_assign output key v) issues
            | inr es =>
                unknown_keys _shape _unknownKeys _catchall rest input ctx
                  output (issues ++ es)
            end
        | None =>
            match _unknownKeys with
            | strict =>
                unknown_keys _shape _unknownKeys _catchall rest input ctx output
                  (issues ++
                   [{| code := "unrecognized_keys"; path := ctx_path ctx;
                       msg := [Txt "Unrecognized key: "; Txt dquote; Txt key; Txt dquote];
                       expected := None; received := None |}])
            | passthrough =>
                unknown_keys _shape _unknownKeys _catchall rest input ctx
                  (obj_assign output key (get_prop input key)) issues
            | strip =>
                unknown_keys _shape _unknownKeys _catchall rest input ctx
                  output issues
            end
        end
  end.

Definition _parse (ec : option ErrorCustomizer) (_shape : list (string * C))
    (_unknownKeys : UnknownKeysMode) (_catchall : option C)
    (data : value) (ctx : ParseContext) : result value :=
  if not_object_or_null data || isArray data then
    _fail ec "invalid_type"
      [Txt "Expected object, received "; Txt (received_object_type data)] ctx
      (Some [Txt "object"]) (Some [Txt (received_object_type data)])
  else
    '(output, issues) ← known_keys _shape data ctx [] [];
    '(output, issues) ←
      (if negb (is_strip _unknownKeys) || defined _catchall then
         unknown_keys _shape _unknownKeys _catchall (object_keys data)
           data ctx output issues
       else Ok (output, issues));
    output ← finish output issues;
    Ok (VObj output).
End parse.
End ObjectSchema.

Module RecordSchema.
Section parse.
Context {C : Type} (call : C -> value -> ParseContext -> result value).

Fixpoint entries (_keySchema _valueSchema : C) (keys : list string)
    (input : value) (ctx : ParseContext) (output : list (string * value))
    (issues : list Issue) : result (list (string * value) * list Issue) :=
  match keys with
  | [] => Ok (output, issues)
  | key :: rest =>
      k ← attempt (call _keySchema (VStr key) (descend ctx [Key key] input));
      match k with
      | inr es =>
          (* the key failed: its issues are kept and the loop continues *)
          entries _keySchema _valueSchema rest input ctx output (issues ++ es)
      | inl _ =>
          v ← attempt (call _valueSchema (get_prop input key)
                         (descend ctx [Key key] input));
          match v with
          | inl parsed =>
              entries _keySchema _valueSchema rest input ctx
                (obj_assign output key parsed) issues
          | inr es =>
              entries _keySchema _valueSchema rest input ctx output (issues ++ es)
          end
      end
  end.

Definition _parse (ec : option ErrorCustomizer) (_keySchema _valueSchema : C)
    (data : value) (ctx : ParseContext) : result value :=
  if not_object_or_null data || isArray data then
    _fail ec "invalid_type"
      [Txt "Expected object, received "; Txt (received_object_type data)] ctx
      (Some [Txt "object"]) (Some [Txt (received_object_type data)])
  else
    '(output, issues) ←
      entries _keySchema _valueSchema (object_keys data) data ctx [] [];
    output ← finish output issues;
    Ok (VObj output).
End parse.
End RecordSchema.

Module MapSchema.
Section parse.
Context {C : Type} (call : C -> value -> ParseContext -> result value).

Fixpoint entries (_keySchema _valueSchema : C) (data : value)
    (remaining : list (value * value)) (index : nat) (ctx : ParseContext)
    (output : list (value * value)) (issues : list Issue)
  : result (list (value * value) * list Issue) :=
  match remaining with
  | [] => Ok (output, issues)
  | (key, val) :: rest =>
      r ← attempt
            (parsedKey ← call _keySchema key
                           (descend ctx [Index index; Key "key"] data);
             parsedValue ← call _valueSchema val
                             (descend ctx [Index index; Key "value"] data);
             Ok (parsedKey, parsedValue));
      match r with
      | inl (parsedKey, parsedValue) =>
          entries _keySchema _valueSchema data rest (S index) ctx
            (map_set output parsedKey parsedValue) issues
      | inr es =>
          entries _keySchema _valueSchema data rest (S index) ctx
            output (issues ++ es)
      end
  end.

Definition _parse (ec : option ErrorCustomizer) (_keySchema _valueSchema : C)
    (data : value) (ctx : ParseContext) : result value :=
  match data with
  | VMap items =>
      '(output, issues) ←
        entries _keySchema _valueSchema data items 0 ctx [] [];
      output ← finish output issues;
      Ok (VMap output)
  | _ =>
      _fail ec "invalid_type" [Txt "Expected Map, received "; Txt (typeof data)]
        ctx (Some [Txt "Map"]) (Some [Txt (typeof data)])
  end.
End parse.
End MapSchema.

Module SetSchema.
Record t : Type := {
  _min : option float;
  _max : option float;
  _size : option float
}.

Definition new : t := {| _min := None; _max := None; _size := None |}.

Definition min (size : float) (this : t) : t :=
  {| _min := Some size; _max := _max this; _size := _size this |}.
Definition max (size : float) (this : t) : t :=
  {| _min := _min this; _max := Some size; _size := _size this |}.
Definition size (size : float) (this : t) : t :=
  {| _min := _min this; _max := _max this; _size := Some size |}.
Definition nonempty (this : t) : t := min 1%float this.

Section parse.
Context {C : Type} (call : C -> value -> ParseContext -> result value).

Fixpoint members (_valueSchema : C) (data : value) (remaining : list value)
    (index : nat) (ctx : ParseContext) (output : list value)
    (issues : list Issue) : result (list value * list Issue) :=
  match remaining with
  | [] => Ok (output, issues)
  | val :: rest =>
      r ← attempt (call _valueSchema val (descend ctx [Index index] data));
      match r with
      | inl parsed =>
          members _valueSchema data rest (S index) ctx (set_add output parsed) issues
      | inr es =>
          members _valueSchema data rest (S index) ctx output (issues ++ es)
      end
  end.

Definition _parse (ec : option ErrorCustomizer) (this : t) (_valueSchema : C)
    (data : value) (ctx : ParseContext) : result value :=
  match data with
  | VSet items =>
      let size := Number.of_nat (List.length items) in
      check (_size this) (fun n => Number.neq size n)
        (fun n => _fail ec "invalid_size"
           [Txt "Set must have exactly "; Num n; Txt " elements"] ctx None None);;
      check (_min this) (fun n => PrimFloat.ltb size n)
        (fun n => _fail ec "too_small"
           [Txt "Set must have at least "; Num n; Txt " elements"] ctx None None);;
      check (_max this) (fun n => PrimFloat.ltb n size)
        (fun n => _fail ec "too_big"
           [Txt "Set must have at most "; Num n; Txt " elements"] ctx None None);;
      '(output, issues) ← members _valueSchema data items 0 ctx [] [];
      output ← finish output issues;
      Ok (VSet output)
  | _ =>
      _fail ec "invalid_type" [Txt "Expected Set, received "; Txt (typeof data)]
        ctx (Some [Txt "Set"]) (Some [Txt (typeof data)])
  end.
End parse.
End SetSchema.

Module ArraySchema.
Record t : Type := {
  _min : option float;
  _max : option float;
  _length : option float
}.

Definition new : t := {| _min := None; _max := None; _length := None |}.

Definition min (length : float) (this : t) : t :=
  {| _min := Some length; _max := _max this; _length := _length this |}.
Definition max (length : float) (this : t) : t :=
  {| _min := _min this; _max := Some length; _length := _length this |}.
Definition length (length : float) (this : t) : t :=
  {| _min := _min this; _max := _max this; _length := Some length |}.

Section parse.
Context {C : Type} (call : C -> value -> ParseContext -> result value).

Fixpoint elements (_element : C) (data : value) (remaining : list value)
    (i : nat) (ctx : ParseContext) (output : list value)
    (issues : list Issue) : result (list value * list Issue) :=
  match remaining with
  | [] => Ok (output, issues)
  | x :: rest =>
      r ← attempt (call _element x (descend ctx [Index i] data));
      match r with
      | inl parsed =>
          elements _element data rest (S i) ctx (output ++ [parsed]) issues
      | inr es =>
          elements _element data rest (S i) ctx output (issues ++ es)
      end
  end.

Definition _parse (ec : option ErrorCustomizer) (this : t) (_element : C)
    (data : value) (ctx : ParseContext) : result value :=
  match data with
  | VArr items =>
      let len := Number.of_nat (List.length items) in
      check (_length this) (fun n => Number.neq len n)
        (fun n => _fail ec "invalid_length"
           [Txt "Array must have exactly "; Num n; Txt " elements"] ctx None None);;
      check (_min this) (fun n => PrimFloat.ltb len n)
        (fun n => _fail ec "too_small"
           [Txt "Array must have at least "; Num n; Txt " elements"] ctx None None);;
      check (_max this) (fun n => PrimFloat.ltb n len)
        (fun n => _fail ec "too_big"
           [Txt "Array must have at most "; Num n; Txt " elements"] ctx None None);;
      '(output, issues) ← elements _element data items 0 ctx [] [];
      output ← finish output issues;
      Ok (VArr output)
  | _ =>
      _fail ec "invalid_type" [Txt "Expected array, received "; Txt (typeof data)]
        ctx (Some [Txt "array"]) (Some [Txt (typeof data)])
  end.
End parse.
End ArraySchema.

Module TupleSchema.
Section parse.
Context {C : Type} (call : C -> value -> ParseContext -> result value).

(** The loop over the fixed positions, [data[i]] read by index. *)
Fixpoint fixed_items (_items : list C) (data : value) (items : list value)
    (i : nat) (ctx : ParseContext) (output : list value)
    (issues : list Issue) : result (list value * list Issue) :=
  match _items with
  | [] => Ok (output, issues)
  | schema :: rest =>
      r ← attempt (call schema (default VUndefined (items !! i))
                     (descend ctx [Index i] data));
      match r with
      | inl parsed =>
          fixed_items rest data items (S i) ctx (output ++ [parsed]) issues
      | inr es =>
          fixed_items rest data items (S i) ctx output (issues ++ es)
      end
  end.

(** The loop over the positions past the fixed arity. *)
Fixpoint rest_items (_rest : C) (data : value) (remaining : list value)
    (i : nat) (ctx : ParseContext) (output : list value)
    (issues : list Issue) : result (list value * list Issue) :=
  match remaining with
  | [] => Ok (output, issues)
  | x :: rest =>
      r ← attempt (call _rest x (descend ctx [Index i] data));
      match r with
      | inl parsed =>
          rest_items _rest data rest (S i) ctx (output ++ [parsed]) issues
      | inr es =>
          rest_items _rest data rest (S i) ctx output (issues ++ es)
      end
  end.

Definition _parse (ec : option ErrorCustomizer) (_items : list C)
    (_rest : option C) (data : value) (ctx : ParseContext) : result value :=
  match data with
  | VArr items =>
      let itemCount := List.length _items in
      let len := List.length items in
      match _rest with
      | None =>
          fail_if (negb (len =? itemCount)%nat)
            (_fail ec "invalid_length"
               [Txt "Expected array of length "; Num (Number.of_nat itemCount);
                Txt ", received "; Num (Number.of_nat len)] ctx None None)
      | Some _ =>
          fail_if (len <? itemCount)%nat
            (_fail ec "too_small"
               [Txt "Expected at least "; Num (Number.of_nat itemCount);
                Txt " elements, received "; Num (Number.of_nat len)] ctx None None)
      end;;
      '(output, issues) ← fixed_items _items data items 0 ctx [] [];
      '(output, issues) ←
        match _rest with
        | Some rest =>
            rest_items rest data (drop itemCount items) itemCount ctx output issues
        | None => Ok (output, issues)
        end;
      output ← finish output issues;
      Ok (VArr output)
  | _ =>
      _fail ec "invalid_type" [Txt "Expected array, received "; Txt (typeof data)]
        ctx (Some [Txt "array"]) (Some [Txt (typeof data)])
  end.
End parse.
End TupleSchema.

(** ** Unions and intersections ([enum.ts]) *)

Module UnionSchema.
Section parse.
Context {C : Type} (call : C -> value -> ParseContext -> result value).

(** The loop over the alternatives: return at the first success, collect the
    issues of a failed alternative, rethrow anything else.  [None] means
    that the loop ran to its end. *)
Fixpoint alternatives (_options : list C) (data : value) (ctx : ParseContext)
    (issues : list Issue) : result (option value) :=
  match _options with
  | [] => Ok None
  | option :: rest =>
      r ← attempt (call option data ctx);
      match r with
      | inl v => Ok (Some v)
      | inr es => alternatives rest data ctx (issues ++ es)
      end
  end.

Definition _parse (ec : option ErrorCustomizer) (_options : list C)
    (data : value) (ctx : ParseContext) : result value :=
  found ← alternatives _options data ctx [];
  match found with
  | Some v => Ok v
  | None =>
      _fail ec "invalid_union"
        [Txt "Invalid input: does not match any union member"] ctx None None
  end.
End parse.
End UnionSchema.

Module IntersectionSchema.
(** The own enumerable properties copied by an object spread. *)
Definition own_props (v : value) : list (string * value) :=
  match v with
  | VObj props => props
  | VArr items => imap (fun i x => (index_key i, x)) items
  | _ => []
  end.

Definition spread (target : list (string * value)) (src : value)
  : list (string * value) :=
  fold_left (fun acc kv => obj_set acc (fst kv) (snd kv)) (own_props src) target.

Section parse.
Context {C : Type} (call : C -> value -> ParseContext -> result value).

Definition _parse (_left _right : C)
    (data : value) (ctx : ParseContext) : result value :=
  leftResult ← call _left data ctx;
  rightResult ← call _right data ctx;
  if negb (not_object_or_null leftResult) && negb (not_object_or_null rightResult)
  then Ok (VObj (spread (spread [] leftResult) rightResult))
  else Ok data.
End parse.
End IntersectionSchema.


(** ** Schema nodes

    [node C] lists the schema classes with their own fields; [C] is the type
    of a reference to a child schema.  The [_errorCustomizer] field of
    [BaseSchema] is kept beside the node. *)

Inductive node (C : Type) : Type :=
| StringSchema (cfg : StringSchema.t)
| NumberSchema (cfg : NumberSchema.t)
| BooleanSchema
| UndefinedSchema
| NullSchema
| VoidSchema
| AnySchema
| UnknownSchema
| NeverSchema
| NaNSchema
| LiteralSchema (_values : list value)
| EnumSchema (_values : list string)
| StringBoolSchema (cfg : StringBoolSchema.t)
| TransformOnlySchema (_fn : value -> result value)
| OptionalSchema (_inner : C)
| NullableSchema (_inner : C)
| NullishSchema (_inner : C)
| DefaultSchema (_inner : C) (_default : fallback)
| CatchSchema (_inner : C) (_catch : fallback)
| TransformSchema (_inner : C) (_transform : value -> result value)
| RefineSchema (_inner : C) (_refine : value -> result bool) (_message : string)
| PipeSchema (_first _second : C)
| ObjectSchema (_shape : list (string * C)) (_unknownKeys : UnknownKeysMode)
    (_catchall : option C)
| RecordSchema (_keySchema _valueSchema : C)
| MapSchema (_keySchema _valueSchema : C)
| SetSchema (cfg : SetSchema.t) (_valueSchema : C)
| ArraySchema (cfg : ArraySchema.t) (_element : C)
| TupleSchema (_items : list C) (_rest : option C)
| UnionSchema (_options : list C)
| DiscriminatedUnionSchema (_discriminator : string) (_options : list C)
    (_map : list (value * C))
| IntersectionSchema (_left _right : C).

Arguments StringSchema {C} cfg.
Arguments NumberSchema {C} cfg.
Arguments BooleanSchema {C}.
Arguments UndefinedSchema {C}.
Arguments NullSchema {C}.
Arguments VoidSchema {C}.
Arguments AnySchema {C}.
Arguments UnknownSchema {C}.
Arguments NeverSchema {C}.
Arguments NaNSchema {C}.
Arguments LiteralSchema {C} _values.
Arguments EnumSchema {C} _values.
Arguments StringBoolSchema {C} cfg.
Arguments TransformOnlySchema {C} _fn.
Arguments OptionalSchema {C} _inner.
Arguments NullableSchema {C} _inner.
Arguments NullishSchema {C} _inner.
Arguments DefaultSchema {C} _inner _default.
Arguments CatchSchema {C} _inner _catch.
Arguments TransformSchema {C} _inner _transform.
Arguments RefineSchema {C} _inner _refine _message.
Arguments PipeSchema {C} _first _second.
Arguments ObjectSchema {C} _shape _unknownKeys _catchall.
Arguments RecordSchema {C} _keySchema _valueSchema.
Arguments MapSchema {C} _keySchema _valueSchema.
Arguments SetSchema {C} cfg _valueSchema.
Arguments ArraySchema {C} cfg _element.
Arguments TupleSchema {C} _items _rest.
Arguments UnionSchema {C} _options.
Arguments DiscriminatedUnionSchema {C} _discriminator _options _map.
Arguments IntersectionSchema {C} _left _right.

Module DiscriminatedUnionSchema.
Section construct.
(** [inspect] reads the object behind a reference. *)
Context {C : Type} (inspect : C -> option (node C)).

(** [(option as any)._shape ?? (option as any).shape] *)
Definition shape_of (opt : C) : option (list (string * C)) :=
  match inspect opt with
  | Some (ObjectSchema _shape _ _) => Some _shape
  | _ => None
  end.

(** [discSchema instanceof LiteralSchema], then its [_values]. *)
Definition literal_values (discSchema : C) : option (list value) :=
  match inspect discSchema with
  | Some (LiteralSchema _values) => Some _values
  | _ => None
  end.

(** One iteration of the constructor's loop over the options. *)
Definition index_option (_discriminator : string) (_map : list (value * C))
    (opt : C) : list (value * C) :=
  match shape_of opt with
  | Some shape =>
      match assoc _discriminator shape with
      | Some discSchema =>
          match literal_values discSchema with
          | Some _values => fold_left (fun m v => map_set m v opt) _values _map
          | None => _map
          end
      | None => _map
      end
  | None => _map
  end.

(** The lookup table built by the constructor. *)
Definition new (_discriminator : string) (_options : list C) : list (value * C) :=
  fold_left (index_option _discriminator) _options [].
End construct.

Section parse.
Context {C : Type} (call : C -> value -> ParseContext -> result value).

(** The fallback loop: a bare [catch] swallows every exception of a member. *)
Fixpoint probe (_options : list C) (data : value) (ctx : ParseContext)
  : option value :=
  match _options with
  | [] => None
  | option :: rest =>
      match call option data ctx with
      | Ok v => Some v
      | Raise _ => probe rest data ctx
      end
  end.

(** [this._map.get(discriminatorValue)] followed, when a member is found, by
    [matchedSchema._parse(data, ctx)]. *)
Fixpoint matched (_map : list (value * C)) (discriminatorValue : value)
    (data : value) (ctx : ParseContext) : option (result value) :=
  match _map with
  | [] => None
  | (k, matchedSchema) :: rest =>
      if sameValueZero k discriminatorValue
      then Some (call matchedSchema data ctx)
      else matched rest discriminatorValue data ctx
  end.

Definition _parse (ec : option ErrorCustomizer) (_discriminator : string)
    (_options : list C) (_map : list (value * C))
    (data : value) (ctx : ParseContext) : result value :=
  if not_object_or_null data then
    _fail ec "invalid_type"
      [Txt "Expected object, received ";
       Txt (match data with VNull => "null" | _ => typeof data end)] ctx None None
  else
    let discriminatorValue := get_prop data _discriminator in
    match matched _map discriminatorValue data ctx with
    | Some r => r
    | None =>
        match probe _options data ctx with
        | Some v => Ok v
        | None =>
            rendered ← JSON.stringify discriminatorValue;
            _fail ec "invalid_union_discriminator"
              (Txt "Invalid discriminator value: " :: rendered)
              ctx None None
        end
    end.
End parse.
End DiscriminatedUnionSchema.

(** The class method [_parse] of a node, dispatched on its class. *)
Definition parse_node {C : Type} (call : C -> value -> ParseContext -> result value)
    (ec : option ErrorCustomizer) (this : node C)
    (data : value) (ctx : ParseContext) : result value :=
  match this with
  | StringSchema cfg => StringSchema._parse ec cfg data ctx
  | NumberSchema cfg => NumberSchema._parse ec cfg data ctx
  | BooleanSchema => BooleanSchema._parse ec data ctx
  | UndefinedSchema => UndefinedSchema._parse ec data ctx
  | NullSchema => NullSchema._parse ec data ctx
  | VoidSchema => VoidSchema._parse ec data ctx
  | AnySchema => Ok data
  | UnknownSchema => Ok data
  | NeverSchema => NeverSchema._parse ec data ctx
  | NaNSchema => NaNSchema._parse ec data ctx
  | LiteralSchema _values => LiteralSchema._parse ec _values data ctx
  | EnumSchema _values => EnumSchema._parse ec _values data ctx
  | StringBoolSchema cfg => StringBoolSchema._parse ec cfg data ctx
  | TransformOnlySchema _fn => TransformOnlySchema_parse _fn data ctx
  | OptionalSchema _inner => OptionalSchema_parse call _inner data ctx
  | NullableSchema _inner => NullableSchema_parse call _inner data ctx
  | NullishSchema _inner => NullishSchema_parse call _inner data ctx
  | DefaultSchema _inner _default => DefaultSchema_parse call _inner _default data ctx
  | CatchSchema _inner _catch => CatchSchema_parse call _inner _catch data ctx
  | TransformSchema _inner _transform =>
      TransformSchema_parse call _inner _transform data ctx
  | RefineSchema _inner _refine _message =>
      RefineSchema_parse call ec _inner _refine _message data ctx
  | PipeSchema _first _second => PipeSchema_parse call _first _second data ctx
  | ObjectSchema _shape _unknownKeys _catchall =>
      ObjectSchema._parse call ec _shape _unknownKeys _catchall data ctx
  | RecordSchema _keySchema _valueSchema =>
      RecordSchema._parse call ec _keySchema _valueSchema data ctx
  | MapSchema _keySchema _valueSchema =>
      MapSchema._parse call ec _keySchema _valueSchema data ctx
  | SetSchema cfg _valueSchema => SetSchema._parse call ec cfg _valueSchema data ctx
  | ArraySchema cfg _element => ArraySchema._parse call ec cfg _element data ctx
  | TupleSchema _items _rest => TupleSchema._parse call ec _items _rest data ctx
  | UnionSchema _options => UnionSchema._parse call ec _options data ctx
  | DiscriminatedUnionSchema _discriminator _options _map =>
      DiscriminatedUnionSchema._parse call ec _discriminator _options _map data ctx
  | IntersectionSchema _left _right => IntersectionSchema._parse call _left _right data ctx
  end.

(** The children that the class method of a node can call. *)
Definition children {C : Type} (this : node C) : list C :=
  match this with
  | OptionalSchema c | NullableSchema c | NullishSchema c
  | DefaultSchema c _ | CatchSchema c _ | TransformSchema c _
  | RefineSchema c _ _ | SetSchema _ c | ArraySchema _ c => [c]
  | PipeSchema a b | RecordSchema a b | MapSchema a b
  | IntersectionSchema a b => [a; b]
  | ObjectSchema shape _ catchall => map snd shape ++ option_list catchall
  | TupleSchema items rest => items ++ option_list rest
  | UnionSchema opts => opts
  | DiscriminatedUnionSchema _ opts m => opts ++ map snd m
  | _ => []
  end.

(** Two dispatch functions that behave alike on the given children. *)
Definition agree_on {C : Type}
    (call1 call2 : C -> value -> ParseContext -> result value)
    (cs : list C) : Prop :=
  forall c, In c cs -> forall data ctx, call1 c data ctx = call2 c data ctx.

(** ** Schema trees

    A schema assembled by the factories and the chainable methods is a tree:
    every node owns its children. *)

Inductive Schema : Type :=
| Node (_errorCustomizer : option ErrorCustomizer) (class : node Schema).

Fixpoint _parse (schema : Schema) (data : value) (ctx : ParseContext) {struct schema}
  : result value :=
  match schema with
  | Node ec class => parse_node _parse ec class data ctx
  end.

Definition root : ParseContext := {| ctx_path := []; ctx_parent := None |}.

(** [BaseSchema.parse] *)
Definition parse (schema : Schema) (data : value) : result value :=
  _parse schema data root.

(** [BaseSchema.safeParse] *)
Definition safeParse (schema : Schema) (data : value) : result ParseResult :=
  match _parse schema data root with
  | Ok r => Ok (Success r)
  | Raise (ValidationError issues) => Ok (Failure issues)
  | Raise e => Raise e
  end.

(** ** The factories ([index.ts]) on schema trees *)

Definition inspect_tree (schema : Schema) : option (node Schema) :=
  match schema with
  | Node _ class => Some class
  end.

Module z.
Definition any : Schema := Node None AnySchema.
Definition unknown : Schema := Node None UnknownSchema.
Definition never : Schema := Node None NeverSchema.
Definition nan : Schema := Node None NaNSchema.
Definition boolean : Schema := Node None BooleanSchema.
Definition number : Schema := Node None (NumberSchema NumberSchema.new).
Definition literal (v : value) : Schema :=
  Node None (LiteralSchema (LiteralSchema.new v)).
Definition enum (values : list String.string) : Schema :=
  Node None (EnumSchema (EnumSchema.new values)).
Definition object (shape : list (String.string * Schema)) : Schema :=
  Node None (ObjectSchema shape strip None).
Definition strictObject (shape : list (String.string * Schema)) : Schema :=
  Node None (ObjectSchema shape strict None).
Definition looseObject (shape : list (String.string * Schema)) : Schema :=
  Node None (ObjectSchema shape passthrough None).
Definition array (element : Schema) : Schema :=
  Node None (ArraySchema ArraySchema.new element).
Definition tuple (items : list Schema) : Schema :=
  Node None (TupleSchema items None).
Definition string : Schema := Node None (StringSchema StringSchema.new).
(** [record(valueSchema)] and [record(keySchema, valueSchema)] *)
Definition record (keyOrValue : Schema) (valueSchema : option Schema) : Schema :=
  match valueSchema with
  | None => Node None (RecordSchema string keyOrValue)
  | Some v => Node None (RecordSchema keyOrValue v)
  end.
Definition map (keySchema valueSchema : Schema) : Schema :=
  Node None (MapSchema keySchema valueSchema).
Definition set (valueSchema : Schema) : Schema :=
  Node None (SetSchema SetSchema.new valueSchema).
Definition union (options : list Schema) : Schema :=
  Node None (UnionSchema options).
Definition discriminatedUnion (discriminator : String.string)
    (options : list Schema) : Schema :=
  Node None
    (DiscriminatedUnionSchema discriminator options
       (DiscriminatedUnionSchema.new inspect_tree discriminator options)).
Definition intersection (left right : Schema) : Schema :=
  Node None (IntersectionSchema left right).
Definition transform (fn : value -> result value) : Schema :=
  Node None (TransformOnlySchema fn).
Definition stringbool (options : option StringBoolSchema.options) : Schema :=
  Node None (StringBoolSchema (StringBoolSchema.new options)).
End z.

(** ** Schema objects with identity

    The methods that derive a schema from another one work on objects: a
    wrapper holds a reference to its child, a clone is a new object, and
    [preprocess] assigns to a property of the object it is given.  The store
    below keeps the objects; a reference is an index into it. *)

Module Store.
Definition ref : Type := nat.

(** A function found in the [_parse] property of an object: the method of its
    class, bound to a receiver, or the closure installed by [preprocess]. *)
Inductive parse_fn : Type :=
| Method (this : ref)
| Patched (fn : value -> result value) (original : parse_fn).

Record object : Type := {
  _errorCustomizer : option ErrorCustomizer;
  class : node ref;
  own_parse : option parse_fn
}.

Definition heap : Type := list object.

(** [schema._parse]: the own property when there is one, the class method
    otherwise. *)
Definition property_parse (h : heap) (schema : ref) : parse_fn :=
  match h !! schema with
  | Some o => default (Method schema) (own_parse o)
  | None => Method schema
  end.

(** Calling a [_parse] function.  [fuel] bounds the depth of the call stack;
    running out of it is the host's [RangeError]. *)
Fixpoint invoke (fuel : nat) (h : heap) (f : parse_fn)
    (data : value) (ctx : ParseContext) : result value :=
  match fuel with
  | 0 => Raise (HostError "RangeError")
  | S fuel =>
      match f with
      | Method this =>
          match h !! this with
          | Some o =>
              parse_node (fun child => invoke fuel h (property_parse h child))
                (_errorCustomizer o) (class o) data ctx
          | None => Raise (HostError "TypeError")
          end
      | Patched fn original =>
          d ← fn data;
          invoke fuel h original d ctx
      end
  end.

(** [schema._parse(data, ctx)] *)
Definition _parse (fuel : nat) (h : heap) (schema : ref)
    (data : value) (ctx : ParseContext) : result value :=
  invoke fuel h (property_parse h schema) data ctx.

Definition parse (fuel : nat) (h : heap) (schema : ref) (data : value)
  : result value :=
  _parse fuel h schema data root.

Definition safeParse (fuel : nat) (h : heap) (schema : ref) (data : value)
  : result ParseResult :=
  match _parse fuel h schema data root with
  | Ok r => Ok (Success r)
  | Raise (ValidationError issues) => Ok (Failure issues)
  | Raise e => Raise e
  end.

(** Operations on the store: a state monad whose failure is a call on a
    reference of the wrong class, which the types of the source exclude. *)
Definition M (A : Type) : Type := heap -> option (A * heap).

#[global] Instance M_ret : MRet M := fun A a h => Some (a, h).
#[global] Instance M_bind : MBind M := fun A B f m h =>
  match m h with
  | Some (a, h') => f a h'
  | None => None
  end.

Definition alloc (o : object) : M ref := fun h => Some (List.length h, h ++ [o]).
Definition get (r : ref) : M object := fun h =>
  match h !! r with
  | Some o => Some (o, h)
  | None => None
  end.
Definition put (r : ref) (o : object) : M unit := fun h =>
  match h !! r with
  | Some _ => Some (tt, <[r := o]> h)
  | None => None
  end.
Definition wrong_class {A} : M A := fun _ => None.

Definition create (class : node ref) : M ref :=
  alloc {| _errorCustomizer := None; class := class; own_parse := None |}.

(** [BaseSchema.error]: [Object.create] and [Object.assign] copy every own
    property of [this], then the customizer is replaced. *)
Definition error (customizer : ErrorCustomizer) (this : ref) : M ref :=
  o ← get this;
  alloc {| _errorCustomizer := Some customizer; class := class o;
           own_parse := own_parse o |}.

(** The modifiers of [BaseSchema]: a new wrapper around [this]. *)
Definition optional (this : ref) : M ref :=
  get this;; create (OptionalSchema this).
Definition nullable (this : ref) : M ref :=
  get this;; create (NullableSchema this).
Definition nullish (this : ref) : M ref :=
  get this;; create (NullishSchema this).
Definition default_ (d : fallback) (this : ref) : M ref :=
  get this;; create (DefaultSchema this d).
Definition catch (d : fallback) (this : ref) : M ref :=
  get this;; create (CatchSchema this d).
Definition transform (fn : value -> result value) (this : ref) : M ref :=
  get this;; create (TransformSchema this fn).
Definition refine (fn : value -> result bool) (message : option string)
    (this : ref) : M ref :=
  get this;; create (RefineSchema this fn (default "Invalid value" message)).
Definition pipe (schema : ref) (this : ref) : M ref :=
  get this;; get schema;; create (PipeSchema this schema).

(** The chainable methods of [StringSchema]: [_clone] builds a new
    [StringSchema], copies the fields and the customizer, and the method
    overrides one field. *)
Definition string_method (override : StringSchema.t -> StringSchema.t)
    (message : option string) (this : ref) : M ref :=
  o ← get this;
  match class o with
  | StringSchema cfg =>
      alloc {| _errorCustomizer := with_message message (_errorCustomizer o);
               class := StringSchema (override cfg);
               own_parse := None |}
  | _ => wrong_class
  end.

Definition min (length : float) (message : option string) : ref -> M ref :=
  string_method (StringSchema.min length) message.
Definition max (length : float) (message : option string) : ref -> M ref :=
  string_method (StringSchema.max length) message.
Definition length (length : float) (message : option string) : ref -> M ref :=
  string_method (StringSchema.length length) message.
Definition regex (pattern : RegExp) (message : option string) : ref -> M ref :=
  string_method (StringSchema.regex pattern) message.
Definition includes (str : string) (message : option string) : ref -> M ref :=
  string_method (StringSchema.includes str) message.
Definition startsWith (str : string) (message : option string) : ref -> M ref :=
  string_method (StringSchema.startsWith str) message.
Definition endsWith (str : string) (message : option string) : ref -> M ref :=
  string_method (StringSchema.endsWith str) message.
Definition trim : ref -> M ref := string_method StringSchema.trim None.
Definition toLowerCase : ref -> M ref := string_method StringSchema.toLowerCase None.
Definition toUpperCase : ref -> M ref := string_method StringSchema.toUpperCase None.
Definition nonempty (message : option string) : ref -> M ref :=
  min 1%float (Some (default "String must not be empty" message)).

(** The private [_clone] of [ObjectSchema], called without a shape
    ([object.ts]): a new [ObjectSchema] on the shape of [this], to which the
    mode, the catchall and the customizer of [this] are assigned.  No other
    property of [this] is copied. *)
Definition ObjectSchema_clone (this : ref) : M ref :=
  o ← get this;
  match class o with
  | ObjectSchema _shape _unknownKeys _catchall =>
      alloc {| _errorCustomizer := _errorCustomizer o;
               class := ObjectSchema _shape _unknownKeys _catchall;
               own_parse := None |}
  | _ => wrong_class
  end.

(** [required()]: [return this._clone()]. *)
Definition required (this : ref) : M ref := ObjectSchema_clone this.

(** [preprocess(fn, schema)] ([index.ts]): the [_parse] property of [schema]
    itself is assigned, and [schema] is returned. *)
Definition preprocess (fn : value -> result value) (schema : ref) : M ref :=
  o ← get schema;
  let original :=
    match own_parse o with
    | Some f => f
    | None => Method schema
    end in
  put schema {| _errorCustomizer := _errorCustomizer o; class := class o;
                own_parse := Some (Patched fn original) |};;
  mret schema.

(** Factories. *)
Definition string : M ref := create (StringSchema StringSchema.new).
Definition number : M ref := create (NumberSchema NumberSchema.new).
Definition any : M ref := create AnySchema.

(** The references an object holds: its children and the receivers bound in
    its own [_parse] property. *)
Fixpoint fn_refs (f : parse_fn) : list ref :=
  match f with
  | Method this => [this]
  | Patched _ original => fn_refs original
  end.

Definition object_refs (o : object) : list ref :=
  children (class o)
  ++ match own_parse o with
     | Some f => fn_refs f
     | None => []
     end.

Definition in_store (h : heap) (r : ref) : Prop := r < List.length h.

(** A store without dangling references. *)
Definition closed (h : heap) : Prop :=
  Forall (fun o => Forall (in_store h) (object_refs o)) h.

(** An operation that only adds one object, with references into the store
    it was given, and returns the new object. *)
Definition allocating (op : M ref) : Prop :=
  forall h r h',
    closed h -> op h = Some (r, h') ->
    r = List.length h
    /\ exists o, h' = h ++ [o] /\ Forall (in_store h) (object_refs o).
End Store.

(** ** The specification's reading of the checks

    The definitions of this section follow the words of the specification;
    the theorems below compare them with the code above. *)

(** The string constraints, in the order the specification fixes:
    exact length, min, max, prefix, suffix, contains, pattern. *)
Inductive string_constraint : Type :=
| ExactLength (n : float)
| MinLength (n : float)
| MaxLength (n : float)
| HasPrefix (p : string)
| HasSuffix (p : string)
| Contains (p : string)
| Matches (r : RegExp).



Definition string_issue_code (c : string_constraint) : string :=
  match c with
  | ExactLength _ => "invalid_length"
  | MinLength _ => "too_small"
  | MaxLength _ => "too_big"
  | HasPrefix _ | HasSuffix _ | Contains _ | Matches _ => "invalid_string"
  end.

(** The default message of each constraint. *)
Definition string_issue_message (c : string_constraint) : message :=
  match c with
  | ExactLength n => [Txt "String must be exactly "; Num n; Txt " characters"]
  | MinLength n => [Txt "String must be at least "; Num n; Txt " characters"]
  | MaxLength n => [Txt "String must be at most "; Num n; Txt " characters"]
  | HasPrefix p => [Txt "String must start with "; Txt dquote; Txt p; Txt dquote]
  | HasSuffix p => [Txt "String must end with "; Txt dquote; Txt p; Txt dquote]
  | Contains p => [Txt "String must include "; Txt dquote; Txt p; Txt dquote]
  | Matches r => [Txt "String must match pattern "; Txt (RegExp_toString r)]
  end.

(** The issue that reports a violated constraint at the path [p]. *)
Definition string_issue (p : list segment) (c : string_constraint) : Issue :=
  {| code := string_issue_code c; path := p; msg := string_issue_message c;
     expected := None; received := None |}.



(** The size constraints of a set: exact size, min, max. *)
Inductive size_constraint : Type :=
| ExactSize (n : float)
| MinSize (n : float)
| MaxSize (n : float).

Definition size_constraints (cfg : SetSchema.t) : list size_constraint :=
  option_list (ExactSize <$> SetSchema._size cfg)
  ++ option_list (MinSize <$> SetSchema._min cfg)
  ++ option_list (MaxSize <$> SetSchema._max cfg).

Definition size_violates (size : float) (c : size_constraint) : bool :=
  match c with
  | ExactSize n => Number.neq size n
  | MinSize n => PrimFloat.ltb size n
  | MaxSize n => PrimFloat.ltb n size
  end.

Definition size_issue_code (c : size_constraint) : string :=
  match c with
  | ExactSize _ => "invalid_size"
  | MinSize _ => "too_small"
  | MaxSize _ => "too_big"
  end.

(** The issues of a failed validation, none for any other outcome. *)
Definition issues_of {A} (r : result A) : list Issue :=
  match r with
  | Raise (ValidationError issues) => issues
  | _ => []
  end.

Definition is_host_error {A} (r : result A) : bool :=
  match r with
  | Raise (HostError _) => true
  | _ => false
  end.

Definition is_validation_failure {A} (r : result A) : bool :=
  match r with
  | Raise (ValidationError _) => true
  | _ => false
  end.

(** A single issue raised at the current path. *)
Definition single_issue (code : string) (ctx : ParseContext)
    (r : result value) : Prop :=
  exists m e rcv,
    r = Raise (ValidationError
                 [{| code := code; path := ctx_path ctx; msg := m;
                     expected := e; received := rcv |}]).

Definition is_raise {A} (r : result A) : bool :=
  match r with
  | Raise _ => true
  | Ok _ => false
  end.

(** Fail fast: the first violated constraint alone is reported, as a single
    issue with its code; with none violated the run goes on as [continue]. *)
Definition fail_fast_outcome {A} (code_of : A -> string) (found : option A)
    (continue : result value) (ctx : ParseContext) (r : result value) : Prop :=
  match found with
  | Some c => single_issue (code_of c) ctx r
  | None => r = continue
  end.

(** Aggregation: the loop over the children returns the output and every
    collected issue; any issue makes the whole validation fail. *)
Definition aggregated {A} (loop : result (A * list Issue)) (wrap : A -> value)
  : result value :=
  '(output, issues) ← loop;
  output ← finish output issues;
  Ok (wrap output).

(** The issues of the items of a collection, in iteration order. *)
Fixpoint issues_from {A} (f : nat -> A -> list Issue) (i : nat) (items : list A)
  : list Issue :=
  match items with
  | [] => []
  | x :: rest => f i x ++ issues_from f (S i) rest
  end.

Fixpoint all_from {A} (p : nat -> A -> bool) (i : nat) (items : list A) : bool :=
  match items with
  | [] => true
  | x :: rest => p i x && all_from p (S i) rest
  end.

(** What validating a key and then, only when the key passed, its value
    yields: the outcome that decides, and the issues it contributes. *)
Definition key_then_value (key_outcome value_outcome : result value)
  : result value :=
  match key_outcome with
  | Ok _ => value_outcome
  | failed => failed
  end.

Definition record_entry (k v : Schema) (input : value) (ctx : ParseContext)
    (key : string) : result value :=
  key_then_value
    (_parse k (VStr key) (descend ctx [Key key] input))
    (_parse v (get_prop input key) (descend ctx [Key key] input)).

Definition map_entry (k v : Schema) (data : value) (ctx : ParseContext)
    (i : nat) (entry : value * value) : result value :=
  key_then_value
    (_parse k (fst entry) (descend ctx [Index i; Key "key"] data))
    (_parse v (snd entry) (descend ctx [Index i; Key "value"] data)).

Definition set_member (v : Schema) (data : value) (ctx : ParseContext)
    (i : nat) (x : value) : result value :=
  _parse v x (descend ctx [Index i] data).

(** The map schema as the specification words it, with size constraints
    checked before the entries. *)
Definition spec_sized_map_parse (ec : option ErrorCustomizer) (sizes : SetSchema.t)
    (k v : Schema) (data : value) (ctx : ParseContext) : result value :=
  match data with
  | VMap entries =>
      match List.find (size_violates (Number.of_nat (List.length entries)))
              (size_constraints sizes) with
      | Some c => _fail ec (size_issue_code c) [Txt "Map size"] ctx None None
      | None => _parse (Node ec (MapSchema k v)) data ctx
      end
  | _ => _parse (Node ec (MapSchema k v)) data ctx
  end.




(** ** Schemas and callbacks used in the examples *)

(** The pattern [/a/]: some code unit is the letter a. *)
Definition letter_a : RegExp :=
  {| source := "a"; flags := EmptyString; test := fun s => JSString.includes s "a" |}.

Definition two_letter_keys : Schema :=
  Node None (StringSchema (StringSchema.min 2 StringSchema.new)).

Definition throwing (name : string) : value -> result value :=
  fun _ => Raise (HostError name).

Definition tagged_members : list Schema :=
  [ z.object [("type", z.literal (VStr "a")); ("value", z.string)];
    z.object [("type", z.literal (VStr "b")); ("value", z.number)] ].

Definition shouting_tokens : StringBoolSchema.options :=
  {| StringBoolSchema.truthy := Some ["YES"]; StringBoolSchema.falsy := None |}.

(** Plain data: undefined, null, booleans, numbers, strings, and arrays and
    plain objects of plain data.  It holds no bigint, which [JSON.stringify]
    refuses, and no Map or Set, whose inherited members an object schema
    could read. *)
Fixpoint plain (v : value) : bool :=
  match v with
  | VBigInt _ | VMap _ | VSet _ => false
  | VArr items => forallb plain items
  | VObj props => forallb (fun kv => let '(_, x) := kv in plain x) props
  | _ => true
  end.

(** An outcome that is not an exception of the host, and is plain data when
    it is a value. *)
Definition calm (r : result value) : Prop :=
  match r with
  | Ok v => plain v = true
  | Raise (ValidationError _) => True
  | Raise (HostError _) => False
  end.






(** ** Further code of the cited files

    The methods of [ObjectSchema] and [EnumSchema] that build a schema from
    another one, and the vocabulary of the properties proved about them. *)

(** [target[key] = v] on any property bag. *)
Fixpoint prop_set {A} (props : list (string * A)) (key : string) (v : A)
  : list (string * A) :=
  match props with
  | [] => [(key, v)]
  | (k, w) :: rest =>
      if String.eqb k key then (k, v) :: rest else (k, w) :: prop_set rest key v
  end.

(** [{ ...target, ...src }] continued: every property of [src] assigned in
    order. *)
Definition assign {A} (target src : list (string * A)) : list (string * A) :=
  fold_left (fun acc kv => prop_set acc (fst kv) (snd kv)) src target.

(** [delete props[key]] *)
Definition prop_delete {A} (props : list (string * A)) (key : string)
  : list (string * A) :=
  List.filter (fun kv => negb (String.eqb (fst kv) key)) props.

(** [values.includes(v)] on an array of strings. *)
Definition includes_string (values : list string) (v : string) : bool :=
  existsb (String.eqb v) values.

(** The methods of [ObjectSchema] on schema trees.  A method called on a
    schema of another class has no result; the types of the source exclude
    that call. *)
Module ObjectMethods.
(** The fields of an [ObjectSchema] instance. *)
Definition fields (this : Schema)
  : option (option ErrorCustomizer * list (string * Schema)
            * UnknownKeysMode * option Schema) :=
  match this with
  | Node ec (ObjectSchema _shape _unknownKeys _catchall) =>
      Some (ec, _shape, _unknownKeys, _catchall)
  | _ => None
  end.

Definition shape (this : Schema) : list (string * Schema) :=
  match fields this with
  | Some (_, _shape, _, _) => _shape
  | None => []
  end.

(** [new ObjectSchema({ ...this._shape, ...extension })] *)
Definition extend (extension : list (string * Schema)) (this : Schema)
  : option Schema :=
  match fields this with
  | Some (_, _shape, _, _) => Some (z.object (assign (assign [] _shape) extension))
  | None => None
  end.

(** [new ObjectSchema({ ...this._shape, ...other.shape })] *)
Definition merge (other : Schema) (this : Schema) : option Schema :=
  extend (shape other) this.

(** The loop of [pick]: [if (key in this._shape) newShape[key] = this._shape[key]]. *)
Definition pick_shape (keys : list string) (_shape : list (string * Schema))
  : list (string * Schema) :=
  fold_left
    (fun newShape key =>
       match assoc key _shape with
       | Some schema => prop_set newShape key schema
       | None => newShape
       end)
    keys [].

Definition pick (keys : list string) (this : Schema) : option Schema :=
  match fields this with
  | Some (_, _shape, _, _) => Some (z.object (pick_shape keys _shape))
  | None => None
  end.

(** The loop of [omit]: [delete newShape[key]] on a copy of the shape. *)
Definition omit_shape (keys : list string) (_shape : list (string * Schema))
  : list (string * Schema) :=
  fold_left prop_delete keys (assign [] _shape).

Definition omit (keys : list string) (this : Schema) : option Schema :=
  match fields this with
  | Some (_, _shape, _, _) => Some (z.object (omit_shape keys _shape))
  | None => None
  end.

(** [this._shape[key].optional()] *)
Definition optional (schema : Schema) : Schema := Node None (OptionalSchema schema).

(** The loop of [partial] over [Object.keys(this._shape)]. *)
Definition partial_shape (_shape : list (string * Schema)) : list (string * Schema) :=
  fold_left
    (fun newShape key =>
       match assoc key _shape with
       | Some schema => prop_set newShape key (optional schema)
       | None => newShape
       end)
    (map fst _shape) [].

Definition partial (this : Schema) : option Schema :=
  match fields this with
  | Some (_, _shape, _, _) => Some (z.object (partial_shape _shape))
  | None => None
  end.

(** [new EnumSchema(Object.keys(this._shape))] *)
Definition keyof (this : Schema) : option Schema :=
  match fields this with
  | Some (_, _shape, _, _) => Some (z.enum (map fst _shape))
  | None => None
  end.
End ObjectMethods.

Module EnumMethods.
(** [extract(...values)]: [new EnumSchema(values)]. *)
Definition extract (values : list string) (_values : list string) : list string :=
  EnumSchema.new values.

(** [exclude(...values)]: the values of the set that [values] does not
    include, in a new set. *)
Definition exclude (values : list string) (_values : list string) : list string :=
  EnumSchema.new (List.filter (fun v => negb (includes_string values v)) _values).
End EnumMethods.

(** ** The derivations on the store, as one family *)

Module Derivation.
Inductive t : Type :=
| error (customizer : ErrorCustomizer)
| optional
| nullable
| nullish
| default_ (d : fallback)
| catch (d : fallback)
| transform (fn : value -> result value)
| refine (fn : value -> result bool) (message : option string)
| pipe (schema : Store.ref)
| string_method (override : StringSchema.t -> StringSchema.t)
    (message : option string).

Definition run (d : t) (this : Store.ref) : Store.M Store.ref :=
  match d with
  | error customizer => Store.error customizer this
  | optional => Store.optional this
  | nullable => Store.nullable this
  | nullish => Store.nullish this
  | default_ v => Store.default_ v this
  | catch v => Store.catch v this
  | transform fn => Store.transform fn this
  | refine fn message => Store.refine fn message this
  | pipe schema => Store.pipe schema this
  | string_method override message => Store.string_method override message this
  end.
End Derivation.

(** ** Vocabulary of the further properties *)

(** The array constraints in the order of the code: exact length, min, max. *)
Inductive length_constraint : Type :=
| ExactCount (n : float)
| MinCount (n : float)
| MaxCount (n : float).

Definition array_constraints (cfg : ArraySchema.t) : list length_constraint :=
  option_list (ExactCount <$> ArraySchema._length cfg)
  ++ option_list (MinCount <$> ArraySchema._min cfg)
  ++ option_list (MaxCount <$> ArraySchema._max cfg).

Definition count_violates (len : float) (c : length_constraint) : bool :=
  match c with
  | ExactCount n => Number.neq len n
  | MinCount n => PrimFloat.ltb len n
  | MaxCount n => PrimFloat.ltb n len
  end.

Definition count_issue_code (c : length_constraint) : string :=
  match c with
  | ExactCount _ => "invalid_length"
  | MinCount _ => "too_small"
  | MaxCount _ => "too_big"
  end.

(** [outputs] are the outputs of [f] on [items], position by position. *)
Fixpoint parsed_from {A B} (f : nat -> A -> result B) (i : nat)
    (items : list A) (outputs : list B) : Prop :=
  match items, outputs with
  | [], [] => True
  | x :: xs, y :: ys => f i x = Ok y /\ parsed_from f (S i) xs ys
  | _, _ => False
  end.

(** The callbacks held by a node never throw a [ValidationError] of their
    own. *)
Definition callbacks_raise_no_issues {C : Type} (this : node C) : Prop :=
  match this with
  | TransformOnlySchema f | TransformSchema _ f =>
      forall v, is_validation_failure (f v) = false
  | RefineSchema _ p _ => forall v, is_validation_failure (p v) = false
  | DefaultSchema _ d | CatchSchema _ d =>
      is_validation_failure (eval_fallback d) = false
  | _ => True
  end.

Inductive validating : Schema -> Prop :=
| validating_node (ec : option ErrorCustomizer) (class : node Schema) :
    callbacks_raise_no_issues class -> Forall validating (children class) ->
    validating (Node ec class).

(** A raised [ValidationError] holds at least one issue, and every issue
    lies at or below the path [p]. *)
Definition well_reported {A} (p : list segment) (r : result A) : Prop :=
  match r with
  | Raise (ValidationError issues) =>
      issues <> [] /\ Forall (fun i => p `prefix_of` path i) issues
  | _ => True
  end.

Definition reported_on {C : Type}
    (call : C -> value -> ParseContext -> result value) (cs : list C) : Prop :=
  forall c, In c cs -> forall data ctx, well_reported (ctx_path ctx) (call c data ctx).

(** Two issues that differ at most in their message. *)
Definition same_but_message (i j : Issue) : Prop :=
  code i = code j /\ path i = path j
  /\ expected i = expected j /\ received i = received j.

(** Two outcomes that are equal, or are each the single issue of the node
    itself, with different messages. *)
Definition differ_in_own_message {A} (r1 r2 : result A) : Prop :=
  r1 = r2
  \/ exists i j,
       r1 = Raise (ValidationError [i]) /\ r2 = Raise (ValidationError [j])
       /\ same_but_message i j.

(** No two members of a set are the same value. *)
Fixpoint distinct_members (members : list value) : bool :=
  match members with
  | [] => true
  | x :: rest => negb (set_has rest x) && distinct_members rest
  end.

(** The outcome of an aggregating loop: it raises no [ValidationError] of
    its own, and the issues it has collected lie at or below [p]. *)
Definition collected {A} (p : list segment) (r : result (A * list Issue)) : Prop :=
  match r with
  | Ok (_, issues) => Forall (fun i => p `prefix_of` path i) issues
  | Raise (ValidationError _) => False
  | Raise (HostError _) => True
  end.

(** ** Objects of the store used in the examples *)

(** The object built by [z.string()]. *)
Definition plain_string : Store.object :=
  {| Store._errorCustomizer := None;
     Store.class := StringSchema StringSchema.new;
     Store.own_parse := None |}.

(** A new object of the class of [o] with other fields, as [_clone] builds. *)
Definition with_class (cfg : StringSchema.t) (o : Store.object) : Store.object :=
  {| Store._errorCustomizer := Store._errorCustomizer o;
     Store.class := StringSchema cfg;
     Store.own_parse := None |}.

(** The object [o] after [preprocess(fn, o)], [o] being the object [this]. *)
Definition patched (fn : value -> result value) (this : Store.ref)
    (o : Store.object) : Store.object :=
  {| Store._errorCustomizer := Store._errorCustomizer o;
     Store.class := Store.class o;
     Store.own_parse :=
       Some (Store.Patched fn (default (Store.Method this) (Store.own_parse o))) |}.

(** The object built by [z.strictObject({ name })], [name] being the object
    at reference 0. *)
Definition name_object : Store.object :=
  {| Store._errorCustomizer := None;
     Store.class := ObjectSchema [("name", 0)] strict None;
     Store.own_parse := None |}.

(** The clone of [o]: its fields and customizer, no [_parse] of its own. *)
Definition clone_of (o : Store.object) : Store.object :=
  {| Store._errorCustomizer := Store._errorCustomizer o;
     Store.class := Store.class o;
     Store.own_parse := None |}.

(** The copy of [o] that [error] builds. *)
Definition with_customizer (customizer : ErrorCustomizer) (o : Store.object)
  : Store.object :=
  {| Store._errorCustomizer := Some customizer;
     Store.class := Store.class o;
     Store.own_parse := Store.own_parse o |}.

(** * Properties *)

(** ** The failure helper and the check statements *)

Lemma _fail_single_issue (ec : option ErrorCustomizer) (code : string)
    (m : message) (ctx : ParseContext) (e r : option message) :
  single_issue code ctx (_fail ec code m ctx e r).
Proof. unfold single_issue, _fail. do 3 eexists. reflexivity. Qed.

Lemma fail_if_bind {B} (c : bool) (failure : result unit) (k : result B) :
  (fail_if c failure;; k) = if c then (failure;; k) else k.
Proof. destruct c; reflexivity. Qed.

Lemma check_bind {A B} (field : option A) (violated : A -> bool)
    (failure : A -> result unit) (k : result B) :
  (check field violated failure;; k) =
  match field with
  | Some x => if violated x then (failure x;; k) else k
  | None => k
  end.
Proof. destruct field as [x|]; [simpl; destruct (violated x)|]; reflexivity. Qed.

(** ** Strings *)

Module JSStringFacts.
Import JSString.











Section space_preserving.
Variable f : ascii -> ascii.
Hypothesis f_space : forall c, is_space (f c) = is_space c.




End space_preserving.
















End JSStringFacts.

(** ** String schemas *)



(** A check that has to pass for the hypothesis [H] to hold. *)
Ltac pass_check H :=
  first
    [ rewrite fail_if_bind in H;
      match type of H with
      | (if ?b then _ else _) = _ => destruct b eqn:?; [discriminate H|]
      end
    | rewrite check_bind in H;
      match type of H with
      | match ?o with Some _ => _ | None => _ end = _ =>
          destruct o;
          [ match type of H with
            | (if ?b then _ else _) = _ => destruct b eqn:?; [discriminate H|]
            end
          | ]
      end ].


(** One check statement against the head of the list of constraints. *)
Lemma fail_fast_step {A B} (code_of : B -> string) (violates : B -> bool)
    (field : option A) (g : A -> B) (violated : A -> bool)
    (failure : A -> result unit) (rest : list B) (k : result value)
    (continue : result value) (ctx : ParseContext) :
  (forall x, violated x = violates (g x)) ->
  (forall x, exists i, failure x = Raise (ValidationError [i]) /\
                       code i = code_of (g x) /\ path i = ctx_path ctx) ->
  fail_fast_outcome code_of (List.find violates rest) continue ctx k ->
  fail_fast_outcome code_of
    (List.find violates (option_list (g <$> field) ++ rest)) continue ctx
    (check field violated failure;; k).
Proof.
  intros Hv Hf Hk. rewrite check_bind. destruct field as [x|]; [|exact Hk].
  simpl. rewrite <- Hv. destruct (violated x); [|exact Hk].
  destruct (Hf x) as ([c p m e r] & -> & Hc & Hp). cbn in Hc, Hp. subst c p.
  unfold fail_fast_outcome, single_issue. do 3 eexists. reflexivity.
Qed.

Lemma _fail_issue (ec : option ErrorCustomizer) (c : string) (m : message)
    (ctx : ParseContext) (e r : option message) :
  exists i, @_fail unit ec c m ctx e r = Raise (ValidationError [i]) /\
            code i = c /\ path i = ctx_path ctx.
Proof. unfold _fail. eexists. split; [reflexivity|]. split; reflexivity. Qed.





(** Of two violated [invalid_string] constraints the earlier one in the
    order is reported: the prefix before the suffix, the suffix before the
    substring, the substring before the pattern. *)
Example C8_order_of_the_invalid_string_checks :
  parse (Node None (StringSchema
           (StringSchema.regex letter_a
              (StringSchema.includes "i"
                 (StringSchema.endsWith "e"
                    (StringSchema.startsWith "p" StringSchema.new))))))
    (VStr "x")
  = Raise (ValidationError
       [string_issue [] (HasPrefix "p")])
  /\ parse (Node None (StringSchema
              (StringSchema.regex letter_a
                 (StringSchema.includes "i"
                    (StringSchema.endsWith "e" StringSchema.new)))))
       (VStr "x")
     = Raise (ValidationError [string_issue [] (HasSuffix "e")])
  /\ parse (Node None (StringSchema
              (StringSchema.regex letter_a
                 (StringSchema.includes "i" StringSchema.new))))
       (VStr "x")
     = Raise (ValidationError [string_issue [] (Contains "i")])
  /\ parse (Node None (StringSchema (StringSchema.regex letter_a StringSchema.new)))
       (VStr "x")
     = Raise (ValidationError
          [{| code := "invalid_string"; path := [];
              msg := [Txt "String must match pattern "; Txt "/a/"];
              expected := None; received := None |}]).
Proof. repeat split. Qed.

Example C8_first_violation_only :
  parse (Node None (StringSchema
           (StringSchema.startsWith "z" (StringSchema.min 5 (StringSchema.trim StringSchema.new)))))
    (VStr "  ab  ")
  = Raise (ValidationError
       [{| code := "too_small"; path := [];
           msg := [Txt "String must be at least "; Num 5; Txt " characters"];
           expected := None; received := None |}]).
Proof. reflexivity. Qed.





(** A union of two string schemas does not either: the first member rejects
    the input for its length, the second one trims it, and the first member
    accepts the trimmed text and changes its case. *)
Example union_output_is_parsed_differently :
  let schema :=
    z.union [Node None (StringSchema
                          (StringSchema.toUpperCase (StringSchema.max 3 StringSchema.new)));
             Node None (StringSchema (StringSchema.trim StringSchema.new))] in
  parse schema (VStr " abc") = Ok (VStr "abc")
  /\ parse schema (VStr "abc") = Ok (VStr "ABC").
Proof. split; reflexivity. Qed.

Lemma number_parse_ok (ec : option ErrorCustomizer) (cfg : NumberSchema.t)
    (data : value) (ctx : ParseContext) (out : value) :
  NumberSchema._parse ec cfg data ctx = Ok out ->
  exists n, data = VNum n /\ out = VNum n /\ Number.isNaN n = false.
Proof.
  intros H. destruct data; try discriminate H.
  exists n. unfold NumberSchema._parse in H.
  repeat pass_check H; inversion H; auto.
Qed.

(** C10: a number schema, whatever its constraints, rejects NaN with a single
    [invalid_type] issue, and no output of a number schema is NaN. *)
Theorem C10_number_rejects_NaN (ec : option ErrorCustomizer)
    (cfg : NumberSchema.t) (ctx : ParseContext) :
  single_issue "invalid_type" ctx
    (_parse (Node ec (NumberSchema cfg)) (VNum PrimFloat.nan) ctx)
  /\ (forall data out,
        _parse (Node ec (NumberSchema cfg)) data ctx = Ok out ->
        exists n, out = VNum n /\ Number.isNaN n = false).
Proof.
  split.
  - cbn [_parse parse_node]. unfold NumberSchema._parse.
    rewrite fail_if_bind.
    change (Number.isNaN PrimFloat.nan) with true. cbn iota.
    apply _fail_single_issue.
  - cbn [_parse parse_node]. intros data out H.
    destruct (number_parse_ok _ _ _ _ _ H) as (n & _ & -> & E). eauto.
Qed.

Lemma C10_number_rejects_NaN_witness :
  exists n, VNum 50 = VNum n /\ Number.isNaN n = false.
Proof.
  apply (proj2 (C10_number_rejects_NaN None
                  (NumberSchema.new) root) (VNum 50) (VNum 50)).
  reflexivity.
Defined.

(** ** [SameValueZero] is a partial equivalence *)

Lemma SFeqb_true_iff (f g : spec_float) :
  SFeqb f g = true <-> Number.canonical f = Number.canonical g /\ f <> S754_nan.
Proof.
  unfold SFeqb, SFcompare.
  destruct f as [[]|[]| |[] m1 e1], g as [[]|[]| |[] m2 e2]; cbn;
    try (split;
         [ intros H; first [discriminate H | split; [reflexivity | discriminate]]
         | intros [E N]; first [reflexivity | discriminate E | congruence] ]).
  all: rewrite Pos.compare_cont_spec; cbn;
    destruct (Z.compare_spec e1 e2) as [He|He|He];
    destruct (Pos.compare_spec m1 m2) as [Hm|Hm|Hm]; cbn;
    (split;
     [ intros H; first [discriminate H | subst; split; [reflexivity | discriminate]]
     | intros [E _]; first [reflexivity | inversion E; subst; lia] ]).
Qed.

Lemma is_nan_true_iff (x : float) :
  PrimFloat.is_nan x = true <-> Prim2SF x = S754_nan.
Proof.
  unfold PrimFloat.is_nan. rewrite eqb_spec, negb_true_iff.
  split.
  - intros H. destruct (Prim2SF x) eqn:E; try reflexivity;
      exfalso; revert H; apply not_false_iff_true, SFeqb_true_iff;
      (split; [reflexivity | discriminate]).
  - intros ->. reflexivity.
Qed.

Lemma number_sameValueZero_iff (x y : float) :
  Number.sameValueZero x y = true <-> Number.canonical (Prim2SF x) = Number.canonical (Prim2SF y).
Proof.
  unfold Number.sameValueZero. rewrite orb_true_iff, andb_true_iff, eqb_spec,
    SFeqb_true_iff, !is_nan_true_iff.
  split.
  - intros [[E _]|[-> ->]]; [exact E | reflexivity].
  - intros E. destruct (Prim2SF x) eqn:Ex; try (left; split; [exact E | discriminate]).
    right. split; [reflexivity|].
    destruct (Prim2SF y); cbn in E; first [reflexivity | discriminate E].
Qed.

Lemma sameValueZero_sym (a b : value) : sameValueZero a b = sameValueZero b a.
Proof.
  destruct a, b; cbn; try reflexivity.
  - now destruct b, b0.
  - apply eq_true_iff_eq.
    rewrite !number_sameValueZero_iff. split; intros H; now symmetry.
  - apply Z.eqb_sym.
  - apply String.eqb_sym.
Qed.

Lemma sameValueZero_trans (a b c : value) :
  sameValueZero a b = true -> sameValueZero b c = true -> sameValueZero a c = true.
Proof.
  destruct a, b; cbn; try discriminate; destruct c; cbn; try discriminate; try reflexivity.
  - rewrite !Bool.eqb_true_iff. congruence.
  - rewrite !number_sameValueZero_iff. congruence.
  - rewrite !Z.eqb_eq. congruence.
  - rewrite !String.eqb_eq. congruence.
Qed.

(** ** The lookup table of a discriminated union *)




Section lookup_table.
Context {C : Type} (inspect : C -> option (node C)).




End lookup_table.

Section dispatch.
Context {C : Type} (call : C -> value -> ParseContext -> result value).




Lemma alternatives_first_success (pre post : list C) (o : C) (data v : value)
    (ctx : ParseContext) (issues : list Issue) :
  Forall (fun a => is_validation_failure (call a data ctx) = true) pre ->
  call o data ctx = Ok v ->
  UnionSchema.alternatives call (pre ++ o :: post) data ctx issues = Ok (Some v).
Proof.
  intros Hpre Ho. revert issues.
  induction Hpre as [|a pre Ha _ IH]; intros issues; cbn.
  - now rewrite Ho.
  - destruct (call a data ctx) as [|[|]]; try discriminate Ha. cbn. apply IH.
Qed.

Lemma alternatives_all_fail (opts : list C) (data : value) (ctx : ParseContext)
    (issues : list Issue) :
  Forall (fun a => is_validation_failure (call a data ctx) = true) opts ->
  UnionSchema.alternatives call opts data ctx issues = Ok None.
Proof.
  intros H. revert issues. induction H as [|a opts Ha _ IH]; intros issues; cbn;
    [reflexivity|].
  destruct (call a data ctx) as [|[|]]; try discriminate Ha. cbn. apply IH.
Qed.
End dispatch.

(** C6: a plain union returns the output of the first alternative, in
    declared order, that validates, whatever the later alternatives are; when
    every alternative fails it raises exactly one [invalid_union] issue. *)
Theorem C6_union_first_match_wins (ec : option ErrorCustomizer)
    (data : value) (ctx : ParseContext) :
  (forall pre o post v,
      Forall (fun a => is_validation_failure (_parse a data ctx) = true) pre ->
      _parse o data ctx = Ok v ->
      _parse (Node ec (UnionSchema (pre ++ o :: post))) data ctx = Ok v)
  /\ (forall options,
        Forall (fun a => is_validation_failure (_parse a data ctx) = true) options ->
        single_issue "invalid_union" ctx
          (_parse (Node ec (UnionSchema options)) data ctx)).
Proof.
  split.
  - intros pre o post v Hpre Ho. cbn [_parse parse_node].
    unfold UnionSchema._parse.
    now rewrite (alternatives_first_success _parse pre post o data v ctx [] Hpre Ho).
  - intros options H. cbn [_parse parse_node]. unfold UnionSchema._parse.
    rewrite (alternatives_all_fail _parse options data ctx [] H). cbn.
    apply _fail_single_issue.
Qed.

Lemma C6_union_first_match_wins_witness :
  _parse (z.union [z.number; z.string; z.transform (fun _ => Raise (HostError "TypeError"))])
    (VStr "hello") root = Ok (VStr "hello")
  /\ single_issue "invalid_union" root
       (_parse (z.union [z.string; z.number]) (VBool true) root).
Proof.
  split.
  - apply (proj1 (C6_union_first_match_wins None (VStr "hello") root)
             [z.number] z.string
             [z.transform (fun _ => Raise (HostError "TypeError"))]).
    + repeat constructor.
    + reflexivity.
  - apply (proj2 (C6_union_first_match_wins None (VBool true) root)
             [z.string; z.number]).
    repeat constructor.
Defined.




(** ** Records *)

Lemma record_entries_aggregate (k v : Schema) (input : value) (ctx : ParseContext)
    (keys : list string) (output : list (string * value)) (issues : list Issue) :
  Forall (fun key => is_host_error (record_entry k v input ctx key) = false) keys ->
  exists output',
    RecordSchema.entries _parse k v keys input ctx output issues =
    Ok (output', issues ++ flat_map (fun key => issues_of (record_entry k v input ctx key)) keys).
Proof.
  intros H. revert output issues.
  induction H as [|key keys Hkey _ IH]; intros output issues; cbn.
  - exists output. now rewrite app_nil_r.
  - unfold record_entry, key_then_value in Hkey |- *.
    destruct (_parse k (VStr key) (descend ctx [Key key] input)) as [pk|[es|name]];
      cbn in Hkey |- *; try discriminate Hkey.
    + destruct (_parse v (get_prop input key) (descend ctx [Key key] input))
        as [pv|[es|name]]; cbn in Hkey |- *; try discriminate Hkey.
      * apply IH.
      * rewrite app_assoc. apply IH.
    + rewrite app_assoc. apply IH.
Qed.

Lemma aggregated_outcome {A} (output : A) (issues : list Issue) (wrap : A -> value) :
  (issues = [] -> aggregated (Ok (output, issues)) wrap = Ok (wrap output))
  /\ (issues <> [] -> aggregated (Ok (output, issues)) wrap = Raise (ValidationError issues)).
Proof.
  unfold aggregated. cbn. destruct issues; cbn; split; congruence.
Qed.

(** C2 (amended): a record validates the value of an entry only when the key
    of that entry passed; an entry whose key fails contributes the issues of
    the key alone, whatever the value schema is.  The issues of all entries
    are aggregated in the order of the keys. *)
Theorem C2_record_key_failure_skips_value (ec : option ErrorCustomizer)
    (k v : Schema) (props : list (string * value)) (ctx : ParseContext) :
  let input := VObj props in
  let keys := map fst props in
  let issues := flat_map (fun key => issues_of (record_entry k v input ctx key)) keys in
  Forall (fun key => is_host_error (record_entry k v input ctx key) = false) keys ->
  (issues = [] ->
   exists output, _parse (Node ec (RecordSchema k v)) input ctx = Ok (VObj output))
  /\ (issues <> [] ->
      _parse (Node ec (RecordSchema k v)) input ctx = Raise (ValidationError issues))
  /\ (forall key es,
        In key keys ->
        _parse k (VStr key) (descend ctx [Key key] input) = Raise (ValidationError es) ->
        forall v', issues_of (record_entry k v' input ctx key) = es).
Proof.
  intros input keys issues H.
  destruct (record_entries_aggregate k v input ctx keys [] [] H) as (output & E).
  cbn [_parse parse_node]. unfold RecordSchema._parse.
  change (not_object_or_null input || isArray input) with false. cbv iota.
  change (object_keys input) with keys. rewrite E.
  cbn [app]. fold issues.
  destruct (aggregated_outcome output issues VObj) as [Hok Hfail].
  unfold aggregated in Hok, Hfail. cbn in Hok, Hfail.
  split; [|split].
  - intros Hi. exists output. cbn. now apply Hok.
  - intros Hi. cbn. now apply Hfail.
  - intros key es _ Hk v'. unfold record_entry. now rewrite Hk.
Qed.

Lemma C2_record_key_failure_skips_value_witness :
  _parse (z.record two_letter_keys (Some z.number))
    (VObj [("a", VStr "x"); ("bc", VStr "y")]) root =
  Raise (ValidationError
    (flat_map
       (fun key => issues_of
          (record_entry two_letter_keys z.number
             (VObj [("a", VStr "x"); ("bc", VStr "y")]) root key))
       ["a"; "bc"])).
Proof.
  apply (C2_record_key_failure_skips_value None two_letter_keys z.number
           [("a", VStr "x"); ("bc", VStr "y")] root).
  - repeat constructor.
  - discriminate.
Defined.

(** C2 as stated fails: the key "a" fails the key schema and the value "x"
    fails the value schema, yet the error holds the issue of the key alone. *)
Lemma C2_counterexample :
  let input := VObj [("a", VStr "x")] in
  let entry := descend root [Key "a"] input in
  is_validation_failure (_parse two_letter_keys (VStr "a") entry) = true
  /\ is_validation_failure (_parse z.number (VStr "x") entry) = true
  /\ parse (z.record two_letter_keys (Some z.number)) input =
     Raise (ValidationError (issues_of (_parse two_letter_keys (VStr "a") entry)))
  /\ forall i, In i (issues_of (_parse z.number (VStr "x") entry)) ->
               ~ In i (issues_of (parse (z.record two_letter_keys (Some z.number)) input)).
Proof.
  cbn. repeat split; try reflexivity.
  intros i [<-|[]] [E|[]]. discriminate E.
Qed.

(** ** Sets and maps *)

Lemma set_members_aggregate (v : Schema) (data : value) (ctx : ParseContext)
    (items : list value) (i : nat) (output : list value) (issues : list Issue) :
  all_from (fun j x => negb (is_host_error (set_member v data ctx j x))) i items = true ->
  exists output',
    SetSchema.members _parse v data items i ctx output issues =
    Ok (output', issues ++ issues_from (fun j x => issues_of (set_member v data ctx j x)) i items).
Proof.
  revert i output issues.
  induction items as [|x items IH]; intros i output issues H; cbn.
  - exists output. now rewrite app_nil_r.
  - cbn in H. apply andb_true_iff in H as [Hx H]. unfold set_member in Hx |- *.
    destruct (_parse v x (descend ctx [Index i] data)) as [pv|[es|name]];
      cbn in Hx |- *; try discriminate Hx.
    + now apply IH.
    + rewrite app_assoc. now apply IH.
Qed.

Lemma map_entries_aggregate (k v : Schema) (data : value) (ctx : ParseContext)
    (items : list (value * value)) (i : nat) (output : list (value * value))
    (issues : list Issue) :
  all_from (fun j e => negb (is_host_error (map_entry k v data ctx j e))) i items = true ->
  exists output',
    MapSchema.entries _parse k v data items i ctx output issues =
    Ok (output', issues ++ issues_from (fun j e => issues_of (map_entry k v data ctx j e)) i items).
Proof.
  revert i output issues.
  induction items as [|[key val] items IH]; intros i output issues H; cbn.
  - exists output. now rewrite app_nil_r.
  - cbn in H. apply andb_true_iff in H as [Hx H].
    unfold map_entry, key_then_value in Hx |- *. cbn [fst snd] in Hx |- *.
    destruct (_parse k key (descend ctx [Index i; Key "key"] data)) as [pk|[es|name]];
      cbn in Hx |- *; try discriminate Hx.
    + destruct (_parse v val (descend ctx [Index i; Key "value"] data))
        as [pv|[es|name]]; cbn in Hx |- *; try discriminate Hx.
      * now apply IH.
      * rewrite app_assoc. now apply IH.
    + rewrite app_assoc. now apply IH.
Qed.

(** C4 (amended): a set schema checks its size constraints (exact size, min,
    max) before any member: a violated constraint raises a single size issue
    whatever the member schema is, and only a conforming set has its members
    validated, their issues aggregated in iteration order.  A map schema has
    no size constraint: every map goes straight to the aggregation over its
    entries, where the value of an entry is validated when its key passed. *)
Theorem C4_set_size_first_map_unsized (ec : option ErrorCustomizer)
    (cfg : SetSchema.t) (v : Schema) (items : list value) (ctx : ParseContext) :
  let data := VSet items in
  let found :=
    List.find (size_violates (Number.of_nat (List.length items)))
      (size_constraints cfg) in
  fail_fast_outcome size_issue_code found
    (aggregated (SetSchema.members _parse v data items 0 ctx [] []) VSet) ctx
    (_parse (Node ec (SetSchema cfg v)) data ctx)
  /\ (forall c v',
        found = Some c ->
        single_issue (size_issue_code c) ctx (_parse (Node ec (SetSchema cfg v')) data ctx))
  /\ (all_from (fun j x => negb (is_host_error (set_member v data ctx j x))) 0 items = true ->
      exists output,
        SetSchema.members _parse v data items 0 ctx [] [] =
        Ok (output, issues_from (fun j x => issues_of (set_member v data ctx j x)) 0 items))
  /\ (forall k w entries,
        _parse (Node ec (MapSchema k w)) (VMap entries) ctx =
        aggregated (MapSchema.entries _parse k w (VMap entries) entries 0 ctx [] []) VMap)
  /\ (forall k w entries,
        all_from (fun j e => negb (is_host_error (map_entry k w (VMap entries) ctx j e)))
          0 entries = true ->
        exists output,
          MapSchema.entries _parse k w (VMap entries) entries 0 ctx [] [] =
          Ok (output,
              issues_from (fun j e => issues_of (map_entry k w (VMap entries) ctx j e))
                0 entries)).
Proof.
  intros data found.
  assert (Hset : forall v',
    fail_fast_outcome size_issue_code found
      (aggregated (SetSchema.members _parse v' data items 0 ctx [] []) VSet) ctx
      (_parse (Node ec (SetSchema cfg v')) data ctx)).
  { intros v'. subst found. cbn [_parse parse_node]. unfold SetSchema._parse.
    cbn [data]. unfold size_constraints.
    rewrite <- (app_nil_r (option_list (MaxSize <$> _))).
    repeat (apply fail_fast_step;
            [ intros x; reflexivity | intros x; apply _fail_issue | ]).
    reflexivity. }
  split; [apply Hset|]. split; [|split; [|split]].
  - intros c v' Hc. specialize (Hset v'). now rewrite Hc in Hset.
  - intros H. now apply (set_members_aggregate v data ctx items 0 [] []).
  - reflexivity.
  - intros k w entries H.
    now apply (map_entries_aggregate k w (VMap entries) ctx entries 0 [] []).
Qed.

Lemma C4_set_size_first_map_unsized_witness :
  single_issue "too_small" root
    (_parse (Node None (SetSchema (SetSchema.min 2 SetSchema.new)
                          (z.transform (fun _ => Raise (HostError "called")))))
       (VSet [VNum 1]) root)
  /\ exists output,
       MapSchema.entries _parse z.string z.number
         (VMap [(VNum 1, VStr "a")]) [(VNum 1, VStr "a")] 0 root [] [] =
       Ok (output,
           issues_from
             (fun j e => issues_of
                (map_entry z.string z.number (VMap [(VNum 1, VStr "a")]) root j e))
             0 [(VNum 1, VStr "a")]).
Proof.
  pose proof (C4_set_size_first_map_unsized None
                (SetSchema.min 2 SetSchema.new) z.any [VNum 1] root) as (_ & H & _ & _ & M).
  split.
  - apply (H (MinSize 2) (z.transform (fun _ => Raise (HostError "called")))).
    reflexivity.
  - apply (M z.string z.number [(VNum 1, VStr "a")]). reflexivity.
Defined.

(** C4 as stated fails for maps: the specification's map with a minimum size
    of one rejects the empty map with a size issue, but no map schema of the
    code rejects the empty map. *)
Lemma C4_counterexample :
  single_issue "too_small" root
    (spec_sized_map_parse None (SetSchema.min 1 SetSchema.new)
       z.string z.number (VMap []) root)
  /\ forall ec k v, _parse (Node ec (MapSchema k v)) (VMap []) root = Ok (VMap []).
Proof.
  split.
  - unfold single_issue. do 3 eexists. reflexivity.
  - reflexivity.
Qed.

(** ** Which schemas can raise something else than a [ValidationError] *)






(** [JSON.stringify] throws nothing but a [TypeError]. *)
Lemma stringify_cases (v : value) :
  JSON.stringify v = Ok [Json v] \/ JSON.stringify v = Raise (HostError "TypeError").
Proof. unfold JSON.stringify. destruct (JSON.serializable v); auto. Qed.

Lemma map_throwing_stringify_cases (values : list value) :
  map_throwing JSON.stringify values = Ok (map (fun v => [Json v]) values)
  \/ map_throwing JSON.stringify values = Raise (HostError "TypeError").
Proof.
  induction values as [|v rest IH]; [now left|]. cbn [map_throwing map].
  destruct (stringify_cases v) as [-> | ->]; [|now right]. cbn [mbind result_bind].
  destruct IH as [-> | ->]; [now left|now right].
Qed.













Section no_host_error.
Context {C : Type} (call : C -> value -> ParseContext -> result value).













Lemma _fail_calm ec code m ctx e r : calm (@_fail value ec code m ctx e r).
Proof. exact I. Qed.






End no_host_error.



(** ** [safeParse] *)




(** [safeParse] also raises without any callback: a literal schema renders
    the rejected input with [JSON.stringify], which throws on a bigint, and
    a literal that is a bigint makes every rejection throw. *)
Example safeParse_raises_on_a_bigint :
  safeParse (z.literal (VNum 1)) (VBigInt 1) = Raise (HostError "TypeError")
  /\ safeParse (z.literal (VBigInt 1)) (VBigInt 1) = Ok (Success (VBigInt 1))
  /\ safeParse (z.literal (VBigInt 1)) (VStr "x") = Raise (HostError "TypeError")
  /\ safeParse (z.enum ["a"]) (VArr [VBigInt 1]) = Raise (HostError "TypeError").
Proof. repeat split. Qed.


(** ** The string-to-boolean schema *)

Lemma stringbool_default_tokens :
  StringBoolSchema.new None =
  {| StringBoolSchema._truthy := ["true"; "1"; "yes"; "on"; "y"; "enabled"];
     StringBoolSchema._falsy := ["false"; "0"; "no"; "off"; "n"; "disabled"] |}.
Proof. reflexivity. Qed.

(** With tokens that are already in lower case the match ignores the case
    of the input: truthy tokens are tried first, then falsy ones. *)
Lemma stringbool_lowercase_tokens (ec : option ErrorCustomizer)
    (this : StringBoolSchema.t) (s : string) (ctx : ParseContext) :
  let matches tokens :=
    existsb (fun t => String.eqb (JSString.toLowerCase s) (JSString.toLowerCase t))
      tokens in
  Forall (fun t => JSString.toLowerCase t = t) (StringBoolSchema._truthy this) ->
  Forall (fun t => JSString.toLowerCase t = t) (StringBoolSchema._falsy this) ->
  if matches (StringBoolSchema._truthy this)
  then StringBoolSchema._parse ec this (VStr s) ctx = Ok (VBool true)
  else if matches (StringBoolSchema._falsy this)
  then StringBoolSchema._parse ec this (VStr s) ctx = Ok (VBool false)
  else single_issue "invalid_value" ctx (StringBoolSchema._parse ec this (VStr s) ctx).
Proof.
  intros matches Ht Hf.
  assert (E : forall tokens, Forall (fun t => JSString.toLowerCase t = t) tokens ->
            matches tokens = StringBoolSchema.has tokens (JSString.toLowerCase s)).
  { intros tokens H. unfold matches, StringBoolSchema.has.
    induction H as [|t tokens Hx _ IH]; cbn; [reflexivity|]. now rewrite Hx, IH. }
  rewrite (E _ Ht), (E _ Hf). unfold StringBoolSchema._parse.
  destruct (StringBoolSchema.has (StringBoolSchema._truthy this) _); [reflexivity|].
  destruct (StringBoolSchema.has (StringBoolSchema._falsy this) _); [reflexivity|].
  apply _fail_single_issue.
Qed.

(** C5, at the failing input: with the configured truthy token "YES" the
    code rejects both "YES" and "yes", because it folds the case of the input
    and compares it with the token as written. *)
Theorem C5_stringbool_configured_token_case :
  parse (z.stringbool (Some shouting_tokens)) (VStr "YES") =
    Raise (ValidationError
      [{| code := "invalid_value"; path := [];
          msg := [Txt "Cannot parse "; Txt dquote; Txt "YES"; Txt dquote; Txt " as boolean"];
          expected := None; received := None |}])
  /\ parse (z.stringbool (Some shouting_tokens)) (VStr "yes") =
    Raise (ValidationError
      [{| code := "invalid_value"; path := [];
          msg := [Txt "Cannot parse "; Txt dquote; Txt "yes"; Txt dquote; Txt " as boolean"];
          expected := None; received := None |}]).
Proof. split; reflexivity. Qed.

(** ** The class method reaches a child only through the dispatch *)

Section extensionality.
Context {C : Type} (call1 call2 : C -> value -> ParseContext -> result value).

Lemma agree_on_app (l1 l2 : list C) :
  agree_on call1 call2 (l1 ++ l2) -> agree_on call1 call2 l1 /\ agree_on call1 call2 l2.
Proof.
  intros H. split; intros c Hc; apply H, in_or_app; auto.
Qed.

Lemma agree_on_cons (c : C) (l : list C) :
  agree_on call1 call2 (c :: l) ->
  (forall data ctx, call1 c data ctx = call2 c data ctx) /\ agree_on call1 call2 l.
Proof.
  intros H. split; [apply H; now left|]. intros x Hx. apply H. now right.
Qed.

Lemma known_keys_ext shape input ctx output issues :
  agree_on call1 call2 (map snd shape) ->
  ObjectSchema.known_keys call1 shape input ctx output issues =
  ObjectSchema.known_keys call2 shape input ctx output issues.
Proof.
  revert output issues. induction shape as [|[key schema] rest IH];
    intros output issues H; cbn; [reflexivity|].
  cbn in H. apply agree_on_cons in H as [Hc H]. rewrite Hc.
  destruct (call2 schema _ _) as [v|[es|name]]; cbn; auto.
Qed.

Lemma unknown_keys_ext (shape : list (string * C)) mode catchall keys input ctx
    output issues :
  agree_on call1 call2 (option_list catchall) ->
  ObjectSchema.unknown_keys call1 shape mode catchall keys input ctx output issues =
  ObjectSchema.unknown_keys call2 shape mode catchall keys input ctx output issues.
Proof.
  intros H. revert output issues. induction keys as [|key rest IH];
    intros output issues; cbn; [reflexivity|].
  destruct (key_in key shape); [apply IH|].
  destruct catchall as [c|].
  - rewrite (proj1 (agree_on_cons _ _ H)).
    destruct (call2 c _ _) as [v|[es|name]]; cbn; auto.
  - destruct mode; apply IH.
Qed.

Lemma record_entries_ext k v keys input ctx output issues :
  agree_on call1 call2 [k; v] ->
  RecordSchema.entries call1 k v keys input ctx output issues =
  RecordSchema.entries call2 k v keys input ctx output issues.
Proof.
  intros H. apply agree_on_cons in H as [Hk H].
  apply agree_on_cons in H as [Hv _].
  revert output issues. induction keys as [|key rest IH];
    intros output issues; cbn; [reflexivity|].
  rewrite Hk. destruct (call2 k _ _) as [pk|[es|name]]; cbn; auto.
  rewrite Hv. destruct (call2 v _ _) as [pv|[es|name]]; cbn; auto.
Qed.

Lemma map_entries_ext k v data items i ctx output issues :
  agree_on call1 call2 [k; v] ->
  MapSchema.entries call1 k v data items i ctx output issues =
  MapSchema.entries call2 k v data items i ctx output issues.
Proof.
  intros H. apply agree_on_cons in H as [Hk H].
  apply agree_on_cons in H as [Hv _].
  revert i output issues. induction items as [|[key val] rest IH];
    intros i output issues; cbn; [reflexivity|].
  rewrite Hk. destruct (call2 k key _) as [pk|e]; cbn.
  - rewrite Hv. destruct (call2 v val _) as [pv|[es|name]]; cbn; auto.
  - destruct e; cbn; auto.
Qed.

Lemma set_members_ext v data items i ctx output issues :
  agree_on call1 call2 [v] ->
  SetSchema.members call1 v data items i ctx output issues =
  SetSchema.members call2 v data items i ctx output issues.
Proof.
  intros H. apply agree_on_cons in H as [Hv _].
  revert i output issues. induction items as [|x rest IH];
    intros i output issues; cbn; [reflexivity|].
  rewrite Hv. destruct (call2 v _ _) as [pv|[es|name]]; cbn; auto.
Qed.

Lemma array_elements_ext v data items i ctx output issues :
  agree_on call1 call2 [v] ->
  ArraySchema.elements call1 v data items i ctx output issues =
  ArraySchema.elements call2 v data items i ctx output issues.
Proof.
  intros H. apply agree_on_cons in H as [Hv _].
  revert i output issues. induction items as [|x rest IH];
    intros i output issues; cbn; [reflexivity|].
  rewrite Hv. destruct (call2 v _ _) as [pv|[es|name]]; cbn; auto.
Qed.

Lemma fixed_items_ext schemas data items i ctx output issues :
  agree_on call1 call2 schemas ->
  TupleSchema.fixed_items call1 schemas data items i ctx output issues =
  TupleSchema.fixed_items call2 schemas data items i ctx output issues.
Proof.
  revert i output issues. induction schemas as [|schema rest IH];
    intros i output issues H; cbn; [reflexivity|].
  apply agree_on_cons in H as [Hc H]. rewrite Hc.
  destruct (call2 schema _ _) as [v|[es|name]]; cbn; auto.
Qed.

Lemma rest_items_ext v data items i ctx output issues :
  agree_on call1 call2 [v] ->
  TupleSchema.rest_items call1 v data items i ctx output issues =
  TupleSchema.rest_items call2 v data items i ctx output issues.
Proof.
  intros H. apply agree_on_cons in H as [Hv _].
  revert i output issues. induction items as [|x rest IH];
    intros i output issues; cbn; [reflexivity|].
  rewrite Hv. destruct (call2 v _ _) as [pv|[es|name]]; cbn; auto.
Qed.

Lemma alternatives_ext opts data ctx issues :
  agree_on call1 call2 opts ->
  UnionSchema.alternatives call1 opts data ctx issues =
  UnionSchema.alternatives call2 opts data ctx issues.
Proof.
  revert issues. induction opts as [|o rest IH]; intros issues H; cbn;
    [reflexivity|].
  apply agree_on_cons in H as [Hc H]. rewrite Hc.
  destruct (call2 o _ _) as [v|[es|name]]; cbn; auto.
Qed.

Lemma probe_ext opts data ctx :
  agree_on call1 call2 opts ->
  DiscriminatedUnionSchema.probe call1 opts data ctx =
  DiscriminatedUnionSchema.probe call2 opts data ctx.
Proof.
  induction opts as [|o rest IH]; intros H; cbn; [reflexivity|].
  apply agree_on_cons in H as [Hc H]. rewrite Hc.
  destruct (call2 o data ctx); auto.
Qed.

Lemma matched_ext (m : list (value * C)) v data ctx :
  agree_on call1 call2 (map snd m) ->
  DiscriminatedUnionSchema.matched call1 m v data ctx =
  DiscriminatedUnionSchema.matched call2 m v data ctx.
Proof.
  induction m as [|[k o] rest IH]; intros H; cbn; [reflexivity|].
  apply agree_on_cons in H as [Hc H]. rewrite Hc.
  destruct (sameValueZero k v); auto.
Qed.

(** The class method of a node depends on [call] only through the children
    of the node. *)
Lemma parse_node_ext (ec : option ErrorCustomizer) (n : node C)
    (data : value) (ctx : ParseContext) :
  agree_on call1 call2 (children n) ->
  parse_node call1 ec n data ctx = parse_node call2 ec n data ctx.
Proof.
  intros H. destruct n; cbn [parse_node children] in *; try reflexivity.
  - unfold OptionalSchema_parse. destruct data; auto; apply H; now left.
  - unfold NullableSchema_parse. destruct data; auto; apply H; now left.
  - unfold NullishSchema_parse. destruct data; auto; apply H; now left.
  - unfold DefaultSchema_parse. destruct data; auto; apply H; now left.
  - unfold CatchSchema_parse. rewrite (H _inner); [reflexivity|now left].
  - unfold TransformSchema_parse. rewrite (H _inner); [reflexivity|now left].
  - unfold RefineSchema_parse. rewrite (H _inner); [reflexivity|now left].
  - unfold PipeSchema_parse. rewrite (H _first); [|now left].
    destruct (call2 _first data ctx); cbn; [|reflexivity].
    apply H. right. now left.
  - unfold ObjectSchema._parse. apply agree_on_app in H as [Hs Hc].
    rewrite (known_keys_ext _ _ _ _ _ Hs).
    destruct (not_object_or_null data || isArray data); [reflexivity|].
    destruct (ObjectSchema.known_keys call2 _ _ _ _ _) as [[output issues]|e];
      cbn; [|reflexivity].
    now rewrite (unknown_keys_ext _ _ _ _ _ _ _ _ Hc).
  - unfold RecordSchema._parse. now rewrite (record_entries_ext _ _ _ _ _ _ _ H).
  - unfold MapSchema._parse. destruct data; try reflexivity.
    now rewrite (map_entries_ext _ _ _ _ _ _ _ _ H).
  - unfold SetSchema._parse. destruct data; try reflexivity.
    now rewrite (set_members_ext _ _ _ _ _ _ _ H).
  - unfold ArraySchema._parse. destruct data; try reflexivity.
    now rewrite (array_elements_ext _ _ _ _ _ _ _ H).
  - unfold TupleSchema._parse. destruct data; try reflexivity.
    apply agree_on_app in H as [Hi Hr].
    rewrite (fixed_items_ext _ _ _ _ _ _ _ Hi).
    destruct _rest as [r|]; [|reflexivity].
    destruct (fail_if _ _); cbn; [|reflexivity].
    destruct (TupleSchema.fixed_items call2 _ _ _ _ _ _ _) as [[o i]|e]; cbn;
      [|reflexivity].
    now rewrite (rest_items_ext _ _ _ _ _ _ _ Hr).
  - unfold UnionSchema._parse. now rewrite (alternatives_ext _ _ _ _ H).
  - unfold DiscriminatedUnionSchema._parse. apply agree_on_app in H as [Ho Hm].
    now rewrite (matched_ext _ _ _ _ Hm), (probe_ext _ _ _ Ho).
  - unfold IntersectionSchema._parse. rewrite (H _left); [|now left].
    destruct (call2 _left data ctx); cbn; [|reflexivity].
    rewrite (H _right); [reflexivity|]. right. now left.
Qed.
End extensionality.

(** ** The store: derivations that allocate leave every node as it was *)

Module StoreFacts.
Import Store.

Lemma lookup_extend (h ext : heap) (r : ref) :
  in_store h r -> (h ++ ext) !! r = h !! r.
Proof. intros H. now apply lookup_app_l. Qed.

Lemma property_parse_extend (h ext : heap) (r : ref) :
  in_store h r -> property_parse (h ++ ext) r = property_parse h r.
Proof. intros H. unfold property_parse. now rewrite lookup_extend. Qed.

Lemma closed_lookup (h : heap) (r : ref) (o : object) :
  closed h -> h !! r = Some o -> Forall (in_store h) (object_refs o).
Proof.
  intros Hc Hr. unfold closed in Hc. rewrite Forall_forall in Hc.
  apply Hc. eapply list_elem_of_lookup_2, Hr.
Qed.

Lemma property_parse_refs (h : heap) (r : ref) :
  closed h -> in_store h r -> Forall (in_store h) (fn_refs (property_parse h r)).
Proof.
  intros Hc Hr. unfold property_parse.
  destruct (h !! r) as [o|] eqn:E; [|now repeat constructor].
  destruct (own_parse o) as [f|] eqn:Ef; cbn; [|now repeat constructor].
  pose proof (closed_lookup h r o Hc E) as Ho. unfold object_refs in Ho.
  rewrite Ef in Ho. now apply Forall_app in Ho as [_ Ho].
Qed.

(** Objects added at the end do not change a call that starts in the old
    part of a closed store. *)
Lemma invoke_extend (fuel : nat) (h ext : heap) (f : parse_fn)
    (data : value) (ctx : ParseContext) :
  closed h -> Forall (in_store h) (fn_refs f) ->
  invoke fuel (h ++ ext) f data ctx = invoke fuel h f data ctx.
Proof.
  intros Hc. revert f data ctx.
  induction fuel as [|fuel IH]; intros f data ctx Hf; [reflexivity|].
  destruct f as [this|fn original]; cbn [invoke fn_refs] in *.
  - apply Forall_cons in Hf as [Hthis _].
    rewrite lookup_extend by exact Hthis.
    destruct (h !! this) as [o|] eqn:E; [|reflexivity].
    apply parse_node_ext. intros c Hin d x.
    pose proof (closed_lookup h this o Hc E) as Ho.
    unfold object_refs in Ho. apply Forall_app in Ho as [Ho _].
    rewrite Forall_forall in Ho.
    assert (Hcin : in_store h c) by (apply Ho; now apply list_elem_of_In).
    rewrite property_parse_extend by exact Hcin.
    apply IH. now apply property_parse_refs.
  - destruct (fn data); cbn; [|reflexivity]. now apply IH.
Qed.

Lemma _parse_extend (fuel : nat) (h ext : heap) (r : ref)
    (data : value) (ctx : ParseContext) :
  closed h -> in_store h r ->
  _parse fuel (h ++ ext) r data ctx = _parse fuel h r data ctx.
Proof.
  intros Hc Hr. unfold _parse. rewrite property_parse_extend by exact Hr.
  apply invoke_extend; [exact Hc|]. now apply property_parse_refs.
Qed.

Lemma closed_extend (h : heap) (o : object) :
  closed h -> Forall (in_store h) (object_refs o) -> closed (h ++ [o]).
Proof.
  intros Hc Ho. unfold closed, in_store in *.
  rewrite Forall_app, length_app. cbn. split.
  - eapply Forall_impl; [exact Hc|]. cbn. intros x Hx.
    eapply Forall_impl; [exact Hx|]. cbn. lia.
  - constructor; [|constructor].
    eapply Forall_impl; [exact Ho|]. cbn. lia.
Qed.

Lemma get_some (r : ref) (h h' : heap) (o : object) :
  get r h = Some (o, h') -> h' = h /\ h !! r = Some o.
Proof.
  unfold get. destruct (h !! r); [|discriminate]. now intros [= -> ->].
Qed.

Lemma lookup_in_store (h : heap) (r : ref) (o : object) :
  h !! r = Some o -> in_store h r.
Proof. intros H. eapply lookup_lt_Some, H. Qed.

Lemma alloc_allocating (o : object) (h : heap) (r : ref) (h' : heap) :
  Forall (in_store h) (object_refs o) ->
  alloc o h = Some (r, h') ->
  r = List.length h /\ exists o', h' = h ++ [o'] /\ Forall (in_store h) (object_refs o').
Proof. intros Ho [= <- <-]. eauto. Qed.

(** A wrapper around [this], built after [this] was looked up. *)
Lemma wrapper_allocating (this : ref) (class : node ref) :
  (forall h, in_store h this -> Forall (in_store h) (children class)) ->
  allocating (get this;; create class).
Proof.
  intros Hch h r h' Hc. cbn. unfold mbind, M_bind.
  destruct (get this h) as [[o h1]|] eqn:E; [|discriminate].
  apply get_some in E as [-> E]. unfold create. intros H.
  eapply alloc_allocating; [|exact H].
  unfold object_refs. cbn. rewrite app_nil_r.
  apply Hch. eapply lookup_in_store, E.
Qed.

Lemma error_allocating (customizer : ErrorCustomizer) (this : ref) :
  allocating (error customizer this).
Proof.
  intros h r h' Hc. unfold error, mbind, M_bind.
  destruct (get this h) as [[o h1]|] eqn:E; [|discriminate].
  apply get_some in E as [-> E]. intros H.
  eapply alloc_allocating; [|exact H].
  exact (closed_lookup h this o Hc E).
Qed.

Lemma string_method_allocating (override : StringSchema.t -> StringSchema.t)
    (message : option String.string) (this : ref) :
  allocating (string_method override message this).
Proof.
  intros h r h' Hc. unfold string_method, mbind, M_bind.
  destruct (get this h) as [[o h1]|] eqn:E; [|discriminate].
  apply get_some in E as [-> E].
  destruct (class o); try discriminate. intros H.
  eapply alloc_allocating; [|exact H]. constructor.
Qed.

Lemma pipe_allocating (schema this : ref) : allocating (pipe schema this).
Proof.
  intros h r h' Hc. unfold pipe. cbn. unfold mbind, M_bind.
  destruct (get this h) as [[o h1]|] eqn:E; [|discriminate].
  apply get_some in E as [-> E].
  destruct (get schema h) as [[o2 h2]|] eqn:E2; [|discriminate].
  apply get_some in E2 as [-> E2]. unfold create. intros H.
  eapply alloc_allocating; [|exact H].
  unfold object_refs. cbn.
  repeat constructor; eapply lookup_in_store; eassumption.
Qed.

(** Every derivation of [BaseSchema] and every chainable method of
    [StringSchema] allocates. *)
Lemma derivations_allocate (this : ref) :
  (forall c, allocating (error c this))
  /\ allocating (optional this)
  /\ allocating (nullable this)
  /\ allocating (nullish this)
  /\ (forall d, allocating (default_ d this))
  /\ (forall d, allocating (catch d this))
  /\ (forall f, allocating (transform f this))
  /\ (forall p m, allocating (refine p m this))
  /\ (forall schema, allocating (pipe schema this))
  /\ (forall override m, allocating (string_method override m this)).
Proof.
  assert (W : forall class, children class = [this] ->
                allocating (get this;; create class)).
  { intros class E. apply wrapper_allocating. intros h Hin. rewrite E.
    constructor; [exact Hin|constructor]. }
  split; [intros c; apply error_allocating|].
  split; [now apply W|]. split; [now apply W|]. split; [now apply W|].
  split; [intros d; now apply W|]. split; [intros d; now apply W|].
  split; [intros f; now apply W|]. split; [intros p m; now apply W|].
  split; [intros schema; apply pipe_allocating|].
  intros override m. apply string_method_allocating.
Qed.

(** After an allocating derivation every node of the old store, the
    original included, parses every input as before, and the store stays
    closed. *)
Theorem allocating_keeps_originals (op : M ref) (h h' : heap) (derived : ref) :
  allocating op -> closed h -> op h = Some (derived, h') ->
  closed h'
  /\ ~ in_store h derived
  /\ forall original fuel data ctx,
       in_store h original ->
       _parse fuel h' original data ctx = _parse fuel h original data ctx.
Proof.
  intros Ha Hc Hop. destruct (Ha h derived h' Hc Hop) as (-> & o & -> & Ho).
  split; [now apply closed_extend|]. split; [unfold in_store; lia|].
  intros original fuel data ctx Hin. now apply _parse_extend.
Qed.
End StoreFacts.

(** ** Derived schemas and the store *)

(** C3, at the failing input: [preprocess] returns the node it was given
    and changes how that node parses. *)
Theorem C3_preprocess_mutates_original :
  exists (original derived : Store.ref) (before after : Store.heap),
    Store.string [] = Some (original, before)
    /\ Store.preprocess (fun _ => Ok (VNum 1)) original before = Some (derived, after)
    /\ derived = original
    /\ Store.parse 2 before original (VStr "x") = Ok (VStr "x")
    /\ is_validation_failure (Store.parse 2 after original (VStr "x")) = true.
Proof.
  do 4 eexists.
  split; [vm_compute; reflexivity|]. split; [vm_compute; reflexivity|].
  split; [reflexivity|]. split; vm_compute; reflexivity.
Qed.

(** ** Cases of the test suite ([index.test.ts]) and of the specification *)

Example test_string_min_max :
  let schema := Node None (StringSchema (StringSchema.max 5 (StringSchema.min 2 StringSchema.new))) in
  parse schema (VStr "abc") = Ok (VStr "abc")
  /\ is_validation_failure (parse schema (VStr "a")) = true
  /\ is_validation_failure (parse schema (VStr "abcdef")) = true
  /\ is_validation_failure (parse z.string (VNum 123)) = true
  /\ is_validation_failure (parse z.string VNull) = true
  /\ is_validation_failure (parse z.string VUndefined) = true.
Proof. repeat split. Qed.

Example test_string_trim_and_case :
  parse (Node None (StringSchema (StringSchema.trim StringSchema.new))) (VStr "  hello  ")
  = Ok (VStr "hello")
  /\ parse (Node None (StringSchema (StringSchema.toLowerCase StringSchema.new))) (VStr "HELLO")
     = Ok (VStr "hello")
  /\ parse (Node None (StringSchema (StringSchema.toUpperCase StringSchema.new))) (VStr "hello")
     = Ok (VStr "HELLO").
Proof. repeat split. Qed.

Example test_number_min_max :
  let schema := Node None (NumberSchema (NumberSchema.max 100 (NumberSchema.min 0 NumberSchema.new))) in
  parse schema (VNum 50) = Ok (VNum 50)
  /\ single_issue "too_big" root (parse schema (VNum 101))
  /\ single_issue "too_small" root (parse schema (VNum (-1)))
  /\ is_validation_failure (parse z.number (VStr "42")) = true
  /\ is_validation_failure (parse z.number (VNum PrimFloat.nan)) = true.
Proof.
  repeat split; try (unfold single_issue; do 3 eexists; reflexivity).
Qed.

Example test_union :
  let schema := z.union [z.string; z.number] in
  parse schema (VStr "hello") = Ok (VStr "hello")
  /\ parse schema (VNum 42) = Ok (VNum 42)
  /\ is_validation_failure (parse schema (VBool true)) = true.
Proof. repeat split. Qed.

Example test_discriminatedUnion :
  let schema := z.discriminatedUnion "type" tagged_members in
  parse schema (VObj [("type", VStr "a"); ("value", VStr "hello")])
  = Ok (VObj [("type", VStr "a"); ("value", VStr "hello")])
  /\ parse schema (VObj [("type", VStr "b"); ("value", VNum 42)])
     = Ok (VObj [("type", VStr "b"); ("value", VNum 42)]).
Proof. repeat split. Qed.

Example test_stringbool :
  parse (z.stringbool None) (VStr "true") = Ok (VBool true)
  /\ parse (z.stringbool None) (VStr "false") = Ok (VBool false)
  /\ parse (z.stringbool None) (VStr "yes") = Ok (VBool true)
  /\ parse (z.stringbool None) (VStr "no") = Ok (VBool false)
  /\ parse (z.stringbool None) (VStr "1") = Ok (VBool true)
  /\ parse (z.stringbool None) (VStr "0") = Ok (VBool false).
Proof. repeat split. Qed.

Example test_safeParse :
  safeParse z.string (VStr "hello") = Ok (Success (VStr "hello"))
  /\ exists issue issues, safeParse z.string (VNum 123) = Ok (Failure (issue :: issues)).
Proof. split; [reflexivity|]. do 2 eexists. reflexivity. Qed.

Example test_record_map_set :
  parse (z.record z.number None) (VObj [("a", VNum 1); ("b", VNum 2)])
  = Ok (VObj [("a", VNum 1); ("b", VNum 2)])
  /\ is_validation_failure
       (parse (z.record z.number None) (VObj [("a", VStr "not a number")])) = true
  /\ parse (z.map z.string z.number) (VMap [(VStr "a", VNum 1); (VStr "b", VNum 2)])
     = Ok (VMap [(VStr "a", VNum 1); (VStr "b", VNum 2)])
  /\ parse (z.set z.number) (VSet [VNum 1; VNum 2; VNum 3])
     = Ok (VSet [VNum 1; VNum 2; VNum 3]).
Proof. repeat split. Qed.

Example test_custom_error_messages :
  safeParse (Node (with_message (Some "Too short!") None)
               (StringSchema (StringSchema.min 5 StringSchema.new))) (VStr "hi")
  = Ok (Failure [{| code := "too_small"; path := []; msg := [Txt "Too short!"];
                    expected := None; received := None |}])
  /\ safeParse (Node (Some (Fixed "Custom error message")) (StringSchema StringSchema.new))
       (VNum 123)
     = Ok (Failure [{| code := "invalid_type"; path := [];
                       msg := [Txt "Custom error message"];
                       expected := Some [Txt "string"];
                       received := Some [Txt "number"] |}]).
Proof. repeat split. Qed.

(** An object with two invalid fields yields two issues, each with the path of
    its field. *)
Example spec_object_aggregates_field_issues :
  map path (issues_of (parse (z.object [("name", z.string); ("age", z.number)])
                         (VObj [("name", VNum 123); ("age", VStr "invalid")])))
  = [[Key "name"]; [Key "age"]].
Proof. reflexivity. Qed.

(** An array below its minimum length fails before any element is validated. *)
Example spec_array_size_before_elements :
  single_issue "too_small" root
    (parse (Node None (ArraySchema (ArraySchema.min 2 ArraySchema.new)
                         (z.transform (throwing "called"))))
       (VArr [VStr "a"])).
Proof. unfold single_issue. do 3 eexists. reflexivity. Qed.

(** [default] on an absent input returns the default without calling the
    child; [catch] swallows a failure of the child. *)
Example spec_default_and_catch :
  parse (Node None (DefaultSchema (z.transform (throwing "called")) (FallbackValue (VNum 7))))
    VUndefined = Ok (VNum 7)
  /\ parse (Node None (CatchSchema z.string (FallbackValue (VStr "fallback")))) (VNum 1)
     = Ok (VStr "fallback").
Proof. repeat split. Qed.

(** A strict object reports one [unrecognized_keys] issue for one undeclared
    key, beside the issues of the fields. *)
Example spec_strict_object :
  map code (issues_of (parse (z.strictObject [("a", z.string)])
                         (VObj [("b", VNull); ("a", VNum 1)])))
  = ["invalid_type"; "unrecognized_keys"].
Proof. reflexivity. Qed.

(** * Further properties *)

(** ** Where issues are reported *)

Section reported_paths.
Context {C : Type} (call : C -> value -> ParseContext -> result value).

Lemma reported_on_cons (c : C) (l : list C) :
  reported_on call (c :: l) ->
  (forall data ctx, well_reported (ctx_path ctx) (call c data ctx))
  /\ reported_on call l.
Proof.
  intros H. split; [apply H; now left|]. intros x Hx. apply H. now right.
Qed.

Lemma reported_on_app (l1 l2 : list C) :
  reported_on call (l1 ++ l2) -> reported_on call l1 /\ reported_on call l2.
Proof. intros H. split; intros c Hc; apply H, in_or_app; auto. Qed.

Lemma below_descend (ctx : ParseContext) (segments : list segment) (parent : value)
    (issues : list Issue) :
  Forall (fun i => ctx_path (descend ctx segments parent) `prefix_of` path i) issues ->
  Forall (fun i => ctx_path ctx `prefix_of` path i) issues.
Proof.
  intros H. eapply Forall_impl; [exact H|].
  intros i Hi. cbn in Hi. now apply prefix_app_l in Hi.
Qed.

(** A step of an aggregating loop on a child called below the context. *)
Ltac below_step Hc x :=
  match goal with
  | |- context [call ?c ?d (descend ?k ?s ?p)] =>
      let E := fresh "E" in
      pose proof (Hc d (descend k s p)) as E;
      destruct (call c d (descend k s p)) as [x|[x|x]]; cbn in E |- *;
      [ | destruct E as [_ E]; apply below_descend in E | ]
  end.

Lemma known_keys_collected shape input ctx output issues :
  reported_on call (map snd shape) ->
  Forall (fun i => ctx_path ctx `prefix_of` path i) issues ->
  collected (ctx_path ctx)
    (ObjectSchema.known_keys call shape input ctx output issues).
Proof.
  revert output issues. induction shape as [|[key schema] rest IH];
    intros output issues H Hi; cbn; [exact Hi|].
  cbn in H. apply reported_on_cons in H as [Hc H].
  below_step Hc x; auto. apply IH; auto. now apply Forall_app.
Qed.

Lemma unknown_keys_collected (shape : list (string * C)) mode catchall keys
    input ctx output issues :
  reported_on call (option_list catchall) ->
  Forall (fun i => ctx_path ctx `prefix_of` path i) issues ->
  collected (ctx_path ctx)
    (ObjectSchema.unknown_keys call shape mode catchall keys input ctx output issues).
Proof.
  intros H. revert output issues. induction keys as [|key rest IH];
    intros output issues Hi; cbn; [exact Hi|].
  destruct (key_in key shape); [now apply IH|].
  destruct catchall as [c|].
  - pose proof (proj1 (reported_on_cons _ _ H)) as Hc.
    below_step Hc x; auto. apply IH. now apply Forall_app.
  - destruct mode; apply IH; auto.
    apply Forall_app. split; [exact Hi|]. now repeat constructor.
Qed.

Lemma record_entries_collected k v keys input ctx output issues :
  reported_on call [k; v] ->
  Forall (fun i => ctx_path ctx `prefix_of` path i) issues ->
  collected (ctx_path ctx)
    (RecordSchema.entries call k v keys input ctx output issues).
Proof.
  intros H. apply reported_on_cons in H as [Hk H].
  apply reported_on_cons in H as [Hv _].
  revert output issues. induction keys as [|key rest IH];
    intros output issues Hi; cbn; [exact Hi|].
  below_step Hk x; auto.
  - below_step Hv y; auto. apply IH. now apply Forall_app.
  - apply IH. now apply Forall_app.
Qed.

Lemma map_entries_collected k v data items i ctx output issues :
  reported_on call [k; v] ->
  Forall (fun i => ctx_path ctx `prefix_of` path i) issues ->
  collected (ctx_path ctx)
    (MapSchema.entries call k v data items i ctx output issues).
Proof.
  intros H. apply reported_on_cons in H as [Hk H].
  apply reported_on_cons in H as [Hv _].
  revert i output issues. induction items as [|[key val] rest IH];
    intros i output issues Hi; cbn; [exact Hi|].
  below_step Hk x; auto.
  - below_step Hv y; auto. apply IH. now apply Forall_app.
  - apply IH. now apply Forall_app.
Qed.

Lemma set_members_collected v data items i ctx output issues :
  reported_on call [v] ->
  Forall (fun i => ctx_path ctx `prefix_of` path i) issues ->
  collected (ctx_path ctx)
    (SetSchema.members call v data items i ctx output issues).
Proof.
  intros H. apply reported_on_cons in H as [Hv _].
  revert i output issues. induction items as [|x rest IH];
    intros i output issues Hi; cbn; [exact Hi|].
  below_step Hv y; auto. apply IH. now apply Forall_app.
Qed.

Lemma array_elements_collected v data items i ctx output issues :
  reported_on call [v] ->
  Forall (fun i => ctx_path ctx `prefix_of` path i) issues ->
  collected (ctx_path ctx)
    (ArraySchema.elements call v data items i ctx output issues).
Proof.
  intros H. apply reported_on_cons in H as [Hv _].
  revert i output issues. induction items as [|x rest IH];
    intros i output issues Hi; cbn; [exact Hi|].
  below_step Hv y; auto. apply IH. now apply Forall_app.
Qed.

Lemma fixed_items_collected schemas data items i ctx output issues :
  reported_on call schemas ->
  Forall (fun i => ctx_path ctx `prefix_of` path i) issues ->
  collected (ctx_path ctx)
    (TupleSchema.fixed_items call schemas data items i ctx output issues).
Proof.
  revert i output issues. induction schemas as [|schema rest IH];
    intros i output issues H Hi; cbn; [exact Hi|].
  apply reported_on_cons in H as [Hc H].
  below_step Hc y; auto. apply IH; auto. now apply Forall_app.
Qed.

Lemma rest_items_collected v data items i ctx output issues :
  reported_on call [v] ->
  Forall (fun i => ctx_path ctx `prefix_of` path i) issues ->
  collected (ctx_path ctx)
    (TupleSchema.rest_items call v data items i ctx output issues).
Proof.
  intros H. apply reported_on_cons in H as [Hv _].
  revert i output issues. induction items as [|x rest IH];
    intros i output issues Hi; cbn; [exact Hi|].
  below_step Hv y; auto. apply IH. now apply Forall_app.
Qed.

Lemma alternatives_no_issues opts data ctx issues :
  is_validation_failure (UnionSchema.alternatives call opts data ctx issues) = false.
Proof.
  revert issues. induction opts as [|o rest IH]; intros issues; cbn; [reflexivity|].
  destruct (call o data ctx) as [x|[x|x]]; cbn; auto.
Qed.

Lemma matched_reported (m : list (value * C)) v data ctx :
  reported_on call (map snd m) ->
  match DiscriminatedUnionSchema.matched call m v data ctx with
  | Some r => well_reported (ctx_path ctx) r
  | None => True
  end.
Proof.
  induction m as [|[k o] rest IH]; intros H; cbn; [exact I|].
  cbn in H. apply reported_on_cons in H as [Hc H].
  destruct (sameValueZero k v); [apply Hc|now apply IH].
Qed.

Lemma _fail_reported {A} ec code m ctx e r :
  well_reported (ctx_path ctx) (@_fail A ec code m ctx e r).
Proof. cbn. split; [discriminate|]. now repeat constructor. Qed.

Lemma bind_reported {A B} (p : list segment) (r : result A) (k : A -> result B) :
  well_reported p r ->
  (forall a, well_reported p (k a)) ->
  well_reported p (r ≫= k).
Proof. destruct r as [a|[es|name]]; cbn; auto. Qed.

Lemma check_reported {A} (p : list segment) (field : option A)
    (violated : A -> bool) (failure : A -> result unit) :
  (forall x, well_reported p (failure x)) ->
  well_reported p (check field violated failure).
Proof.
  intros H. destruct field as [x|]; cbn; [|exact I].
  destruct (violated x); cbn; [apply H|exact I].
Qed.

Lemma fail_if_reported (p : list segment) (c : bool) (failure : result unit) :
  well_reported p failure -> well_reported p (fail_if c failure).
Proof. destruct c; cbn; auto. Qed.

(** The end of an aggregating method: the collected issues are thrown
    together, and only when there are some. *)
Lemma aggregate_reported {A} (p : list segment)
    (loop : result (A * list Issue)) (wrap : A -> value) :
  collected p loop ->
  well_reported p ('(output, issues) ← loop; output ← finish output issues; Ok (wrap output)).
Proof.
  destruct loop as [[output issues]|[es|name]]; cbn.
  - destruct issues; cbn; auto.
  - intros [].
  - auto.
Qed.

Lemma no_issues_reported {A} (p : list segment) (r : result A) :
  is_validation_failure r = false -> well_reported p r.
Proof. destruct r as [a|[es|name]]; cbn; auto. discriminate. Qed.

Lemma stringify_reported (p : list segment) (v : value) :
  well_reported p (JSON.stringify v).
Proof. destruct (stringify_cases v) as [-> | ->]; exact I. Qed.

Lemma rendered_reported (p : list segment) (values : list value) :
  well_reported p (map_throwing JSON.stringify values).
Proof. destruct (map_throwing_stringify_cases values) as [-> | ->]; exact I. Qed.

Ltac reported_steps :=
  repeat first
    [ apply _fail_reported
    | apply stringify_reported
    | apply rendered_reported
    | exact I
    | apply bind_reported; [| intros ?]
    | apply check_reported; intros ?
    | apply fail_if_reported ].

(** The class method of a node reports at or below its context when its
    children do and its callbacks raise no issues of their own. *)
Lemma parse_node_reported (ec : option ErrorCustomizer) (n : node C)
    (data : value) (ctx : ParseContext) :
  callbacks_raise_no_issues n -> reported_on call (children n) ->
  well_reported (ctx_path ctx) (parse_node call ec n data ctx).
Proof.
  intros Hcb H. destruct n; cbn [parse_node children callbacks_raise_no_issues] in *.
  - unfold StringSchema._parse. destruct data; reported_steps.
  - unfold NumberSchema._parse. destruct data; reported_steps.
  - unfold BooleanSchema._parse. destruct data; reported_steps.
  - unfold UndefinedSchema._parse. destruct data; reported_steps.
  - unfold NullSchema._parse. destruct data; reported_steps.
  - unfold VoidSchema._parse. destruct data; reported_steps.
  - exact I.
  - exact I.
  - apply _fail_reported.
  - unfold NaNSchema._parse. destruct data; reported_steps.
    destruct (Number.isNaN n); reported_steps.
  - unfold LiteralSchema._parse. destruct (negb _); reported_steps.
  - unfold EnumSchema._parse. destruct (negb _); reported_steps.
  - unfold StringBoolSchema._parse. destruct data; reported_steps.
    destruct (StringBoolSchema.has _ _); [exact I|].
    destruct (StringBoolSchema.has _ _); reported_steps.
  - apply no_issues_reported, Hcb.
  - unfold OptionalSchema_parse. destruct data; try exact I; apply H; now left.
  - unfold NullableSchema_parse. destruct data; try exact I; apply H; now left.
  - unfold NullishSchema_parse. destruct data; try exact I; apply H; now left.
  - unfold DefaultSchema_parse.
    destruct data; try (apply no_issues_reported, Hcb); apply H; now left.
  - unfold CatchSchema_parse.
    destruct (call _inner data ctx); [exact I|apply no_issues_reported, Hcb].
  - unfold TransformSchema_parse. apply bind_reported; [apply H; now left|].
    intros parsed. apply no_issues_reported, Hcb.
  - unfold RefineSchema_parse. apply bind_reported; [apply H; now left|].
    intros parsed. apply bind_reported; [apply no_issues_reported, Hcb|].
    intros holds. reported_steps.
  - unfold PipeSchema_parse. apply bind_reported; [apply H; now left|].
    intros first. apply H. right. now left.
  - unfold ObjectSchema._parse. apply reported_on_app in H as [Hs Hc].
    destruct (_ || _); [apply _fail_reported|].
    pose proof (known_keys_collected _shape data ctx [] [] Hs (Forall_nil_2 _)) as K.
    destruct (ObjectSchema.known_keys call _shape data ctx [] [])
      as [[output issues]|[es|name]]; cbn in K |- *; [|destruct K|exact I].
    destruct (_ || _).
    + apply (aggregate_reported _ _ VObj).
      now apply unknown_keys_collected.
    + apply (aggregate_reported _ (Ok (output, issues)) VObj). exact K.
  - unfold RecordSchema._parse. destruct (_ || _); [apply _fail_reported|].
    apply (aggregate_reported _ _ VObj). now apply record_entries_collected.
  - unfold MapSchema._parse. destruct data; try apply _fail_reported.
    apply (aggregate_reported _ _ VMap). now apply map_entries_collected.
  - unfold SetSchema._parse. destruct data; try apply _fail_reported.
    repeat (apply bind_reported;
            [apply check_reported; intros ?; apply _fail_reported|intros _]).
    apply (aggregate_reported _ _ VSet). now apply set_members_collected.
  - unfold ArraySchema._parse. destruct data; try apply _fail_reported.
    repeat (apply bind_reported;
            [apply check_reported; intros ?; apply _fail_reported|intros _]).
    apply (aggregate_reported _ _ VArr). now apply array_elements_collected.
  - unfold TupleSchema._parse. destruct data; try apply _fail_reported.
    apply reported_on_app in H as [Hi Hr].
    apply bind_reported;
      [destruct _rest; apply fail_if_reported, _fail_reported|intros _].
    pose proof (fixed_items_collected _items (VArr items) items 0 ctx [] []
                  Hi (Forall_nil_2 _)) as K.
    destruct (TupleSchema.fixed_items call _items (VArr items) items 0 ctx [] [])
      as [[output issues]|[es|name]]; cbn in K |- *; [|destruct K|exact I].
    destruct _rest as [rest|].
    + apply (aggregate_reported _ _ VArr). now apply rest_items_collected.
    + apply (aggregate_reported _ (Ok (output, issues)) VArr). exact K.
  - unfold UnionSchema._parse.
    pose proof (alternatives_no_issues _options data ctx []) as A.
    destruct (UnionSchema.alternatives call _options data ctx [])
      as [[v|]|[es|name]]; cbn -[_fail] in A |- *; try exact I; try discriminate A.
    apply _fail_reported.
  - unfold DiscriminatedUnionSchema._parse. apply reported_on_app in H as [Ho Hm].
    destruct (not_object_or_null data); [apply _fail_reported|].
    pose proof (matched_reported _map (get_prop data _discriminator) data ctx Hm) as M.
    destruct (DiscriminatedUnionSchema.matched call _ _ _ _); [exact M|].
    destruct (DiscriminatedUnionSchema.probe call _ _ _); reported_steps.
  - unfold IntersectionSchema._parse. apply bind_reported; [apply H; now left|].
    intros l. apply bind_reported; [apply H; right; now left|]. intros r.
    destruct (_ && _); exact I.
Qed.
End reported_paths.

Lemma validating_schema_reported (schema : Schema) :
  validating schema ->
  forall data ctx, well_reported (ctx_path ctx) (_parse schema data ctx).
Proof.
  revert schema. fix IH 2. intros schema [ec class Hcb Hch] data ctx.
  cbn [_parse]. apply parse_node_reported; [exact Hcb|].
  clear Hcb data ctx. induction Hch as [|c cs Hc _ IHcs].
  - intros c [].
  - intros c' [<-|Hin]; [now apply IH|now apply IHcs].
Qed.

(** X1: a schema whose callbacks throw no [ValidationError] of their own
    reports every issue at or below the path it was called with, and a
    [ValidationError] it raises is never empty; so the failure result of
    [safeParse] always holds at least one issue. *)
Theorem issues_lie_below_the_context_path (schema : Schema) (data : value)
    (ctx : ParseContext) :
  validating schema ->
  (forall issues,
     _parse schema data ctx = Raise (ValidationError issues) ->
     issues <> []
     /\ forall i, In i issues -> exists rest, path i = ctx_path ctx ++ rest)
  /\ (forall issues, safeParse schema data = Ok (Failure issues) -> issues <> []).
Proof.
  intros V. split.
  - intros issues E.
    pose proof (validating_schema_reported schema V data ctx) as R.
    rewrite E in R. destruct R as [Hne Hall]. split; [exact Hne|].
    intros i Hi. rewrite Forall_forall in Hall.
    apply Hall. now apply list_elem_of_In.
  - intros issues E. unfold safeParse in E.
    pose proof (validating_schema_reported schema V data root) as R.
    destruct (_parse schema data root) as [v|[es|name]]; try discriminate E.
    injection E as <-. apply R.
Qed.

Lemma issues_lie_below_the_context_path_witness :
  validating (z.object [("tags", z.array z.string)])
  /\ exists issues,
       _parse (z.object [("tags", z.array z.string)])
         (VObj [("tags", VArr [VStr "a"; VNum 1])])
         {| ctx_path := [Key "post"]; ctx_parent := None |}
       = Raise (ValidationError issues)
       /\ issues <> []
       /\ forall i, In i issues -> exists rest, path i = [Key "post"] ++ rest.
Proof.
  assert (V : validating (z.object [("tags", z.array z.string)])).
  { repeat (constructor; cbn; try exact I). }
  split; [exact V|]. eexists. split; [reflexivity|].
  apply (proj1 (issues_lie_below_the_context_path
                  (z.object [("tags", z.array z.string)])
                  (VObj [("tags", VArr [VStr "a"; VNum 1])])
                  {| ctx_path := [Key "post"]; ctx_parent := None |} V)).
  reflexivity.
Defined.

(** ** What the error customizer changes *)

Section own_message.
Context {C : Type} (call : C -> value -> ParseContext -> result value).

Lemma differ_refl {A} (r : result A) : differ_in_own_message r r.
Proof. now left. Qed.

Lemma _fail_differ {A} ec1 ec2 code m ctx e r :
  differ_in_own_message (@_fail A ec1 code m ctx e r) (@_fail A ec2 code m ctx e r).
Proof.
  right. unfold _fail. do 2 eexists. split; [reflexivity|]. split; [reflexivity|].
  repeat split.
Qed.

Lemma bind_differ {A B} (r1 r2 : result A) (k1 k2 : A -> result B) :
  differ_in_own_message r1 r2 ->
  (forall a, differ_in_own_message (k1 a) (k2 a)) ->
  differ_in_own_message (r1 ≫= k1) (r2 ≫= k2).
Proof.
  intros [<-|(i & j & -> & -> & S)] Hk.
  - destruct r1 as [a|e]; cbn; [apply Hk|now left].
  - right. exists i, j. cbn. auto.
Qed.

Lemma check_differ {A} (field : option A) (violated : A -> bool)
    (f1 f2 : A -> result unit) :
  (forall x, differ_in_own_message (f1 x) (f2 x)) ->
  differ_in_own_message (check field violated f1) (check field violated f2).
Proof.
  intros H. destruct field as [x|]; cbn; [|now left].
  destruct (violated x); cbn; [apply H|now left].
Qed.

Lemma fail_if_differ (c : bool) (f1 f2 : result unit) :
  differ_in_own_message f1 f2 ->
  differ_in_own_message (fail_if c f1) (fail_if c f2).
Proof. destruct c; cbn; [auto|now left]. Qed.

Ltac differ_steps :=
  repeat first
    [ apply _fail_differ
    | apply differ_refl
    | apply bind_differ; [| intros ?]
    | apply check_differ; intros ?
    | apply fail_if_differ ].

Lemma parse_node_differ (ec1 ec2 : option ErrorCustomizer) (n : node C)
    (data : value) (ctx : ParseContext) :
  differ_in_own_message (parse_node call ec1 n data ctx) (parse_node call ec2 n data ctx).
Proof.
  destruct n; cbn [parse_node].
  - unfold StringSchema._parse. destruct data; differ_steps.
  - unfold NumberSchema._parse. destruct data; differ_steps.
  - unfold BooleanSchema._parse. destruct data; differ_steps.
  - unfold UndefinedSchema._parse. destruct data; differ_steps.
  - unfold NullSchema._parse. destruct data; differ_steps.
  - unfold VoidSchema._parse. destruct data; differ_steps.
  - apply differ_refl.
  - apply differ_refl.
  - apply _fail_differ.
  - unfold NaNSchema._parse. destruct data; differ_steps.
    destruct (Number.isNaN n); differ_steps.
  - unfold LiteralSchema._parse. destruct (negb _); differ_steps.
  - unfold EnumSchema._parse. destruct (negb _); differ_steps.
  - unfold StringBoolSchema._parse. destruct data; differ_steps.
    destruct (StringBoolSchema.has _ _); [apply differ_refl|].
    destruct (StringBoolSchema.has _ _); differ_steps.
  - apply differ_refl.
  - apply differ_refl.
  - apply differ_refl.
  - apply differ_refl.
  - apply differ_refl.
  - apply differ_refl.
  - apply differ_refl.
  - unfold RefineSchema_parse. differ_steps.
  - apply differ_refl.
  - unfold ObjectSchema._parse. destruct (_ || _); differ_steps.
  - unfold RecordSchema._parse. destruct (_ || _); differ_steps.
  - unfold MapSchema._parse. destruct data; differ_steps.
  - unfold SetSchema._parse. destruct data; differ_steps.
  - unfold ArraySchema._parse. destruct data; differ_steps.
  - unfold TupleSchema._parse. destruct data; differ_steps.
    destruct _rest; differ_steps.
  - unfold UnionSchema._parse. differ_steps. destruct a; differ_steps.
  - unfold DiscriminatedUnionSchema._parse.
    destruct (not_object_or_null data); differ_steps.
    destruct (DiscriminatedUnionSchema.matched call _ _ _ _); [apply differ_refl|].
    destruct (DiscriminatedUnionSchema.probe call _ _ _); differ_steps.
  - apply differ_refl.
Qed.
End own_message.

(** X2: the error customizer of a node decides nothing but the message of
    the issue that the node itself raises: with another customizer (or none)
    the node accepts the same inputs with the same outputs, raises the same
    errors of its children, and raises its own single issue with the same
    code, path, expected and received. *)
Theorem customizer_changes_only_the_message (ec1 ec2 : option ErrorCustomizer)
    (class : node Schema) (data : value) (ctx : ParseContext) :
  differ_in_own_message
    (_parse (Node ec1 class) data ctx) (_parse (Node ec2 class) data ctx)
  /\ (forall out, _parse (Node ec1 class) data ctx = Ok out ->
                  _parse (Node ec2 class) data ctx = Ok out)
  /\ (forall name, _parse (Node ec1 class) data ctx = Raise (HostError name) ->
                   _parse (Node ec2 class) data ctx = Raise (HostError name)).
Proof.
  pose proof (parse_node_differ _parse ec1 ec2 class data ctx) as D.
  cbn [_parse]. split; [exact D|].
  destruct D as [<-|(i & j & -> & -> & _)]; split; intros ? E;
    try exact E; discriminate E.
Qed.

(** ** Property bags *)

(** The keys of a literal shape are distinct. *)
Ltac distinct_keys :=
  cbn;
  repeat (apply NoDup_cons; split;
          [rewrite list_elem_of_In; cbn; intuition discriminate|]);
  apply NoDup_nil_2.

Lemma obj_set_prop_set (props : list (string * value)) (key : string) (v : value) :
  obj_set props key v = prop_set props key v.
Proof.
  induction props as [|[k w] rest IH]; cbn; [reflexivity|].
  now rewrite IH.
Qed.

Lemma assoc_prop_set {A} (props : list (string * A)) (k key : string) (v : A) :
  assoc key (prop_set props k v) = if String.eqb k key then Some v else assoc key props.
Proof.
  induction props as [|[k' w] rest IH]; cbn.
  - reflexivity.
  - destruct (String.eqb k' k) eqn:E; cbn.
    + apply String.eqb_eq in E. subst k'. now destruct (String.eqb k key).
    + destruct (String.eqb k' key) eqn:E'; [|exact IH].
      apply String.eqb_eq in E'. subst key. rewrite String.eqb_sym in E.
      now rewrite E.
Qed.

Lemma assoc_obj_set (props : list (string * value)) (k key : string) (v : value) :
  assoc key (obj_set props k v) = if String.eqb k key then Some v else assoc key props.
Proof. rewrite obj_set_prop_set. apply assoc_prop_set. Qed.

(** An assignment to any key but [__proto__] defines the property. *)
Lemma obj_assign_obj_set (props : list (string * value)) (key : string) (v : value) :
  String.eqb key "__proto__" = false -> obj_assign props key v = obj_set props key v.
Proof. intros E. unfold obj_assign. now rewrite E. Qed.

Lemma inherited_proto (key : string) :
  inherited key = false -> String.eqb key "__proto__" = false.
Proof.
  unfold inherited, prototype_names. cbn [existsb]. intros H.
  destruct (String.eqb key "__proto__"); [|reflexivity].
  rewrite !orb_true_r in H. now rewrite ?orb_true_l in H.
Qed.

Lemma key_in_false {A} (key : string) (props : list (string * A)) :
  key_in key props = false <-> has_key key props = false /\ inherited key = false.
Proof. unfold key_in. apply orb_false_iff. Qed.

(** An assignment leaves the other keys as they are. *)
Lemma assoc_obj_assign_other (props : list (string * value)) (k key : string)
    (v : value) :
  String.eqb k key = false -> assoc key (obj_assign props k v) = assoc key props.
Proof.
  intros E. unfold obj_assign. destruct (String.eqb k "__proto__"); [reflexivity|].
  now rewrite assoc_obj_set, E.
Qed.

Lemma no_proto_key {A} (props : list (string * A)) :
  has_key "__proto__" props = false ->
  Forall (fun key => String.eqb key "__proto__" = false) (map fst props).
Proof.
  unfold has_key. induction props as [|[k v] rest IH]; cbn; [constructor|].
  destruct (String.eqb k "__proto__") eqn:E; [discriminate|].
  intros H. constructor; [exact E|now apply IH].
Qed.

Lemma assoc_app {A} (l1 l2 : list (string * A)) (key : string) :
  assoc key (l1 ++ l2) =
  match assoc key l1 with Some v => Some v | None => assoc key l2 end.
Proof.
  induction l1 as [|[k v] rest IH]; cbn; [reflexivity|].
  now destruct (String.eqb k key).
Qed.

Lemma assoc_none_has_key {A} (props : list (string * A)) (key : string) :
  has_key key props = false <-> assoc key props = None.
Proof. unfold has_key. destruct (assoc key props); split; congruence. Qed.

Lemma assoc_in_keys {A} (props : list (string * A)) (key : string) :
  includes_string (map fst props) key = has_key key props.
Proof.
  unfold has_key, includes_string.
  induction props as [|[k v] rest IH]; cbn; [reflexivity|].
  rewrite String.eqb_sym. destruct (String.eqb k key); [reflexivity|exact IH].
Qed.

Lemma has_key_in {A} (props : list (string * A)) (key : string) :
  has_key key props = true <-> In key (map fst props).
Proof.
  unfold has_key. induction props as [|[k v] rest IH]; cbn.
  - split; [discriminate|intros []].
  - destruct (String.eqb k key) eqn:E.
    + apply String.eqb_eq in E. split; auto.
    + apply String.eqb_neq in E. rewrite IH. split; [auto|]. intros [?|?]; tauto.
Qed.

(** A property set on a bag that does not hold the key is appended. *)
Lemma prop_set_fresh {A} (props : list (string * A)) (key : string) (v : A) :
  has_key key props = false -> prop_set props key v = props ++ [(key, v)].
Proof.
  unfold has_key. induction props as [|[k w] rest IH]; cbn; [reflexivity|].
  destruct (String.eqb k key); [discriminate|]. intros H. now rewrite IH.
Qed.

Lemma has_key_app {A} (l1 l2 : list (string * A)) (key : string) :
  has_key key (l1 ++ l2) = has_key key l1 || has_key key l2.
Proof.
  unfold has_key. rewrite assoc_app. now destruct (assoc key l1).
Qed.

(** Copying a bag with distinct keys into an empty one gives the bag back. *)
Lemma assign_copy_from {A} (acc src : list (string * A)) :
  NoDup (map fst (acc ++ src)) -> assign acc src = acc ++ src.
Proof.
  unfold assign. revert acc. induction src as [|[k v] rest IH]; intros acc H; cbn.
  - now rewrite app_nil_r.
  - rewrite prop_set_fresh.
    + rewrite IH; rewrite <- app_assoc; [reflexivity|exact H].
    + rewrite map_app in H. apply NoDup_app in H as (_ & H & _).
      destruct (has_key k acc) eqn:E; [|reflexivity].
      apply has_key_in in E. exfalso. apply (H k).
      * now apply list_elem_of_In.
      * cbn. left.
Qed.

Lemma assign_copy {A} (src : list (string * A)) :
  NoDup (map fst src) -> assign [] src = src.
Proof. intros H. now rewrite assign_copy_from. Qed.

(** Lookup after [{ ...target, ...src }]: a key of [src] wins. *)
Lemma assoc_assign {A} (target src : list (string * A)) (key : string) :
  NoDup (map fst src) ->
  assoc key (assign target src) =
  match assoc key src with Some v => Some v | None => assoc key target end.
Proof.
  unfold assign. revert target. induction src as [|[k v] rest IH];
    intros target H; cbn; [reflexivity|].
  apply NoDup_cons in H as [Hk H]. rewrite IH by exact H.
  rewrite assoc_prop_set. destruct (String.eqb k key) eqn:E; [|reflexivity].
  apply String.eqb_eq in E. subst k.
  destruct (assoc key rest) eqn:E'; [|reflexivity].
  exfalso. apply Hk. apply list_elem_of_In. apply (proj1 (has_key_in rest key)).
  unfold has_key. now rewrite E'.
Qed.

(** ** The loops of the composite schemas

    The loops append the outputs of the children; the source assigns them by
    index or by key.  The two agree whenever a child that fails reports at
    least one issue, which holds for every schema whose callbacks throw no
    [ValidationError] of their own. *)

Lemma parsed_from_length {A B} (f : nat -> A -> result B) (i : nat)
    (items : list A) (outputs : list B) :
  parsed_from f i items outputs -> List.length outputs = List.length items.
Proof.
  revert i outputs. induction items as [|x xs IH]; intros i [|y ys]; cbn;
    try tauto. intros [_ H]. f_equal. now apply (IH (S i)).
Qed.

Section loops.
Context {C : Type} (call : C -> value -> ParseContext -> result value).

(** A child that raises a [ValidationError] raises at least one issue. *)
Lemma reported_issues (c : C) (data : value) (ctx : ParseContext) (es : list Issue) :
  reported_on call [c] -> call c data ctx = Raise (ValidationError es) -> es <> [].
Proof.
  intros H E. pose proof (H c (or_introl eq_refl) data ctx) as R.
  rewrite E in R. apply R.
Qed.

Lemma array_elements_ok (e : C) data items i ctx output issues output' issues' :
  reported_on call [e] ->
  ArraySchema.elements call e data items i ctx output issues = Ok (output', issues') ->
  exists outs es,
    output' = output ++ outs /\ issues' = issues ++ es
    /\ (es = [] ->
        parsed_from (fun i x => call e x (descend ctx [Index i] data)) i items outs).
Proof.
  intros He. revert i output issues.
  induction items as [|x rest IH]; intros i output issues E; cbn in E.
  - injection E as <- <-. exists [], []. rewrite !app_nil_r.
    split; [|split]; [reflexivity|reflexivity|]. intros _. exact I.
  - destruct (call e x (descend ctx [Index i] data)) as [v|[es0|name]] eqn:Ex;
      cbn in E; [| |discriminate E].
    + destruct (IH _ _ _ E) as (outs & es & -> & -> & Hp).
      exists (v :: outs), es. rewrite <- app_assoc. split; [|split]; [reflexivity|reflexivity|]. intros ->.
      cbn. split; [exact Ex|now apply Hp].
    + destruct (IH _ _ _ E) as (outs & es & -> & -> & Hp).
      exists outs, (es0 ++ es). rewrite <- app_assoc. split; [|split]; [reflexivity|reflexivity|].
      intros Hnil. apply app_eq_nil in Hnil as [-> _].
      now apply reported_issues in Ex.
Qed.

Lemma known_keys_no_issues shape input ctx output issues :
  is_validation_failure (ObjectSchema.known_keys call shape input ctx output issues)
  = false.
Proof.
  revert output issues. induction shape as [|[key schema] rest IH];
    intros output issues; cbn; [reflexivity|].
  destruct (call schema _ _) as [v|[es|name]]; cbn; auto.
Qed.

Lemma unknown_keys_no_issues (shape : list (string * C)) mode catchall keys
    input ctx output issues :
  is_validation_failure
    (ObjectSchema.unknown_keys call shape mode catchall keys input ctx output issues)
  = false.
Proof.
  revert output issues. induction keys as [|key rest IH];
    intros output issues; cbn; [reflexivity|].
  destruct (key_in key shape); [apply IH|].
  destruct catchall as [c|].
  - destruct (call c _ _) as [v|[es|name]]; cbn; auto.
  - destruct mode; apply IH.
Qed.

(** The loop over the declared keys: the outputs, key by key. *)
Lemma known_keys_ok shape input ctx output issues output' issues' :
  reported_on call (map snd shape) ->
  NoDup (map fst output ++ map fst shape) ->
  Forall (fun key => String.eqb key "__proto__" = false) (map fst shape) ->
  ObjectSchema.known_keys call shape input ctx output issues = Ok (output', issues') ->
  exists outs es,
    output' = output ++ outs /\ issues' = issues ++ es
    /\ (es = [] ->
        Forall2 (fun ks kv =>
                   fst kv = fst ks
                   /\ call (snd ks) (get_prop input (fst ks))
                        (descend ctx [Key (fst ks)] input) = Ok (snd kv))
          shape outs).
Proof.
  revert output issues.
  induction shape as [|[key schema] rest IH]; intros output issues H N P E; cbn in E.
  - injection E as <- <-. exists [], []. rewrite !app_nil_r.
    split; [|split]; [reflexivity|reflexivity|]. intros _. constructor.
  - cbn in H, P. apply Forall_cons in P as [Pkey P].
    pose proof (H schema (or_introl eq_refl)) as Hs.
    assert (Hrest : reported_on call (map snd rest)).
    { intros c Hc. apply H. now right. }
    assert (Hfresh : has_key key output = false).
    { destruct (has_key key output) eqn:K; [|reflexivity].
      apply has_key_in in K. apply NoDup_app in N as (_ & N & _).
      exfalso. apply (N key); [now apply list_elem_of_In|cbn; left]. }
    destruct (call schema _ _) as [v|[es0|name]] eqn:Ex; cbn in E;
      [| |discriminate E].
    + rewrite (obj_assign_obj_set _ _ _ Pkey) in E.
      rewrite obj_set_prop_set, prop_set_fresh in E by exact Hfresh.
      assert (N' : NoDup (map fst (output ++ [(key, v)]) ++ map fst rest)).
      { rewrite map_app. cbn. rewrite <- app_assoc. exact N. }
      destruct (IH _ _ Hrest N' P E) as (outs & es & -> & -> & Hp).
      exists ((key, v) :: outs), es. rewrite <- app_assoc. split; [|split]; [reflexivity|reflexivity|].
      intros ->. constructor; [now split|now apply Hp].
    + assert (N' : NoDup (map fst output ++ map fst rest)).
      { cbn in N. apply NoDup_app in N as (N1 & N2 & N3).
        apply NoDup_app. split; [exact N1|]. split.
        - intros x Hx Hx'. apply (N2 x Hx). now right.
        - now apply NoDup_cons in N3 as [_ N3]. }
      destruct (IH _ _ Hrest N' P E) as (outs & es & -> & -> & Hp).
      exists outs, (es0 ++ es). rewrite <- app_assoc. split; [|split]; [reflexivity|reflexivity|].
      intros Hnil. apply app_eq_nil in Hnil as [-> _].
      specialize (Hs (get_prop input key) (descend ctx [Key key] input)).
      rewrite Ex in Hs. now destruct Hs.
Qed.

(** The loop over the declared keys touches the declared keys only. *)
Lemma known_keys_other shape input ctx output issues output' issues' key :
  ObjectSchema.known_keys call shape input ctx output issues = Ok (output', issues') ->
  has_key key shape = false ->
  assoc key output' = assoc key output.
Proof.
  revert output issues.
  induction shape as [|[k schema] rest IH]; intros output issues E K; cbn in E.
  - now injection E as <- <-.
  - unfold has_key in K. cbn in K. destruct (String.eqb k key) eqn:Ek;
      [discriminate K|]. fold (has_key key rest) in K.
    destruct (call schema _ _) as [v|[es0|name]]; cbn in E; [| |discriminate E].
    + rewrite (IH _ _ E K). now apply assoc_obj_assign_other.
    + apply (IH _ _ E K).
Qed.

Lemma known_keys_issues shape input ctx output issues output' issues' :
  ObjectSchema.known_keys call shape input ctx output issues = Ok (output', issues') ->
  exists es, issues' = issues ++ es.
Proof.
  revert output issues.
  induction shape as [|[k schema] rest IH]; intros output issues E; cbn in E.
  - injection E as <- <-. exists []. now rewrite app_nil_r.
  - destruct (call schema _ _) as [v|[es0|name]]; cbn in E; [| |discriminate E].
    + apply (IH _ _ E).
    + destruct (IH _ _ E) as (es & ->). exists (es0 ++ es). now rewrite app_assoc.
Qed.

(** The loop over the keys of the input in strict mode: one issue for every
    key that the shape does not declare. *)
Lemma unknown_keys_strict (shape : list (string * C)) keys input ctx
    output issues output' issues' :
  ObjectSchema.unknown_keys call shape strict None keys input ctx output issues
  = Ok (output', issues') ->
  (forall i, In i issues -> In i issues')
  /\ forall key, In key keys -> key_in key shape = false ->
       In {| code := "unrecognized_keys"; path := ctx_path ctx;
             msg := [Txt "Unrecognized key: "; Txt dquote; Txt key; Txt dquote];
             expected := None; received := None |} issues'.
Proof.
  revert output issues. induction keys as [|k rest IH]; intros output issues E;
    cbn in E.
  - injection E as <- <-. split; [auto|intros key []].
  - destruct (key_in k shape) eqn:K.
    + destruct (IH _ _ E) as [H1 H2]. split; [exact H1|].
      intros key [<-|Hin] Hk; [congruence|now apply H2].
    + destruct (IH _ _ E) as [H1 H2]. split.
      * intros i Hi. apply H1, in_or_app. now left.
      * intros key [<-|Hin] Hk; [|now apply H2].
        apply H1, in_or_app. right. now left.
Qed.

(** The loop over the keys of the input in passthrough mode: every key that
    the shape does not declare is copied. *)
Lemma unknown_keys_passthrough (shape : list (string * C)) keys input ctx
    output issues output' issues' key :
  ObjectSchema.unknown_keys call shape passthrough None keys input ctx output issues
  = Ok (output', issues') ->
  key_in key shape = false ->
  assoc key output' =
  if includes_string keys key then Some (get_prop input key) else assoc key output.
Proof.
  intros E K. revert output issues E.
  induction keys as [|k rest IH]; intros output issues E; cbn in E.
  - now injection E as <- <-.
  - unfold includes_string. cbn. fold (includes_string rest key).
    destruct (key_in k shape) eqn:Hk.
    + rewrite (IH _ _ E). destruct (String.eqb key k) eqn:Ek; [|reflexivity].
      apply String.eqb_eq in Ek. congruence.
    + apply key_in_false in Hk as [_ Hk].
      rewrite (IH _ _ E), (obj_assign_obj_set _ _ _ (inherited_proto k Hk)).
      rewrite assoc_obj_set. rewrite (String.eqb_sym key k).
      destruct (String.eqb k key) eqn:Ek.
      * apply String.eqb_eq in Ek. subst k. now destruct (includes_string rest key).
      * reflexivity.
Qed.

End loops.

Lemma validating_reported_on (cs : list Schema) :
  Forall validating cs -> reported_on _parse cs.
Proof.
  intros H c Hc data ctx. apply validating_schema_reported.
  rewrite Forall_forall in H. apply H. now apply list_elem_of_In.
Qed.

(** X3: an array schema checks its length constraints (exact length, min,
    max, in that order) before any element: the first violated constraint
    is raised alone, as a single issue with its code, whatever the element
    schema is; an array that conforms has its elements validated and their
    issues aggregated. *)
Theorem array_length_checks_come_first (ec : option ErrorCustomizer)
    (cfg : ArraySchema.t) (e : Schema) (items : list value) (ctx : ParseContext) :
  let data := VArr items in
  let found :=
    List.find (count_violates (Number.of_nat (List.length items)))
      (array_constraints cfg) in
  fail_fast_outcome count_issue_code found
    (aggregated (ArraySchema.elements _parse e data items 0 ctx [] []) VArr) ctx
    (_parse (Node ec (ArraySchema cfg e)) data ctx)
  /\ (forall c e',
        found = Some c ->
        single_issue (count_issue_code c) ctx
          (_parse (Node ec (ArraySchema cfg e')) data ctx)).
Proof.
  intros data found.
  assert (Harr : forall e',
    fail_fast_outcome count_issue_code found
      (aggregated (ArraySchema.elements _parse e' data items 0 ctx [] []) VArr) ctx
      (_parse (Node ec (ArraySchema cfg e')) data ctx)).
  { intros e'. subst found. cbn [_parse parse_node]. unfold ArraySchema._parse.
    cbn [data]. unfold array_constraints.
    rewrite <- (app_nil_r (option_list (MaxCount <$> _))).
    repeat (apply fail_fast_step;
            [ intros x; reflexivity | intros x; apply _fail_issue | ]).
    reflexivity. }
  split; [apply Harr|].
  intros c e' Hc. specialize (Harr e'). now rewrite Hc in Harr.
Qed.

(** X4: when an array schema accepts an input, the input is an array and the
    output is the array of the element schema's outputs, position by
    position, each element validated under the path of its index; the output
    has the length of the input. *)
Theorem array_output_is_elementwise (ec : option ErrorCustomizer)
    (cfg : ArraySchema.t) (e : Schema) (data : value) (ctx : ParseContext)
    (out : value) :
  validating e ->
  _parse (Node ec (ArraySchema cfg e)) data ctx = Ok out ->
  exists items outs,
    data = VArr items /\ out = VArr outs
    /\ parsed_from (fun i x => _parse e x (descend ctx [Index i] data)) 0 items outs
    /\ List.length outs = List.length items.
Proof.
  intros V H. cbn [_parse parse_node] in H. unfold ArraySchema._parse in H.
  destruct data; try discriminate H.
  repeat pass_check H.
  all: destruct (ArraySchema.elements _parse e (VArr items) items 0 ctx [] [])
         as [[output issues]|ex] eqn:E; try discriminate H;
       cbn in H; destruct issues; try discriminate H; cbn in H;
       injection H as <-;
       destruct (array_elements_ok _parse e _ _ _ _ _ _ _ _
                   (validating_reported_on [e] (Forall_cons_2 _ _ _ V (Forall_nil_2 _))) E)
         as (outs & es & Ho & Hi & Hp);
       cbn in Ho, Hi; subst output es;
       specialize (Hp eq_refl);
       exists items, outs; split; [reflexivity|]; split; [reflexivity|];
       split; [exact Hp|exact (parsed_from_length _ _ _ _ Hp)].
Qed.

Lemma array_output_is_elementwise_witness :
  exists items outs,
    VArr [VStr " a "; VStr "b"] = VArr items /\ VArr [VStr "a"; VStr "b"] = VArr outs
    /\ parsed_from
         (fun i x =>
            _parse (Node None (StringSchema (StringSchema.trim StringSchema.new))) x
              (descend root [Index i] (VArr [VStr " a "; VStr "b"])))
         0 items outs
    /\ List.length outs = List.length items.
Proof.
  apply (array_output_is_elementwise None
           (ArraySchema.min 1 ArraySchema.new)
           (Node None (StringSchema (StringSchema.trim StringSchema.new)))
           (VArr [VStr " a "; VStr "b"]) root (VArr [VStr "a"; VStr "b"])).
  - repeat constructor.
  - reflexivity.
Defined.

(** ** Object schemas *)

(** X5: when an object schema in strip mode (the default) whose shape
    declares none of the names of [Object.prototype] accepts a plain object,
    the output holds exactly the declared keys, in the order of the shape,
    each with the output of its schema on the input's own property
    (undefined when the input lacks the key), validated under the path of
    the key; no other key of the input reaches the output. *)
Theorem object_output_has_the_declared_keys (ec : option ErrorCustomizer)
    (shape : list (string * Schema)) (input : list (string * value))
    (ctx : ParseContext) (out : value) :
  let data := VObj input in
  NoDup (map fst shape) ->
  Forall (fun key => inherited key = false) (map fst shape) ->
  Forall validating (map snd shape) ->
  _parse (Node ec (ObjectSchema shape strip None)) data ctx = Ok out ->
  exists props,
    out = VObj props
    /\ map fst props = map fst shape
    /\ Forall2 (fun ks kv =>
                  fst kv = fst ks
                  /\ _parse (snd ks) (default VUndefined (assoc (fst ks) input))
                       (descend ctx [Key (fst ks)] data) = Ok (snd kv))
         shape props.
Proof.
  intros data N P V H. cbn [_parse parse_node] in H. unfold ObjectSchema._parse in H.
  destruct (not_object_or_null data || isArray data); [discriminate H|].
  destruct (ObjectSchema.known_keys _parse shape data ctx [] [])
    as [[output issues]|ex] eqn:E; [|discriminate H].
  cbn in H. destruct issues; [|discriminate H]. cbn in H. injection H as <-.
  assert (P' : Forall (fun key => String.eqb key "__proto__" = false) (map fst shape)).
  { eapply Forall_impl; [exact P|]. intros key. apply inherited_proto. }
  destruct (known_keys_ok _parse shape data ctx [] [] output []
              (validating_reported_on _ V) N P' E) as (outs & es & Ho & Hi & Hp).
  cbn in Ho, Hi. subst output es. exists outs. split; [reflexivity|].
  specialize (Hp eq_refl). split; [|exact Hp].
  clear -Hp. induction Hp as [|ks kv shape outs [Hk _] _ IH]; cbn; congruence.
Qed.

Lemma object_output_has_the_declared_keys_witness :
  exists props,
    VObj [("name", VStr "x"); ("nick", VUndefined)] = VObj props
    /\ map fst props = ["name"; "nick"]
    /\ Forall2 (fun ks kv =>
                  fst kv = fst ks
                  /\ _parse (snd ks)
                       (default VUndefined
                          (assoc (fst ks) [("constructor", VNum 1); ("name", VStr "x")]))
                       (descend root [Key (fst ks)]
                          (VObj [("constructor", VNum 1); ("name", VStr "x")]))
                     = Ok (snd kv))
         [("name", z.string); ("nick", Node None (OptionalSchema z.string))] props.
Proof.
  apply (object_output_has_the_declared_keys None
           [("name", z.string); ("nick", Node None (OptionalSchema z.string))]
           [("constructor", VNum 1); ("name", VStr "x")] root
           (VObj [("name", VStr "x"); ("nick", VUndefined)])).
  - distinct_keys.
  - repeat constructor.
  - repeat (constructor; cbn; try exact I).
  - reflexivity.
Defined.

(** X6: a strict object schema without a catchall never accepts a plain
    object that has a key which the shape does not declare and which is not
    a name of [Object.prototype], and the [ValidationError] it raises holds
    an [unrecognized_keys] issue for that key, at the path of the object
    itself. *)
Theorem strict_object_reports_undeclared_keys (ec : option ErrorCustomizer)
    (shape : list (string * Schema)) (props : list (string * value))
    (ctx : ParseContext) (key : string) :
  In key (map fst props) ->
  has_key key shape = false ->
  inherited key = false ->
  (forall out,
     _parse (Node ec (ObjectSchema shape strict None)) (VObj props) ctx <> Ok out)
  /\ (forall issues,
        _parse (Node ec (ObjectSchema shape strict None)) (VObj props) ctx
        = Raise (ValidationError issues) ->
        In {| code := "unrecognized_keys"; path := ctx_path ctx;
              msg := [Txt "Unrecognized key: "; Txt dquote; Txt key; Txt dquote];
              expected := None; received := None |} issues).
Proof.
  intros Hin Hk Hp. cbn [_parse parse_node]. unfold ObjectSchema._parse.
  assert (Hkey : key_in key shape = false) by (unfold key_in; now rewrite Hk, Hp).
  change (not_object_or_null (VObj props) || isArray (VObj props)) with false.
  cbv iota. change (negb (is_strip strict) || defined None) with true. cbv iota.
  change (object_keys (VObj props)) with (map fst props).
  pose proof (known_keys_no_issues _parse shape (VObj props) ctx [] []) as K.
  destruct (ObjectSchema.known_keys _parse shape (VObj props) ctx [] [])
    as [[output issues]|[es|name]]; cbn in K; try discriminate K.
  - cbn [mbind result_bind].
    pose proof (unknown_keys_no_issues _parse shape strict None (map fst props)
                  (VObj props) ctx output issues) as U.
    destruct (ObjectSchema.unknown_keys _parse shape strict None (map fst props)
                (VObj props) ctx output issues)
      as [[output' issues']|[es|name]] eqn:E; cbn in U; try discriminate U.
    + apply unknown_keys_strict in E as [_ E]. specialize (E key Hin Hkey).
      cbn. destruct issues' as [|i issues']; [destruct E|]. cbn.
      split; [discriminate|]. intros ? [= <-]. exact E.
    + cbn. split; discriminate.
  - cbn. split; discriminate.
Qed.

Lemma strict_object_reports_undeclared_keys_witness :
  exists issues,
    _parse (z.strictObject [("name", z.string)])
      (VObj [("name", VStr "x"); ("age", VNum 1)]) root
    = Raise (ValidationError issues)
    /\ In {| code := "unrecognized_keys"; path := [];
             msg := [Txt "Unrecognized key: "; Txt dquote; Txt "age"; Txt dquote];
             expected := None; received := None |} issues.
Proof.
  eexists. split; [reflexivity|].
  apply (proj2 (strict_object_reports_undeclared_keys None [("name", z.string)]
                  [("name", VStr "x"); ("age", VNum 1)] root "age"
                  (or_intror (or_introl eq_refl)) eq_refl eq_refl)).
  reflexivity.
Defined.

(** X7: when an object schema in passthrough mode (no catchall) whose shape
    declares none of the names of [Object.prototype] accepts a plain object,
    every key that the shape does not declare and that is not such a name is
    in the output exactly as it is in the input, not validated and not
    transformed. *)
Theorem passthrough_object_keeps_undeclared_keys (ec : option ErrorCustomizer)
    (shape : list (string * Schema)) (props : list (string * value))
    (ctx : ParseContext) (out : value) :
  Forall (fun key => inherited key = false) (map fst shape) ->
  _parse (Node ec (ObjectSchema shape passthrough None)) (VObj props) ctx = Ok out ->
  exists props',
    out = VObj props'
    /\ forall key,
         has_key key shape = false -> inherited key = false ->
         assoc key props' = assoc key props.
Proof.
  intros _ H. cbn [_parse parse_node] in H. unfold ObjectSchema._parse in H.
  change (not_object_or_null (VObj props) || isArray (VObj props)) with false in H.
  cbv iota in H.
  change (negb (is_strip passthrough) || defined None) with true in H. cbv iota in H.
  change (object_keys (VObj props)) with (map fst props) in H.
  destruct (ObjectSchema.known_keys _parse shape (VObj props) ctx [] [])
    as [[output issues]|ex] eqn:K; [|discriminate H].
  cbn [mbind result_bind] in H.
  destruct (ObjectSchema.unknown_keys _parse shape passthrough None (map fst props)
              (VObj props) ctx output issues)
    as [[output' issues']|ex] eqn:U; [|discriminate H].
  cbn in H. destruct issues'; [|discriminate H]. cbn in H. injection H as <-.
  exists output'. split; [reflexivity|]. intros key Hk Hp.
  assert (Hkey : key_in key shape = false) by (unfold key_in; now rewrite Hk, Hp).
  rewrite (unknown_keys_passthrough _ _ _ _ _ _ _ _ _ key U Hkey).
  rewrite (known_keys_other _ _ _ _ _ _ _ _ key K Hk).
  rewrite assoc_in_keys. unfold has_key. cbn.
  now destruct (assoc key props).
Qed.

Lemma passthrough_object_keeps_undeclared_keys_witness :
  exists props',
    VObj [("name", VStr "x"); ("age", VNum 1)] = VObj props'
    /\ forall key,
         has_key key [("name", z.string)] = false -> inherited key = false ->
         assoc key props' = assoc key [("age", VNum 1); ("name", VStr "x")].
Proof.
  apply (passthrough_object_keeps_undeclared_keys None [("name", z.string)]
           [("age", VNum 1); ("name", VStr "x")] root
           (VObj [("name", VStr "x"); ("age", VNum 1)])).
  - repeat constructor.
  - reflexivity.
Defined.

(** The names of [Object.prototype] count as declared: a strict schema lets
    such a key of the input pass, and a passthrough schema drops it. *)
Example inherited_names_count_as_declared :
  parse (z.strictObject [("name", z.string)])
    (VObj [("name", VStr "x"); ("constructor", VNum 1)])
  = Ok (VObj [("name", VStr "x")])
  /\ parse (z.looseObject [("name", z.string)])
       (VObj [("name", VStr "x"); ("toString", VNum 1); ("age", VNum 2)])
     = Ok (VObj [("name", VStr "x"); ("age", VNum 2)]).
Proof. split; reflexivity. Qed.


(** ** Literals and enums *)

Lemma set_has_app (s1 s2 : list value) (v : value) :
  set_has (s1 ++ s2) v = set_has s1 v || set_has s2 v.
Proof. unfold set_has. apply existsb_app. Qed.

Lemma set_has_same (s : list value) (v w : value) :
  sameValueZero v w = true -> set_has s w = true -> set_has s v = true.
Proof.
  unfold set_has. intros E H. apply existsb_exists in H as (x & Hx & Hw).
  apply existsb_exists. exists x. split; [exact Hx|].
  now apply (sameValueZero_trans v w x).
Qed.

Lemma set_has_set_add (s : list value) (x v : value) :
  set_has (set_add s x) v = set_has s v || sameValueZero v x.
Proof.
  unfold set_add. destruct (set_has s x) eqn:E.
  - destruct (sameValueZero v x) eqn:Ev; [|now rewrite orb_false_r].
    now rewrite (set_has_same s v x Ev E).
  - rewrite set_has_app. cbn. now rewrite orb_false_r.
Qed.

Lemma set_has_fold_add (items s : list value) (v : value) :
  set_has (fold_left set_add items s) v = set_has s v || set_has items v.
Proof.
  revert s. induction items as [|x rest IH]; intros s; cbn [fold_left].
  - unfold set_has. cbn. now rewrite orb_false_r.
  - rewrite IH, set_has_set_add. unfold set_has. cbn. now rewrite orb_assoc.
Qed.

(** X9: a literal schema built from a list of values accepts exactly the
    inputs that are SameValueZero-equal to one of the listed values (so a
    listed NaN accepts NaN, and a listed 0 accepts -0), and returns the
    input itself. *)
Theorem literal_accepts_the_listed_values (values : list value) (data out : value)
    (ctx : ParseContext) :
  _parse (z.literal (VArr values)) data ctx = Ok out
  <-> out = data /\ existsb (sameValueZero data) values = true.
Proof.
  unfold z.literal. cbn [_parse parse_node LiteralSchema.new].
  unfold LiteralSchema._parse. rewrite set_has_fold_add. cbn [set_has existsb orb].
  fold (set_has values data). unfold set_has.
  destruct (existsb (sameValueZero data) values); cbn [negb].
  - split; [intros [= <-]; auto|intros [-> _]; reflexivity].
  - split; [|intros [_ H]; discriminate H].
    destruct (map_throwing_stringify_cases (fold_left set_add values []))
      as [-> | ->]; [|discriminate].
    cbn [mbind result_bind].
    destruct (stringify_cases data) as [-> | ->]; discriminate.
Qed.

Lemma enum_has_app (l1 l2 : list string) (s : string) :
  EnumSchema.has (l1 ++ l2) s = EnumSchema.has l1 s || EnumSchema.has l2 s.
Proof. unfold EnumSchema.has. apply existsb_app. Qed.

Lemma enum_has_fold (values acc : list string) (s : string) :
  EnumSchema.has
    (fold_left (fun acc v => if EnumSchema.has acc v then acc else acc ++ [v])
       values acc) s
  = EnumSchema.has acc s || EnumSchema.has values s.
Proof.
  unfold EnumSchema.has. revert acc.
  induction values as [|v rest IH]; intros acc; cbn.
  - now rewrite orb_false_r.
  - rewrite IH. destruct (existsb (String.eqb v) acc) eqn:E.
    + destruct (String.eqb s v) eqn:Es; [|reflexivity].
      apply String.eqb_eq in Es. subst v. now rewrite E.
    + rewrite existsb_app. cbn. now rewrite orb_false_r, orb_assoc.
Qed.

(** The set built by the constructor has the members of the list. *)
Lemma enum_has_new (values : list string) (s : string) :
  EnumSchema.has (EnumSchema.new values) s = EnumSchema.has values s.
Proof. unfold EnumSchema.new. now rewrite enum_has_fold. Qed.

Lemma enum_has_filter (p : string -> bool) (values : list string) (s : string) :
  EnumSchema.has (List.filter p values) s = EnumSchema.has values s && p s.
Proof.
  unfold EnumSchema.has. induction values as [|v rest IH]; cbn; [reflexivity|].
  destruct (p v) eqn:Ev; cbn; rewrite IH.
  - destruct (String.eqb s v) eqn:Es; [|reflexivity].
    apply String.eqb_eq in Es. subst v. now rewrite Ev.
  - destruct (String.eqb s v) eqn:Es; [|reflexivity].
    apply String.eqb_eq in Es. subst v. rewrite Ev. cbn. now rewrite andb_false_r.
Qed.

Lemma enum_parse_ok (ec : option ErrorCustomizer) (_values : list string)
    (data out : value) (ctx : ParseContext) :
  EnumSchema._parse ec _values data ctx = Ok out
  <-> exists s, data = VStr s /\ out = data /\ EnumSchema.has _values s = true.
Proof.
  unfold EnumSchema._parse. split.
  - destruct (negb _) eqn:E.
    + destruct (stringify_cases data) as [-> | ->]; discriminate.
    + intros [= <-]. destruct data; try discriminate E.
      apply negb_false_iff in E. eauto.
  - intros (s & -> & -> & H). now rewrite H.
Qed.

(** X10: [exclude] returns an enum that accepts exactly the members of the
    receiver that are not among the excluded values; [extract] returns an
    enum that accepts exactly the values it is given, whether the receiver
    has them or not. *)
Theorem enum_exclude_and_extract (ec : option ErrorCustomizer)
    (_values values : list string) (data out : value) (ctx : ParseContext) :
  (_parse (Node ec (EnumSchema (EnumMethods.exclude values _values))) data ctx = Ok out
   <-> _parse (Node ec (EnumSchema _values)) data ctx = Ok out
       /\ forall s, data = VStr s -> includes_string values s = false)
  /\ (_parse (Node ec (EnumSchema (EnumMethods.extract values _values))) data ctx = Ok out
      <-> exists s, data = VStr s /\ out = data /\ includes_string values s = true).
Proof.
  cbn [_parse parse_node]. rewrite !enum_parse_ok. split.
  - unfold EnumMethods.exclude. split.
    + intros (s & -> & -> & H). rewrite enum_has_new, enum_has_filter in H.
      apply andb_true_iff in H as [H1 H2]. apply negb_true_iff in H2.
      split; [eauto|]. now intros ? [= <-].
    + intros [(s & -> & -> & H) Hex]. exists s. split; [reflexivity|].
      split; [reflexivity|]. rewrite enum_has_new, enum_has_filter, H.
      now rewrite (Hex s eq_refl).
  - unfold EnumMethods.extract. split.
    + intros (s & -> & -> & H). rewrite enum_has_new in H. eauto.
    + intros (s & -> & -> & H). exists s. rewrite enum_has_new. auto.
Qed.

(** ** Deriving an object schema from another *)

Lemma assoc_prop_delete {A} (props : list (string * A)) (k key : string) :
  assoc key (prop_delete props k) = if String.eqb k key then None else assoc key props.
Proof.
  unfold prop_delete. induction props as [|[k' v] rest IH]; cbn.
  - now destruct (String.eqb k key).
  - destruct (String.eqb k' k) eqn:E; cbn.
    + apply String.eqb_eq in E. subst k'. rewrite IH.
      now destruct (String.eqb k key).
    + rewrite IH. destruct (String.eqb k' key) eqn:E'; [|reflexivity].
      apply String.eqb_eq in E'. subst key. rewrite String.eqb_sym in E.
      now rewrite E.
Qed.

Lemma assoc_pick_from (keys : list string) (_shape acc : list (string * Schema))
    (key : string) :
  assoc key
    (fold_left
       (fun newShape key =>
          match assoc key _shape with
          | Some schema => prop_set newShape key schema
          | None => newShape
          end) keys acc)
  = if includes_string keys key
    then match assoc key _shape with Some s => Some s | None => assoc key acc end
    else assoc key acc.
Proof.
  revert acc. induction keys as [|k rest IH]; intros acc; cbn; [reflexivity|].
  rewrite IH. unfold includes_string. cbn. fold (includes_string rest key).
  destruct (String.eqb key k) eqn:E; cbn.
  - apply String.eqb_eq in E. subst k.
    destruct (assoc key _shape) eqn:Es.
    + rewrite assoc_prop_set, String.eqb_refl.
      now destruct (includes_string rest key).
    + now destruct (includes_string rest key).
  - assert (Hk : assoc key
                   match assoc k _shape with
                   | Some schema => prop_set acc k schema
                   | None => acc
                   end = assoc key acc).
    { destruct (assoc k _shape); [|reflexivity].
      rewrite assoc_prop_set. rewrite String.eqb_sym in E. now rewrite E. }
    now rewrite Hk.
Qed.

Lemma assoc_omit_from (keys : list string) (acc : list (string * Schema))
    (key : string) :
  assoc key (fold_left prop_delete keys acc)
  = if includes_string keys key then None else assoc key acc.
Proof.
  revert acc. induction keys as [|k rest IH]; intros acc; cbn; [reflexivity|].
  rewrite IH. unfold includes_string. cbn. fold (includes_string rest key).
  rewrite assoc_prop_delete, (String.eqb_sym key k).
  destruct (String.eqb k key); cbn; [|reflexivity].
  now destruct (includes_string rest key).
Qed.

Lemma fields_shape (this : Schema) ec _shape mode catchall :
  ObjectMethods.fields this = Some (ec, _shape, mode, catchall) ->
  this = Node ec (ObjectSchema _shape mode catchall)
  /\ ObjectMethods.shape this = _shape.
Proof.
  unfold ObjectMethods.shape. destruct this as [ec' []]; cbn; try discriminate.
  intros [= -> -> -> ->]. auto.
Qed.

(** X11: [extend] returns an object schema whose shape holds the keys of the
    receiver and of the extension, the extension winning on a common key;
    [merge] is [extend] with the shape of the other schema.  The result is a
    new plain object schema: it strips unknown keys and has no catchall and
    no error customizer, whatever the receiver had. *)
Theorem extend_overrides_and_resets_the_mode (this derived : Schema)
    (extension : list (string * Schema)) :
  NoDup (map fst (ObjectMethods.shape this)) ->
  NoDup (map fst extension) ->
  ObjectMethods.extend extension this = Some derived ->
  (forall key,
     assoc key (ObjectMethods.shape derived) =
     match assoc key extension with
     | Some schema => Some schema
     | None => assoc key (ObjectMethods.shape this)
     end)
  /\ ObjectMethods.fields derived
     = Some (None, ObjectMethods.shape derived, strip, None)
  /\ (forall other,
        ObjectMethods.merge other this
        = ObjectMethods.extend (ObjectMethods.shape other) this).
Proof.
  intros N1 N2 E. unfold ObjectMethods.extend in E.
  destruct (ObjectMethods.fields this) as [[[[ec _shape] mode] catchall]|] eqn:F;
    [|discriminate E].
  apply fields_shape in F as [-> S]. cbn in N1. injection E as <-.
  split; [|split; reflexivity].
  intros key. cbn. rewrite assoc_assign by exact N2.
  now rewrite assign_copy by exact N1.
Qed.

Lemma extend_overrides_and_resets_the_mode_witness :
  ObjectMethods.fields
    (z.object [("id", z.string); ("age", z.number)])
  = Some (None, ObjectMethods.shape (z.object [("id", z.string); ("age", z.number)]),
          strip, None).
Proof.
  apply (extend_overrides_and_resets_the_mode
           (z.strictObject [("id", z.number)])
           (z.object [("id", z.string); ("age", z.number)])
           [("id", z.string); ("age", z.number)]).
  - distinct_keys.
  - distinct_keys.
  - reflexivity.
Defined.

(** X12: [pick] keeps the listed keys that the receiver declares, and [omit]
    keeps the declared keys that are not listed, each with the schema it has
    in the receiver. *)
Theorem pick_and_omit_select_keys (this picked omitted : Schema)
    (keys : list string) (key : string) :
  NoDup (map fst (ObjectMethods.shape this)) ->
  ObjectMethods.pick keys this = Some picked ->
  ObjectMethods.omit keys this = Some omitted ->
  assoc key (ObjectMethods.shape picked)
  = (if includes_string keys key then assoc key (ObjectMethods.shape this) else None)
  /\ assoc key (ObjectMethods.shape omitted)
     = (if includes_string keys key then None else assoc key (ObjectMethods.shape this)).
Proof.
  intros N P O. unfold ObjectMethods.pick, ObjectMethods.omit in P, O.
  destruct (ObjectMethods.fields this) as [[[[ec _shape] mode] catchall]|] eqn:F;
    [|discriminate P].
  apply fields_shape in F as [-> S]. cbn in N.
  injection P as <-. injection O as <-. cbn. split.
  - unfold ObjectMethods.pick_shape. rewrite assoc_pick_from. cbn.
    now destruct (assoc key _shape).
  - unfold ObjectMethods.omit_shape. rewrite assoc_omit_from.
    now rewrite assign_copy by exact N.
Qed.

Lemma pick_and_omit_select_keys_witness :
  assoc "age" (ObjectMethods.shape (z.object [("age", z.number)]))
  = (if includes_string ["age"; "nick"] "age"
     then assoc "age" (ObjectMethods.shape (z.object [("id", z.string); ("age", z.number)]))
     else None)
  /\ assoc "age" (ObjectMethods.shape (z.object [("id", z.string)]))
     = (if includes_string ["age"; "nick"] "age" then None
        else assoc "age" (ObjectMethods.shape (z.object [("id", z.string); ("age", z.number)]))).
Proof.
  apply (pick_and_omit_select_keys
           (z.object [("id", z.string); ("age", z.number)])
           (z.object [("age", z.number)]) (z.object [("id", z.string)])
           ["age"; "nick"] "age").
  - distinct_keys.
  - reflexivity.
  - reflexivity.
Defined.

Lemma assoc_member {A} (props : list (string * A)) (k : string) (v : A) :
  NoDup (map fst props) -> In (k, v) props -> assoc k props = Some v.
Proof.
  induction props as [|[k' v'] rest IH]; cbn; [intros _ []|].
  intros N [[= -> ->]|Hin].
  - now rewrite String.eqb_refl.
  - apply NoDup_cons in N as [Hk N]. destruct (String.eqb k' k) eqn:E.
    + apply String.eqb_eq in E. subst k'. exfalso. apply Hk.
      apply list_elem_of_In, in_map_iff. now exists (k, v).
    + now apply IH.
Qed.

Lemma partial_shape_from (_shape pre rest : list (string * Schema)) :
  _shape = pre ++ rest -> NoDup (map fst _shape) ->
  fold_left
    (fun newShape key =>
       match assoc key _shape with
       | Some schema => prop_set newShape key (ObjectMethods.optional schema)
       | None => newShape
       end)
    (map fst rest)
    (map (fun ks => (fst ks, ObjectMethods.optional (snd ks))) pre)
  = map (fun ks => (fst ks, ObjectMethods.optional (snd ks))) _shape.
Proof.
  revert pre. induction rest as [|[k s] rest IH]; intros pre E N; cbn.
  - now rewrite E, app_nil_r.
  - rewrite (assoc_member _shape k s N) by (rewrite E; apply in_or_app; right; now left).
    rewrite prop_set_fresh.
    + specialize (IH (pre ++ [(k, s)])). rewrite map_app in IH. apply IH; [|exact N].
      now rewrite <- app_assoc.
    + destruct (has_key k _) eqn:K; [|reflexivity]. exfalso.
      apply has_key_in in K. rewrite map_map in K. cbn in K.
      rewrite E, map_app in N. apply NoDup_app in N as (_ & N & _).
      apply (N k); [now apply list_elem_of_In|cbn; left].
Qed.

Lemma partial_shape_map (_shape : list (string * Schema)) :
  NoDup (map fst _shape) ->
  ObjectMethods.partial_shape _shape
  = map (fun ks => (fst ks, ObjectMethods.optional (snd ks))) _shape.
Proof. intros N. now apply (partial_shape_from _shape [] _shape). Qed.

Lemma known_keys_all_missing (rest : list (string * Schema)) (input : value)
    (ctx : ParseContext) (output : list (string * value)) (issues : list Issue) :
  Forall (fun key => get_prop input key = VUndefined) (map fst rest) ->
  Forall (fun key => String.eqb key "__proto__" = false) (map fst rest) ->
  NoDup (map fst output ++ map fst rest) ->
  ObjectSchema.known_keys _parse
    (map (fun ks => (fst ks, ObjectMethods.optional (snd ks))) rest)
    input ctx output issues
  = Ok (output ++ map (fun ks => (fst ks, VUndefined)) rest, issues).
Proof.
  revert output. induction rest as [|[k s] rest IH]; intros output M P N; cbn.
  - now rewrite app_nil_r.
  - cbn in M, P. apply Forall_cons in M as [Mk M]. apply Forall_cons in P as [Pk P].
    rewrite Mk. cbn. rewrite (obj_assign_obj_set _ _ _ Pk).
    rewrite obj_set_prop_set, prop_set_fresh.
    + rewrite IH; [now rewrite <- app_assoc|exact M|exact P|].
      rewrite map_app. cbn. now rewrite <- app_assoc.
    + destruct (has_key k output) eqn:K; [|reflexivity]. exfalso.
      apply has_key_in in K. apply NoDup_app in N as (_ & N & _).
      apply (N k); [now apply list_elem_of_In|cbn; left].
Qed.

(** X13: [partial] wraps the schema of every declared key in an optional
    schema, keeping the keys and their order; when the shape declares none
    of the names of [Object.prototype], the schema it returns accepts a
    plain object that has none of the declared keys, and its output then
    holds every declared key with the value undefined. *)
Theorem partial_accepts_missing_keys (this derived : Schema)
    (props : list (string * value)) (ctx : ParseContext) :
  NoDup (map fst (ObjectMethods.shape this)) ->
  Forall (fun key => inherited key = false) (map fst (ObjectMethods.shape this)) ->
  Forall (fun key => assoc key props = None) (map fst (ObjectMethods.shape this)) ->
  ObjectMethods.partial this = Some derived ->
  ObjectMethods.shape derived
  = map (fun ks => (fst ks, ObjectMethods.optional (snd ks))) (ObjectMethods.shape this)
  /\ _parse derived (VObj props) ctx
     = Ok (VObj (map (fun ks => (fst ks, VUndefined)) (ObjectMethods.shape this))).
Proof.
  intros N I M P. unfold ObjectMethods.partial in P.
  destruct (ObjectMethods.fields this) as [[[[ec _shape] mode] catchall]|] eqn:F;
    [|discriminate P].
  apply fields_shape in F as [-> S]. cbn in N, I, M. injection P as <-.
  cbn [ObjectMethods.shape ObjectMethods.fields z.object].
  rewrite partial_shape_map by exact N. split; [reflexivity|].
  unfold z.object. cbn [_parse parse_node]. unfold ObjectSchema._parse.
  change (not_object_or_null (VObj props) || isArray (VObj props)) with false.
  cbv iota. rewrite known_keys_all_missing.
  - reflexivity.
  - eapply Forall_impl; [exact M|]. intros key Hk. cbn. now rewrite Hk.
  - eapply Forall_impl; [exact I|]. intros key. apply inherited_proto.
  - exact N.
Qed.

Lemma partial_accepts_missing_keys_witness :
  ObjectMethods.shape
    (z.object [("id", ObjectMethods.optional z.string);
               ("age", ObjectMethods.optional z.number)])
  = map (fun ks => (fst ks, ObjectMethods.optional (snd ks)))
      (ObjectMethods.shape (z.strictObject [("id", z.string); ("age", z.number)]))
  /\ _parse (z.object [("id", ObjectMethods.optional z.string);
                       ("age", ObjectMethods.optional z.number)])
       (VObj [("other", VNum 1)]) root
     = Ok (VObj (map (fun ks => (fst ks, VUndefined))
                   (ObjectMethods.shape
                      (z.strictObject [("id", z.string); ("age", z.number)])))).
Proof.
  apply (partial_accepts_missing_keys
           (z.strictObject [("id", z.string); ("age", z.number)])
           (z.object [("id", ObjectMethods.optional z.string);
                      ("age", ObjectMethods.optional z.number)])
           [("other", VNum 1)] root).
  - distinct_keys.
  - repeat constructor.
  - repeat constructor.
  - reflexivity.
Defined.

(** X15: [keyof] returns an enum schema that accepts exactly the strings
    that are declared keys of the receiver, and returns them unchanged. *)
Theorem keyof_accepts_the_declared_keys (this derived : Schema)
    (data out : value) (ctx : ParseContext) :
  ObjectMethods.keyof this = Some derived ->
  _parse derived data ctx = Ok out
  <-> exists s, data = VStr s /\ out = data
                /\ has_key s (ObjectMethods.shape this) = true.
Proof.
  unfold ObjectMethods.keyof. intros K.
  destruct (ObjectMethods.fields this) as [[[[ec _shape] mode] catchall]|] eqn:F;
    [|discriminate K].
  apply fields_shape in F as [-> S]. injection K as <-.
  unfold z.enum. cbn [_parse parse_node ObjectMethods.shape ObjectMethods.fields].
  rewrite enum_parse_ok. split; intros (s & -> & -> & H); exists s;
    (split; [reflexivity|]; split; [reflexivity|]).
  - rewrite enum_has_new in H. unfold EnumSchema.has in H.
    fold (includes_string (map fst _shape) s) in H. now rewrite assoc_in_keys in H.
  - rewrite enum_has_new. unfold EnumSchema.has.
    fold (includes_string (map fst _shape) s). now rewrite assoc_in_keys.
Qed.

Lemma keyof_accepts_the_declared_keys_witness :
  _parse (z.enum ["id"; "age"]) (VStr "age") root = Ok (VStr "age")
  <-> exists s, VStr "age" = VStr s /\ VStr "age" = VStr "age"
                /\ has_key s (ObjectMethods.shape
                                (z.object [("id", z.string); ("age", z.number)])) = true.
Proof.
  apply (keyof_accepts_the_declared_keys
           (z.object [("id", z.string); ("age", z.number)])
           (z.enum ["id"; "age"]) (VStr "age") (VStr "age") root).
  reflexivity.
Defined.

(** ** Intersections *)

Lemma spread_assign (target props : list (string * value)) :
  IntersectionSchema.spread target (VObj props) = assign target props.
Proof.
  unfold IntersectionSchema.spread, assign. cbn [IntersectionSchema.own_props].
  revert target. induction props as [|[k v] rest IH]; intros target; cbn;
    [reflexivity|].
  now rewrite obj_set_prop_set, IH.
Qed.

(** X16: when both sides of an intersection accept the input, the result is
    the merge of the two outputs if both are objects, the right side winning
    on a common key; in every other case it is the input itself, so what the
    two sides returned (a trimmed string, say) is dropped. *)
Theorem intersection_merges_or_returns_the_input (ec : option ErrorCustomizer)
    (l r : Schema) (data lv rv : value) (ctx : ParseContext) :
  _parse l data ctx = Ok lv ->
  _parse r data ctx = Ok rv ->
  (not_object_or_null lv || not_object_or_null rv = true ->
   _parse (Node ec (IntersectionSchema l r)) data ctx = Ok data)
  /\ (forall lp rp,
        lv = VObj lp -> rv = VObj rp ->
        NoDup (map fst lp) -> NoDup (map fst rp) ->
        exists props,
          _parse (Node ec (IntersectionSchema l r)) data ctx = Ok (VObj props)
          /\ forall key,
               assoc key props =
               match assoc key rp with
               | Some v => Some v
               | None => assoc key lp
               end).
Proof.
  intros Hl Hr. cbn [_parse parse_node]. unfold IntersectionSchema._parse.
  rewrite Hl. cbn [mbind result_bind]. rewrite Hr. cbn [mbind result_bind]. split.
  - intros H. rewrite <- negb_orb, H. reflexivity.
  - intros lp rp -> -> Nl Nr. cbn [not_object_or_null typeof negb orb andb String.eqb].
    change (negb (String.eqb "object" "object") || false) with false. cbn [negb andb].
    eexists. split; [reflexivity|]. intros key.
    rewrite !spread_assign, assoc_assign by exact Nr.
    now rewrite assign_copy by exact Nl.
Qed.

Lemma intersection_merges_or_returns_the_input_witness :
  _parse (z.intersection
            (Node None (StringSchema (StringSchema.trim StringSchema.new))) z.string)
    (VStr " a ") root
  = Ok (VStr " a ").
Proof.
  apply (intersection_merges_or_returns_the_input None
           (Node None (StringSchema (StringSchema.trim StringSchema.new))) z.string
           (VStr " a ") (VStr "a") (VStr " a ") root).
  - reflexivity.
  - reflexivity.
  - reflexivity.
Defined.

(** ** Sets *)

Lemma distinct_members_add (s : list value) (v : value) :
  distinct_members s = true -> distinct_members (set_add s v) = true.
Proof.
  unfold set_add. destruct (set_has s v) eqn:E; [auto|].
  induction s as [|x rest IH]; cbn; [reflexivity|].
  unfold set_has in E. cbn in E. apply orb_false_iff in E as [Ex E].
  intros H. apply andb_true_iff in H as [Hx H].
  rewrite set_has_app, negb_orb, Hx. cbn. rewrite orb_false_r.
  rewrite sameValueZero_sym, Ex. cbn. now apply IH.
Qed.

Lemma length_set_add (s : list value) (v : value) :
  List.length (set_add s v) <= S (List.length s).
Proof.
  unfold set_add. destruct (set_has s v); [lia|]. rewrite length_app. cbn. lia.
Qed.

Section set_loop.
Context {C : Type} (call : C -> value -> ParseContext -> result value).

Lemma set_members_distinct (v : C) data items i ctx output issues output' issues' :
  SetSchema.members call v data items i ctx output issues = Ok (output', issues') ->
  distinct_members output = true ->
  distinct_members output' = true
  /\ List.length output' <= List.length output + List.length items.
Proof.
  revert i output issues. induction items as [|x rest IH];
    intros i output issues E D; cbn in E.
  - injection E as <- <-. split; [exact D|lia].
  - destruct (call v x _) as [p|[es|name]]; cbn in E; [| |discriminate E].
    + destruct (IH _ _ _ E (distinct_members_add _ p D)) as [D' L].
      split; [exact D'|]. pose proof (length_set_add output p). cbn. lia.
    + destruct (IH _ _ _ E D) as [D' L]. split; [exact D'|]. cbn. lia.
Qed.

Lemma record_entries_ok (k v : C) keys input ctx output issues output' issues' :
  reported_on call [k; v] ->
  NoDup (map fst output ++ keys) ->
  Forall (fun key => String.eqb key "__proto__" = false) keys ->
  RecordSchema.entries call k v keys input ctx output issues = Ok (output', issues') ->
  exists outs es,
    output' = output ++ outs /\ issues' = issues ++ es
    /\ (es = [] ->
        Forall2 (fun key kv =>
                   fst kv = key
                   /\ is_raise (call k (VStr key) (descend ctx [Key key] input)) = false
                   /\ call v (get_prop input key) (descend ctx [Key key] input)
                      = Ok (snd kv))
          keys outs).
Proof.
  intros H. pose proof (H k (or_introl eq_refl)) as Hk.
  pose proof (H v (or_intror (or_introl eq_refl))) as Hv.
  revert output issues.
  induction keys as [|key rest IH]; intros output issues N P E; cbn in E.
  - injection E as <- <-. exists [], []. rewrite !app_nil_r.
    split; [|split]; [reflexivity|reflexivity|]. intros _. constructor.
  - apply Forall_cons in P as [Pkey P].
    assert (Hfresh : has_key key output = false).
    { destruct (has_key key output) eqn:K; [|reflexivity].
      apply has_key_in in K. apply NoDup_app in N as (_ & N & _).
      exfalso. apply (N key); [now apply list_elem_of_In|left]. }
    assert (N' : NoDup (map fst output ++ rest)).
    { apply NoDup_app in N as (N1 & N2 & N3).
      apply NoDup_app. split; [exact N1|]. split.
      - intros x Hx Hx'. apply (N2 x Hx). now right.
      - now apply NoDup_cons in N3 as [_ N3]. }
    specialize (Hk (VStr key) (descend ctx [Key key] input)).
    specialize (Hv (get_prop input key) (descend ctx [Key key] input)).
    destruct (call k (VStr key) _) as [pk|[es0|name]] eqn:Ek; cbn in E;
      [| |discriminate E].
    + destruct (call v (get_prop input key) _) as [pv|[es0|name]] eqn:Ev; cbn in E;
        [| |discriminate E].
      * rewrite (obj_assign_obj_set _ _ _ Pkey) in E.
        rewrite obj_set_prop_set, prop_set_fresh in E by exact Hfresh.
        assert (N'' : NoDup (map fst (output ++ [(key, pv)]) ++ rest)).
        { rewrite map_app. cbn. rewrite <- app_assoc. exact N. }
        destruct (IH _ _ N'' P E) as (outs & es & -> & -> & Hp).
        exists ((key, pv) :: outs), es. rewrite <- app_assoc.
        split; [|split]; [reflexivity|reflexivity|].
        intros ->. constructor; [|now apply Hp]. cbn. rewrite Ek. auto.
      * destruct (IH _ _ N' P E) as (outs & es & -> & -> & Hp).
        exists outs, (es0 ++ es). rewrite <- app_assoc.
        split; [|split]; [reflexivity|reflexivity|].
        intros Hnil. apply app_eq_nil in Hnil as [-> _]. now destruct Hv.
    + destruct (IH _ _ N' P E) as (outs & es & -> & -> & Hp).
      exists outs, (es0 ++ es). rewrite <- app_assoc.
      split; [|split]; [reflexivity|reflexivity|].
      intros Hnil. apply app_eq_nil in Hnil as [-> _]. now destruct Hk.
Qed.

Lemma fixed_items_length schemas data items i ctx output issues output' issues' :
  reported_on call schemas ->
  TupleSchema.fixed_items call schemas data items i ctx output issues
  = Ok (output', issues') ->
  exists es,
    issues' = issues ++ es
    /\ (es = [] -> List.length output' = List.length output + List.length schemas).
Proof.
  revert i output issues.
  induction schemas as [|schema rest IH]; intros i output issues H E; cbn in E.
  - injection E as <- <-. exists []. rewrite app_nil_r. split; [reflexivity|].
    cbn. lia.
  - pose proof (H schema (or_introl eq_refl)
                  (default VUndefined (items !! i)) (descend ctx [Index i] data)) as Hs.
    assert (Hrest : reported_on call rest) by (intros c Hc; apply H; now right).
    destruct (call schema _ _) as [p|[es0|name]]; cbn in E; [| |discriminate E].
    + destruct (IH _ _ _ Hrest E) as (es & -> & Hl). exists es.
      split; [reflexivity|]. intros Hnil. rewrite (Hl Hnil), length_app. cbn. lia.
    + destruct (IH _ _ _ Hrest E) as (es & -> & Hl). exists (es0 ++ es).
      rewrite <- app_assoc. split; [reflexivity|].
      intros Hnil. apply app_eq_nil in Hnil as [-> _]. now destruct Hs.
Qed.

Lemma rest_items_length (v : C) data items i ctx output issues output' issues' :
  reported_on call [v] ->
  TupleSchema.rest_items call v data items i ctx output issues
  = Ok (output', issues') ->
  exists es,
    issues' = issues ++ es
    /\ (es = [] -> List.length output' = List.length output + List.length items).
Proof.
  intros H. pose proof (H v (or_introl eq_refl)) as Hv.
  revert i output issues.
  induction items as [|x rest IH]; intros i output issues E; cbn in E.
  - injection E as <- <-. exists []. rewrite app_nil_r. split; [reflexivity|].
    cbn. lia.
  - specialize (Hv x (descend ctx [Index i] data)).
    destruct (call v x _) as [p|[es0|name]]; cbn in E; [| |discriminate E].
    + destruct (IH _ _ _ E) as (es & -> & Hl). exists es.
      split; [reflexivity|]. intros Hnil. rewrite (Hl Hnil), length_app. cbn. lia.
    + destruct (IH _ _ _ E) as (es & -> & Hl). exists (es0 ++ es).
      rewrite <- app_assoc. split; [reflexivity|].
      intros Hnil. apply app_eq_nil in Hnil as [-> _]. now destruct Hv.
Qed.
End set_loop.

(** X17: the output of a set schema has pairwise distinct members (compared
    as [Set] compares them) and never more members than the input; it can
    have fewer, when the member schema maps two members to the same value,
    and the size constraints were checked on the input, not on the output. *)
Theorem set_output_has_distinct_members (ec : option ErrorCustomizer)
    (cfg : SetSchema.t) (v : Schema) (data out : value) (ctx : ParseContext) :
  _parse (Node ec (SetSchema cfg v)) data ctx = Ok out ->
  exists items members,
    data = VSet items /\ out = VSet members
    /\ distinct_members members = true
    /\ List.length members <= List.length items.
Proof.
  intros H. cbn [_parse parse_node] in H. unfold SetSchema._parse in H.
  destruct data; try discriminate H.
  repeat pass_check H.
  all: destruct (SetSchema.members _parse v (VSet members) members 0 ctx [] [])
         as [[output issues]|ex] eqn:E; try discriminate H;
       cbn in H; destruct issues; try discriminate H; cbn in H;
       injection H as <-;
       destruct (set_members_distinct _parse v _ _ _ _ _ _ _ _ E eq_refl) as [D L];
       exists members, output; auto.
Qed.

Lemma set_output_has_distinct_members_witness :
  exists items members,
    VSet [VStr "A"; VStr "a"] = VSet items /\ VSet [VStr "a"] = VSet members
    /\ distinct_members members = true
    /\ List.length members <= List.length items.
Proof.
  apply (set_output_has_distinct_members None (SetSchema.min 2 SetSchema.new)
           (Node None (StringSchema (StringSchema.toLowerCase StringSchema.new)))
           (VSet [VStr "A"; VStr "a"]) (VSet [VStr "a"]) root).
  reflexivity.
Defined.

(** ** Records *)

(** X18: when a record schema accepts a plain object that has no key named
    [__proto__], the output holds exactly the keys of the input, in their
    order and as the input spells them (the output of the key schema is not
    used), each with the output of the value schema on the input's value. *)
Theorem record_output_keeps_the_input_keys (ec : option ErrorCustomizer)
    (k v : Schema) (props : list (string * value)) (ctx : ParseContext)
    (out : value) :
  NoDup (map fst props) ->
  has_key "__proto__" props = false ->
  validating k -> validating v ->
  _parse (Node ec (RecordSchema k v)) (VObj props) ctx = Ok out ->
  exists props',
    out = VObj props'
    /\ map fst props' = map fst props
    /\ Forall2 (fun key kv =>
                  fst kv = key
                  /\ is_raise (_parse k (VStr key) (descend ctx [Key key] (VObj props)))
                     = false
                  /\ _parse v (get_prop (VObj props) key)
                       (descend ctx [Key key] (VObj props)) = Ok (snd kv))
         (map fst props) props'.
Proof.
  intros N P Vk Vv H. cbn [_parse parse_node] in H. unfold RecordSchema._parse in H.
  change (not_object_or_null (VObj props) || isArray (VObj props)) with false in H.
  cbv iota in H. change (object_keys (VObj props)) with (map fst props) in H.
  destruct (RecordSchema.entries _parse k v (map fst props) (VObj props) ctx [] [])
    as [[output issues]|ex] eqn:E; [|discriminate H].
  cbn in H. destruct issues; [|discriminate H]. cbn in H. injection H as <-.
  destruct (record_entries_ok _parse k v (map fst props) (VObj props) ctx [] []
              output []
              (validating_reported_on [k; v]
                 (Forall_cons_2 _ _ _ Vk (Forall_cons_2 _ _ _ Vv (Forall_nil_2 _))))
              N (no_proto_key props P) E) as (outs & es & Ho & Hi & Hp).
  cbn in Ho, Hi. subst output es. specialize (Hp eq_refl).
  exists outs. split; [reflexivity|]. split; [|exact Hp].
  clear -Hp. induction Hp as [|key kv keys outs [Hk _] _ IH]; cbn; congruence.
Qed.

Lemma record_output_keeps_the_input_keys_witness :
  exists props',
    VObj [("Ab", VNum 1)] = VObj props'
    /\ map fst props' = map fst [("Ab", VNum 1)]
    /\ Forall2 (fun key kv =>
                  fst kv = key
                  /\ is_raise
                       (_parse (Node None (StringSchema
                                  (StringSchema.toLowerCase StringSchema.new)))
                          (VStr key) (descend root [Key key] (VObj [("Ab", VNum 1)])))
                     = false
                  /\ _parse z.number (get_prop (VObj [("Ab", VNum 1)]) key)
                       (descend root [Key key] (VObj [("Ab", VNum 1)])) = Ok (snd kv))
         (map fst [("Ab", VNum 1)]) props'.
Proof.
  apply (record_output_keeps_the_input_keys None
           (Node None (StringSchema (StringSchema.toLowerCase StringSchema.new)))
           z.number [("Ab", VNum 1)] root (VObj [("Ab", VNum 1)])).
  - distinct_keys.
  - reflexivity.
  - repeat (constructor; cbn; try exact I).
  - repeat (constructor; cbn; try exact I).
  - reflexivity.
Defined.

(** The assignment of the key [__proto__] adds no property to the output. *)
Example record_drops_the_proto_key :
  parse (z.record z.number None) (VObj [("__proto__", VNum 1); ("a", VNum 2)])
  = Ok (VObj [("a", VNum 2)]).
Proof. reflexivity. Qed.

(** ** Catch *)

(** X19: a catch wrapper whose fallback returns normally never fails: it
    returns the output of the inner schema or, whatever the inner schema
    raised (a [ValidationError] or any other exception), the fallback; so
    [safeParse] on it always succeeds. *)
Theorem catch_never_fails (ec : option ErrorCustomizer) (inner : Schema)
    (d : fallback) (v data : value) :
  eval_fallback d = Ok v ->
  exists out,
    safeParse (Node ec (CatchSchema inner d)) data = Ok (Success out)
    /\ parse (Node ec (CatchSchema inner d)) data = Ok out
    /\ (parse inner data = Ok out \/ (is_raise (parse inner data) = true /\ out = v)).
Proof.
  intros E. unfold safeParse, parse. cbn [_parse parse_node].
  unfold CatchSchema_parse.
  destruct (_parse inner data root) as [o|e].
  - exists o. auto.
  - rewrite E. exists v. auto.
Qed.

Lemma catch_never_fails_witness :
  exists out,
    safeParse (Node None (CatchSchema (z.transform (throwing "boom"))
                            (FallbackValue (VStr "fallback")))) VNull
    = Ok (Success out)
    /\ parse (Node None (CatchSchema (z.transform (throwing "boom"))
                           (FallbackValue (VStr "fallback")))) VNull = Ok out
    /\ (parse (z.transform (throwing "boom")) VNull = Ok out
        \/ (is_raise (parse (z.transform (throwing "boom")) VNull) = true
            /\ out = VStr "fallback")).
Proof.
  apply (catch_never_fails None (z.transform (throwing "boom"))
           (FallbackValue (VStr "fallback")) (VStr "fallback") VNull).
  reflexivity.
Defined.

(** ** Tuples *)

(** X20: a tuple schema checks the arity before any item: without a rest
    schema an array of another length raises a single [invalid_length]
    issue, with a rest schema a shorter array raises a single [too_small]
    issue, whatever the item schemas are; an accepted input is an array and
    the output is an array of the same length. *)
Theorem tuple_checks_the_arity_first (ec : option ErrorCustomizer)
    (schemas : list Schema) (rest : option Schema) (ctx : ParseContext) :
  (forall items,
     rest = None -> List.length items <> List.length schemas ->
     single_issue "invalid_length" ctx
       (_parse (Node ec (TupleSchema schemas rest)) (VArr items) ctx))
  /\ (forall items,
        rest <> None -> List.length items < List.length schemas ->
        single_issue "too_small" ctx
          (_parse (Node ec (TupleSchema schemas rest)) (VArr items) ctx))
  /\ (forall data out,
        Forall validating (schemas ++ option_list rest) ->
        _parse (Node ec (TupleSchema schemas rest)) data ctx = Ok out ->
        exists items outs,
          data = VArr items /\ out = VArr outs
          /\ List.length outs = List.length items
          /\ match rest with
             | None => List.length items = List.length schemas
             | Some _ => List.length schemas <= List.length items
             end).
Proof.
  split; [|split].
  - intros items -> Hlen. cbn [_parse parse_node]. unfold TupleSchema._parse.
    rewrite fail_if_bind.
    destruct (Nat.eqb_spec (List.length items) (List.length schemas)) as [E|_];
      [contradiction|]. cbn [negb]. apply _fail_single_issue.
  - intros items Hrest Hlen. cbn [_parse parse_node]. unfold TupleSchema._parse.
    destruct rest as [r|]; [|contradiction]. rewrite fail_if_bind.
    destruct (Nat.ltb_spec (List.length items) (List.length schemas)) as [_|E];
      [|lia]. apply _fail_single_issue.
  - intros data out V H. cbn [_parse parse_node] in H. unfold TupleSchema._parse in H.
    destruct data; try discriminate H.
    apply Forall_app in V as [Vs Vr].
    destruct rest as [r|]; rewrite fail_if_bind in H.
    + destruct (Nat.ltb_spec (List.length items) (List.length schemas)) as [|Hge];
        [discriminate H|].
      destruct (TupleSchema.fixed_items _parse schemas (VArr items) items 0 ctx [] [])
        as [[output issues]|ex] eqn:E; [|discriminate H].
      destruct (fixed_items_length _parse _ _ _ _ _ _ _ _ _
                  (validating_reported_on _ Vs) E) as (es & Hi & Hl).
      cbn in Hi. subst issues. cbn in Hl. cbn [mbind result_bind] in H.
      destruct (TupleSchema.rest_items _parse r (VArr items)
                  (drop (List.length schemas) items) (List.length schemas) ctx output es)
        as [[output' issues']|ex] eqn:R; [|discriminate H].
      destruct (rest_items_length _parse _ _ _ _ _ _ _ _ _
                  (validating_reported_on _ Vr) R) as (es' & Hi' & Hl').
      cbn in H. destruct issues'; [|discriminate H]. cbn in H. injection H as <-.
      symmetry in Hi'. apply app_eq_nil in Hi' as [-> ->].
      exists items, output'. split; [reflexivity|]. split; [reflexivity|].
      rewrite (Hl' eq_refl), (Hl eq_refl), length_drop. split; lia.
    + destruct (Nat.eqb_spec (List.length items) (List.length schemas)) as [Heq|];
        [|discriminate H]. cbn [negb] in H. cbv iota in H.
      destruct (TupleSchema.fixed_items _parse schemas (VArr items) items 0 ctx [] [])
        as [[output issues]|ex] eqn:E; [|discriminate H].
      destruct (fixed_items_length _parse _ _ _ _ _ _ _ _ _
                  (validating_reported_on _ Vs) E) as (es & Hi & Hl).
      cbn in Hi. subst issues. cbn in Hl. cbn in H.
      destruct es; [|discriminate H]. cbn in H. injection H as <-.
      exists items, output. split; [reflexivity|]. split; [reflexivity|].
      rewrite (Hl eq_refl). split; lia.
Qed.

Lemma tuple_checks_the_arity_first_witness :
  single_issue "invalid_length" root
    (_parse (Node None (TupleSchema [z.transform (throwing "called")] None))
       (VArr []) root)
  /\ single_issue "too_small" root
       (_parse (Node None (TupleSchema [z.transform (throwing "called")] (Some z.any)))
          (VArr []) root)
  /\ exists items outs,
       VArr [VStr "a"; VNum 1] = VArr items /\ VArr [VStr "a"; VNum 1] = VArr outs
       /\ List.length outs = List.length items
       /\ 1 <= List.length items.
Proof.
  split; [|split].
  - apply (proj1 (tuple_checks_the_arity_first None
                    [z.transform (throwing "called")] None root));
      [reflexivity|cbn; lia].
  - apply (proj1 (proj2 (tuple_checks_the_arity_first None
                           [z.transform (throwing "called")] (Some z.any) root)));
      [discriminate|cbn; lia].
  - apply (proj2 (proj2 (tuple_checks_the_arity_first None [z.string]
                           (Some z.number) root))
             (VArr [VStr "a"; VNum 1]) (VArr [VStr "a"; VNum 1])).
    + repeat (constructor; cbn; try exact I).
    + reflexivity.
Defined.

(** ** Numbers at their bounds *)

Lemma SFltb_irrefl (f : spec_float) : SFltb f f = false.
Proof.
  unfold SFltb, SFcompare. destruct f as [[]|[]| |[] m e]; cbn; try reflexivity.
  all: rewrite Z.compare_refl, Pos.compare_cont_refl; reflexivity.
Qed.

Lemma ltb_irrefl (x : float) : PrimFloat.ltb x x = false.
Proof. rewrite ltb_spec. apply SFltb_irrefl. Qed.

Lemma eqb_zero_inv (m : float) :
  PrimFloat.eqb m 0 = true -> exists s, Prim2SF m = S754_zero s.
Proof.
  rewrite eqb_spec, SFeqb_true_iff. intros [E _].
  destruct (Prim2SF m) as [s| | |]; cbn in E; try discriminate E. now exists s.
Qed.

Lemma rem_by_zero (x m : float) :
  PrimFloat.eqb m 0 = true -> Number.rem_is_zero x m = false.
Proof.
  intros E. destruct (eqb_zero_inv m E) as [s Hm].
  unfold Number.rem_is_zero. rewrite Hm. now destruct (Prim2SF x).
Qed.

(** X21: the bounds set by [min] and [max] ([gte], [lte]) are inclusive: a
    number that is its own lower and upper bound is accepted.  The bound of
    [gt] is [value + Number.EPSILON] and that of [lt] is
    [value - Number.EPSILON]: whenever that sum or difference rounds back to
    [value] (as it does for 100), [gt(value)] and [lt(value)] accept [value]
    itself. *)
Theorem number_bounds_at_the_bound (ec : option ErrorCustomizer) (value : float)
    (ctx : ParseContext) :
  Number.isNaN value = false ->
  _parse (Node ec (NumberSchema
                     (NumberSchema.max value (NumberSchema.min value NumberSchema.new))))
    (VNum value) ctx = Ok (VNum value)
  /\ ((value + Number.EPSILON)%float = value ->
      _parse (Node ec (NumberSchema (NumberSchema.gt value NumberSchema.new)))
        (VNum value) ctx = Ok (VNum value))
  /\ ((value - Number.EPSILON)%float = value ->
      _parse (Node ec (NumberSchema (NumberSchema.lt value NumberSchema.new)))
        (VNum value) ctx = Ok (VNum value)).
Proof.
  intros N. cbn [_parse parse_node]. unfold NumberSchema._parse.
  cbn [NumberSchema.max NumberSchema.min NumberSchema.gt NumberSchema.lt
       NumberSchema.new NumberSchema._min NumberSchema._max NumberSchema._int
       NumberSchema._positive NumberSchema._negative NumberSchema._nonnegative
       NumberSchema._nonpositive NumberSchema._finite NumberSchema._multipleOf].
  rewrite N. cbn [fail_if check andb mbind result_bind].
  split; [|split].
  - now rewrite ltb_irrefl.
  - intros ->. now rewrite ltb_irrefl.
  - intros ->. now rewrite ltb_irrefl.
Qed.

Lemma number_bounds_at_the_bound_witness :
  _parse (Node None (NumberSchema (NumberSchema.gt 100 NumberSchema.new)))
    (VNum 100) root = Ok (VNum 100).
Proof.
  apply (number_bounds_at_the_bound None 100%float root);
    vm_compute; reflexivity.
Defined.

(** X22: a number schema configured with [multipleOf(0)] accepts nothing:
    the remainder of a division by zero is never zero. *)
Theorem multipleOf_zero_accepts_nothing (ec : option ErrorCustomizer)
    (cfg : NumberSchema.t) (m : float) (data out : value) (ctx : ParseContext) :
  NumberSchema._multipleOf cfg = Some m ->
  PrimFloat.eqb m 0 = true ->
  _parse (Node ec (NumberSchema cfg)) data ctx <> Ok out.
Proof.
  intros Hm Hz H. cbn [_parse parse_node] in H. unfold NumberSchema._parse in H.
  destruct data; try discriminate H. rewrite Hm in H.
  do 7 pass_check H.
  all: repeat (rewrite check_bind in H;
               match type of H with
               | match ?o with Some _ => _ | None => _ end = _ =>
                   destruct o;
                   [ match type of H with
                     | (if ?b then _ else _) = _ => destruct b eqn:?; [discriminate H|]
                     end
                   | ]
               end).
  all: cbn [check] in H; rewrite (rem_by_zero n m Hz) in H; discriminate H.
Qed.

Lemma multipleOf_zero_accepts_nothing_witness :
  NumberSchema._multipleOf (NumberSchema.multipleOf 0 NumberSchema.new) = Some 0%float
  /\ _parse (Node None (NumberSchema (NumberSchema.multipleOf 0 NumberSchema.new)))
       (VNum 0) root <> Ok (VNum 0).
Proof.
  split; [reflexivity|].
  apply (multipleOf_zero_accepts_nothing None
           (NumberSchema.multipleOf 0 NumberSchema.new) 0%float (VNum 0) (VNum 0) root).
  - reflexivity.
  - vm_compute. reflexivity.
Defined.

(** ** Derivations on the store *)

Module DerivationFacts.
Import Store.

Lemma run_allocating (d : Derivation.t) (this : ref) :
  allocating (Derivation.run d this).
Proof.
  pose proof (StoreFacts.derivations_allocate this)
    as (He & Ho & Hn & Hni & Hd & Hc & Ht & Hr & Hp & Hs).
  destruct d; cbn [Derivation.run]; auto.
Qed.

Lemma preprocess_some (fn : value -> result value) (schema : ref) (h : heap)
    (o : object) :
  h !! schema = Some o ->
  preprocess fn schema h
  = Some (schema,
          <[schema := {| _errorCustomizer := _errorCustomizer o; class := class o;
                         own_parse :=
                           Some (Patched fn (default (Method schema) (own_parse o))) |}]> h).
Proof.
  intros E. unfold preprocess, mbind, M_bind, get, put, mret, M_ret. rewrite E.
  cbn. rewrite E. now destruct (own_parse o).
Qed.

Lemma lookup_patched (h : heap) (schema : ref) (o o' : object) :
  h !! schema = Some o ->
  @lookup ref object heap (@list_lookup object) schema (<[schema := o']> h) = Some o'.
Proof.
  intros E. apply list_lookup_insert_eq. eapply lookup_lt_Some, E.
Qed.

Lemma property_parse_new (h : heap) (o : object) :
  property_parse (h ++ [o]) (List.length h)
  = default (Method (List.length h)) (own_parse o).
Proof.
  assert (E : @lookup ref object heap (@list_lookup object) (List.length h) (h ++ [o])
              = Some o)
    by (apply list_lookup_middle; reflexivity).
  unfold property_parse. now rewrite E.
Qed.

Lemma class_new (fuel : nat) (h : heap) (o : object) (data : value)
    (ctx : ParseContext) :
  invoke (S fuel) (h ++ [o]) (Method (List.length h)) data ctx
  = parse_node (fun child => invoke fuel (h ++ [o]) (property_parse (h ++ [o]) child))
      (_errorCustomizer o) (class o) data ctx.
Proof.
  assert (E : @lookup ref object heap (@list_lookup object) (List.length h) (h ++ [o])
              = Some o)
    by (apply list_lookup_middle; reflexivity).
  cbn [invoke]. now rewrite E.
Qed.

Lemma property_parse_patched (h : heap) (schema : ref) (o o' : object) :
  h !! schema = Some o ->
  property_parse (<[schema := o']> h) schema = default (Method schema) (own_parse o').
Proof.
  intros E. unfold property_parse. now rewrite (lookup_patched h schema o o' E).
Qed.
End DerivationFacts.

(** X23: every derivation of [BaseSchema] ([error], [optional], [nullable],
    [nullish], [default], [catch], [transform], [refine], [pipe]) and every
    chainable method of [StringSchema] returns an object that did not exist
    before, and every schema that existed before, the receiver included,
    parses every input as it did. *)
Theorem derivations_return_new_objects (d : Derivation.t) (this derived : Store.ref)
    (h h' : Store.heap) :
  Store.closed h ->
  Derivation.run d this h = Some (derived, h') ->
  derived = List.length h
  /\ Store.closed h'
  /\ forall original fuel data ctx,
       Store.in_store h original ->
       Store._parse fuel h' original data ctx = Store._parse fuel h original data ctx.
Proof.
  intros Hc Hop.
  destruct (DerivationFacts.run_allocating d this h derived h' Hc Hop)
    as (-> & o & -> & Ho).
  split; [reflexivity|]. split; [now apply StoreFacts.closed_extend|].
  intros original fuel data ctx Hin. now apply StoreFacts._parse_extend.
Qed.

Lemma derivations_return_new_objects_witness :
  Derivation.run (Derivation.string_method (StringSchema.min 3) None) 0 [plain_string]
  = Some (1, [plain_string; with_class (StringSchema.min 3 StringSchema.new) plain_string])
  /\ forall original fuel data ctx,
       Store.in_store [plain_string] original ->
       Store._parse fuel
         [plain_string; with_class (StringSchema.min 3 StringSchema.new) plain_string]
         original data ctx
       = Store._parse fuel [plain_string] original data ctx.
Proof.
  split; [reflexivity|].
  assert (Hc : Store.closed [plain_string]) by (repeat constructor).
  apply (proj2 (proj2 (derivations_return_new_objects
                         (Derivation.string_method (StringSchema.min 3) None) 0 1
                         [plain_string]
                         [plain_string;
                          with_class (StringSchema.min 3 StringSchema.new) plain_string]
                         Hc eq_refl))).
Defined.

(** X24: on a schema that went through [preprocess], [error] has no effect:
    the copy it returns carries the patched [_parse] property, which calls the
    original object, so the copy parses every input exactly as the original
    does and the new customizer is never consulted. *)
Theorem customizer_after_preprocess_is_ignored (fn : value -> result value)
    (customizer : ErrorCustomizer) (schema derived : Store.ref)
    (h h' : Store.heap) :
  (Store.preprocess fn schema ≫= Store.error customizer) h = Some (derived, h') ->
  derived <> schema
  /\ (exists o, h' !! derived = Some o
                /\ Store._errorCustomizer o = Some customizer)
  /\ forall fuel data ctx,
       Store._parse fuel h' derived data ctx = Store._parse fuel h' schema data ctx.
Proof.
  unfold mbind at 1, Store.M_bind. intros H.
  destruct (h !! schema) as [o|] eqn:E.
  2:{ unfold Store.preprocess, mbind, Store.M_bind, Store.get in H.
      rewrite E in H. discriminate H. }
  rewrite (DerivationFacts.preprocess_some fn schema h o E) in H.
  set (o' := {| Store._errorCustomizer := Store._errorCustomizer o;
                Store.class := Store.class o;
                Store.own_parse :=
                  Some (Store.Patched fn
                          (default (Store.Method schema) (Store.own_parse o))) |}) in *.
  pose proof (DerivationFacts.lookup_patched h schema o o' E) as L.
  unfold Store.error, mbind, Store.M_bind, Store.get, Store.alloc in H.
  rewrite L in H. injection H as <- <-.
  assert (Hlt : schema < List.length (<[schema := o']> h)) by (eapply lookup_lt_Some, L).
  split; [lia|]. split.
  - eexists. split; [apply list_lookup_middle; reflexivity|reflexivity].
  - intros fuel data ctx. unfold Store._parse.
    rewrite DerivationFacts.property_parse_new.
    rewrite StoreFacts.property_parse_extend by exact Hlt.
    rewrite (DerivationFacts.property_parse_patched h schema o o' E). reflexivity.
Qed.

Lemma customizer_after_preprocess_is_ignored_witness :
  (Store.preprocess (fun v => Ok v) 0 ≫= Store.error (Fixed "custom")) [plain_string]
  = Some (1, [patched (fun v => Ok v) 0 plain_string;
              with_customizer (Fixed "custom") (patched (fun v => Ok v) 0 plain_string)])
  /\ forall fuel data ctx,
       Store._parse fuel
         [patched (fun v => Ok v) 0 plain_string;
          with_customizer (Fixed "custom") (patched (fun v => Ok v) 0 plain_string)]
         1 data ctx
       = Store._parse fuel
           [patched (fun v => Ok v) 0 plain_string;
            with_customizer (Fixed "custom") (patched (fun v => Ok v) 0 plain_string)]
           0 data ctx.
Proof.
  split; [reflexivity|].
  apply (proj2 (proj2 (customizer_after_preprocess_is_ignored
                         (fun v => Ok v) (Fixed "custom") 0 1 [plain_string]
                         [patched (fun v => Ok v) 0 plain_string;
                          with_customizer (Fixed "custom")
                            (patched (fun v => Ok v) 0 plain_string)]
                         eq_refl))).
Defined.

(** X25: a chainable method of [StringSchema] called on a string schema that
    went through [preprocess] returns a schema without the preprocessing: the
    clone is a new [StringSchema] with the fields and the customizer of the
    receiver, and the preprocessing function is never called on its input. *)
Theorem string_method_drops_the_preprocessing (fn : value -> result value)
    (override : StringSchema.t -> StringSchema.t) (message : option string)
    (schema derived : Store.ref) (h h' : Store.heap) (o : Store.object)
    (cfg : StringSchema.t) :
  h !! schema = Some o ->
  Store.class o = StringSchema cfg ->
  (Store.preprocess fn schema ≫= Store.string_method override message) h
  = Some (derived, h') ->
  forall fuel data ctx,
    Store._parse (S fuel) h' derived data ctx
    = StringSchema._parse (with_message message (Store._errorCustomizer o))
        (override cfg) data ctx.
Proof.
  intros E Hc H fuel data ctx. unfold mbind at 1, Store.M_bind in H.
  rewrite (DerivationFacts.preprocess_some fn schema h o E) in H.
  set (o' := {| Store._errorCustomizer := Store._errorCustomizer o;
                Store.class := Store.class o;
                Store.own_parse :=
                  Some (Store.Patched fn
                          (default (Store.Method schema) (Store.own_parse o))) |}) in *.
  pose proof (DerivationFacts.lookup_patched h schema o o' E) as L.
  unfold Store.string_method, mbind, Store.M_bind, Store.get, Store.alloc in H.
  rewrite L in H. cbn [Store.class o'] in H. rewrite Hc in H.
  injection H as <- <-.
  unfold Store._parse. rewrite DerivationFacts.property_parse_new.
  cbn [Store.own_parse default]. rewrite DerivationFacts.class_new. reflexivity.
Qed.

Lemma string_method_drops_the_preprocessing_witness :
  (Store.preprocess (throwing "called") 0
     ≫= Store.string_method (StringSchema.min 3) None) [plain_string]
  = Some (1, [patched (throwing "called") 0 plain_string;
              with_class (StringSchema.min 3 StringSchema.new) plain_string])
  /\ forall fuel data ctx,
       Store._parse (S fuel)
         [patched (throwing "called") 0 plain_string;
          with_class (StringSchema.min 3 StringSchema.new) plain_string]
         1 data ctx
       = StringSchema._parse (with_message None None)
           (StringSchema.min 3 StringSchema.new) data ctx.
Proof.
  split; [reflexivity|].
  apply (string_method_drops_the_preprocessing (throwing "called")
           (StringSchema.min 3) None 0 1 [plain_string]
           [patched (throwing "called") 0 plain_string;
            with_class (StringSchema.min 3 StringSchema.new) plain_string]
           plain_string StringSchema.new eq_refl eq_refl eq_refl).
Defined.

(** X26: [preprocess] applied twice to the same schema composes the two
    functions, the one registered last running first: the input goes through
    the second function, then through the first, then through the class
    method of the schema; an exception of either function ends the call. *)
Theorem preprocess_twice_composes (f g : value -> result value)
    (schema : Store.ref) (h : Store.heap) (o : Store.object) :
  h !! schema = Some o ->
  Store.own_parse o = None ->
  exists h',
    (Store.preprocess f schema ≫= Store.preprocess g) h = Some (schema, h')
    /\ forall fuel data ctx,
         Store._parse (S (S fuel)) h' schema data ctx
         = (d ← g data; d' ← f d; Store.invoke fuel h' (Store.Method schema) d' ctx).
Proof.
  intros E Hown. unfold mbind at 1, Store.M_bind.
  rewrite (DerivationFacts.preprocess_some f schema h o E). rewrite Hown.
  cbn [default].
  set (o' := {| Store._errorCustomizer := Store._errorCustomizer o;
                Store.class := Store.class o;
                Store.own_parse := Some (Store.Patched f (Store.Method schema)) |}).
  pose proof (DerivationFacts.lookup_patched h schema o o' E) as L.
  rewrite (DerivationFacts.preprocess_some g schema _ o' L).
  eexists. split; [reflexivity|]. intros fuel data ctx.
  unfold Store._parse.
  rewrite (DerivationFacts.property_parse_patched _ schema o' _ L).
  cbn [Store.own_parse default o']. reflexivity.
Qed.

Lemma preprocess_twice_composes_witness :
  exists h',
    (Store.preprocess (fun _ => Ok (VStr "first")) 0
       ≫= Store.preprocess (throwing "second")) [plain_string]
    = Some (0, h')
    /\ forall fuel data ctx,
         Store._parse (S (S fuel)) h' 0 data ctx
         = (d ← throwing "second" data;
            d' ← (fun _ => Ok (VStr "first")) d;
            Store.invoke fuel h' (Store.Method 0) d' ctx).
Proof.
  apply (preprocess_twice_composes (fun _ => Ok (VStr "first")) (throwing "second") 0
           [plain_string] plain_string eq_refl eq_refl).
Defined.

(** ** The clone of an object schema *)

(** X14: [required] unwraps nothing: it returns a clone, a new object of the
    class [ObjectSchema] with the shape, the mode, the catchall and the
    customizer of the receiver and without a [_parse] property of its own.
    Every schema that existed before parses as it did.  The clone parses
    every input as the class method of the receiver does, hence as the
    receiver itself when the receiver has no [_parse] property of its own;
    a preprocessing installed on the receiver is not copied. *)
Theorem required_returns_a_clone (this derived : Store.ref) (h h' : Store.heap) :
  Store.closed h ->
  Store.required this h = Some (derived, h') ->
  derived = List.length h
  /\ (exists o shape mode catchall,
        h !! this = Some o
        /\ Store.class o = ObjectSchema shape mode catchall
        /\ h' = h ++ [clone_of o])
  /\ Store.closed h'
  /\ (forall original fuel data ctx,
        Store.in_store h original ->
        Store._parse fuel h' original data ctx = Store._parse fuel h original data ctx)
  /\ (forall fuel data ctx,
        Store._parse fuel h' derived data ctx
        = Store.invoke fuel h (Store.Method this) data ctx)
  /\ (forall o,
        h !! this = Some o -> Store.own_parse o = None ->
        forall fuel data ctx,
          Store._parse fuel h' derived data ctx = Store._parse fuel h this data ctx).
Proof.
  intros Hc H.
  unfold Store.required, Store.ObjectSchema_clone, mbind, Store.M_bind, Store.get in H.
  destruct (h !! this) as [o|] eqn:E; [|discriminate H].
  destruct (Store.class o) eqn:Ecls; try discriminate H.
  unfold Store.alloc in H. injection H as <- <-.
  rewrite <- Ecls. fold (clone_of o).
  pose proof (StoreFacts.closed_lookup h this o Hc E) as Ho.
  assert (Hrefs : Forall (Store.in_store h) (Store.object_refs (clone_of o))).
  { unfold Store.object_refs in *. cbn [clone_of Store.class Store.own_parse].
    apply Forall_app in Ho as [Ho _]. rewrite app_nil_r. exact Ho. }
  assert (Hclone : forall fuel data ctx,
             Store._parse fuel (h ++ [clone_of o]) (List.length h) data ctx
             = Store.invoke fuel h (Store.Method this) data ctx).
  { intros fuel data ctx. unfold Store._parse.
    rewrite DerivationFacts.property_parse_new. cbn [clone_of Store.own_parse default].
    destruct fuel as [|fuel]; [reflexivity|].
    rewrite DerivationFacts.class_new. cbn [Store.invoke]. rewrite E.
    cbn [clone_of Store._errorCustomizer Store.class].
    apply parse_node_ext. intros c Hin d x.
    unfold Store.object_refs in Ho. apply Forall_app in Ho as [Ho _].
    rewrite Forall_forall in Ho.
    assert (Hcin : Store.in_store h c) by (apply Ho; now apply list_elem_of_In).
    rewrite StoreFacts.property_parse_extend by exact Hcin.
    apply StoreFacts.invoke_extend; [exact Hc|].
    now apply StoreFacts.property_parse_refs. }
  split; [reflexivity|].
  split; [exists o; do 3 eexists; split; [reflexivity|]; split; [exact Ecls|reflexivity]|].
  split; [now apply StoreFacts.closed_extend|].
  split; [intros original fuel data ctx Hin; now apply StoreFacts._parse_extend|].
  split; [exact Hclone|].
  intros o' [= <-] Hown fuel data ctx. rewrite Hclone.
  unfold Store._parse, Store.property_parse. rewrite E, Hown. reflexivity.
Qed.

Lemma required_returns_a_clone_witness :
  Store.required 1 [plain_string; name_object]
  = Some (2, [plain_string; name_object; clone_of name_object])
  /\ forall fuel data ctx,
       Store._parse fuel [plain_string; name_object; clone_of name_object] 2 data ctx
       = Store._parse fuel [plain_string; name_object] 1 data ctx.
Proof.
  split; [reflexivity|].
  assert (Hc : Store.closed [plain_string; name_object]).
  { repeat constructor. }
  apply (proj2 (proj2 (proj2 (proj2 (proj2
           (required_returns_a_clone 1 2 [plain_string; name_object]
              [plain_string; name_object; clone_of name_object] Hc eq_refl)))))
           name_object eq_refl eq_refl).
Defined.

(** The clone of a preprocessed object schema validates the raw input. *)
Example required_drops_the_preprocessing :
  exists derived h',
    (Store.preprocess (fun _ => Ok (VObj [("name", VStr "x")])) 1 ≫= Store.required)
      [plain_string; name_object] = Some (derived, h')
    /\ derived = 2
    /\ Store.parse 3 h' 1 VNull = Ok (VObj [("name", VStr "x")])
    /\ is_validation_failure (Store.parse 3 h' derived VNull) = true
    /\ Store.parse 3 h' derived (VObj [("name", VStr "y")])
       = Ok (VObj [("name", VStr "y")]).
Proof. do 2 eexists. repeat split. Qed.

(** ** The wrappers for undefined and null *)

(** X27: a nullish wrapper is an optional wrapper around a nullable one, and
    a nullable wrapper around an optional one: the three parse every input
    alike, whatever their customizers are. *)
Theorem nullish_is_optional_of_nullable
    (ec ec1 ec2 ec3 ec4 : option ErrorCustomizer) (inner : Schema)
    (data : value) (ctx : ParseContext) :
  _parse (Node ec (NullishSchema inner)) data ctx
  = _parse (Node ec1 (OptionalSchema (Node ec2 (NullableSchema inner)))) data ctx
  /\ _parse (Node ec (NullishSchema inner)) data ctx
     = _parse (Node ec3 (NullableSchema (Node ec4 (OptionalSchema inner)))) data ctx.
Proof.
  cbn [_parse parse_node].
  unfold NullishSchema_parse, OptionalSchema_parse, NullableSchema_parse.
  cbn [_parse parse_node].
  unfold OptionalSchema_parse, NullableSchema_parse.
  destruct data; split; reflexivity.
Qed.
